(** * The MQTT debug broker of [debug_mqtt_server/main.cpp]

    A shallow embedding of the broker's frame codec, packet handler and
    server loop, followed by the properties of its specification.

    Conventions of the embedding.
    - [uint8_t] is [byte]; a [std::vector<uint8_t>] is a [list byte];
      a [std::string] is a [string] (the two are converted with the
      Standard Library's bijection between [list byte] and [string]).
    - [size_t] is a [Z] reduced modulo [2^64] where the source can leave
      that range ([size_wrap]: the accumulated Remaining Length and
      [totalPacketLength]; positions inside a packet stay far below
      [2^64]); [int] is a [Z] kept in the signed 32-bit range by
      two's-complement wrap-around ([int_wrap]), which is what the
      compiled multiplications of [decodeRemainingLength] do when they
      overflow on a fifth length byte.
    - the session table is one shared store: [processPacket] works on the
      entry of a key of the table, and the broadcast of a PUBLISH reads
      the table that holds the publisher's own, already updated, entry.
    - everything the broker does to the outside world (a [sendAll] on a
      socket, a line on [std::cout], a [close], a sleep) is recorded, in
      order, as a list of [Event]s. *)

From Stdlib Require Import ZArith List Bool Lia ListSet Sorted.
From Stdlib.Strings Require Import String Ascii Byte.
From Stdlib Require Import DecimalString.
From Equations Require Import Equations.
Import ListNotations.

Local Open Scope Z_scope.

(** [inspect x] keeps the equation [x = y] when matching on [x]. *)
Definition inspect {A : Type} (x : A) : { y : A | x = y } := exist _ x eq_refl.

(** ** Machine integers and bytes *)

Definition u8 (b : byte) : Z := Z.of_N (Byte.to_N b).

(** [static_cast<uint8_t>(z)]: truncation to the low eight bits. *)
Definition to_u8 (z : Z) : byte :=
  match Byte.of_N (Z.to_N (z mod 256)) with
  | Some b => b
  | None => x00
  end.

Definition int_wrap (z : Z) : Z := (z + 2 ^ 31) mod 2 ^ 32 - 2 ^ 31.

Definition size_wrap (z : Z) : Z := z mod 2 ^ 64.

Definition size {A} (v : list A) : Z := Z.of_nat (List.length v).

(** [v[i]] for an index the source has checked to be in range. *)
Definition at_ (v : list byte) (i : Z) : byte := nth (Z.to_nat i) v x00.

(** [(v[pos] << 8) | v[pos + 1]], the big-endian 16-bit read. *)
Definition be16 (v : list byte) (pos : Z) : Z :=
  Z.lor (Z.shiftl (u8 (at_ v pos)) 8) (u8 (at_ v (pos + 1))).

(** [std::string(reinterpret_cast<const char*>(&v[pos]), n)]. *)
Definition substr (v : list byte) (pos n : Z) : string :=
  string_of_list_byte (firstn (Z.to_nat n) (skipn (Z.to_nat pos) v)).

(** ** Frame codec *)

Module Codec.

(** The loop of [decodeRemainingLength], walking the bytes from
    [buf[offset]] on.  [None] is the source's [return false]; [Some (c, l)]
    is [return true] after [c] bytes with [length = l]. *)
Fixpoint decode_loop (bytes : list byte) (multiplier length consumed : Z)
  : option (Z * Z) :=
  match bytes with
  | [] => None
  | encoded :: rest =>
      let length :=
        size_wrap (length + int_wrap (Z.land (u8 encoded) 127 * multiplier)) in
      let multiplier := int_wrap (multiplier * 128) in
      let consumed := consumed + 1 in
      if Z.land (u8 encoded) 128 =? 0 then Some (consumed, length)
      else if consumed >? 4 then None
      else decode_loop rest multiplier length consumed
  end.

(** [decodeRemainingLength buf offset]: on success the new offset and the
    decoded length; on failure [offset] is left as it was. *)
Definition decodeRemainingLength (buf : list byte) (offset : Z)
  : option (Z * Z) :=
  match decode_loop (skipn (Z.to_nat offset) buf) 1 0 0 with
  | Some (consumed, length) => Some (offset + consumed, length)
  | None => None
  end.

(** [encodeRemainingLength]: a do-while that emits the low seven bits and
    divides by 128 until nothing is left. *)
Equations? encodeRemainingLength (length : Z) : list byte
  by wf (Z.to_nat (Z.log2 length)) lt :=
  encodeRemainingLength length with inspect (0 <? length / 128) := {
    | exist _ true _ =>
        to_u8 (Z.lor (length mod 128) 128) :: encodeRemainingLength (length / 128)
    | exist _ false _ => [to_u8 (length mod 128)] }.
Proof.
  apply Z.ltb_lt in e.
  assert (0 < length) by (destruct (Z_lt_le_dec 0 length) as [|Hle]; [assumption|];
    exfalso; assert (length / 128 <= 0) by (apply Z.div_le_upper_bound; lia); lia).
  assert (128 <= length) by (destruct (Z_lt_le_dec length 128); [|assumption];
    rewrite Z.div_small in e; lia).
  change 128 with (2 ^ 7) at 1. rewrite <- Z.shiftr_div_pow2 by lia.
  rewrite Z.log2_shiftr by assumption.
  assert (7 <= Z.log2 length) by (apply Z.log2_le_pow2; lia).
  lia.
Qed.

End Codec.

Import Codec.

(** ** Sessions, configuration and the outside world *)

Record ClientSession := mkSession {
  fd : Z;
  clientId : string;
  subscriptions : set string;
  inbox : list byte  (* buffer with partial frames *)
}.

(** The session [main] stores on accept: a default [ClientSession] with
    its [fd] set. *)
Definition newSession (newFd : Z) : ClientSession :=
  {| fd := newFd; clientId := "?"; subscriptions := empty_set string; inbox := [] |}.

Definition set_fd (v : Z) (c : ClientSession) : ClientSession :=
  {| fd := v; clientId := clientId c; subscriptions := subscriptions c; inbox := inbox c |}.

Definition set_clientId (v : string) (c : ClientSession) : ClientSession :=
  {| fd := fd c; clientId := v; subscriptions := subscriptions c; inbox := inbox c |}.

Definition set_subscriptions (v : set string) (c : ClientSession) : ClientSession :=
  {| fd := fd c; clientId := clientId c; subscriptions := v; inbox := inbox c |}.

Definition set_inbox (v : list byte) (c : ClientSession) : ClientSession :=
  {| fd := fd c; clientId := clientId c; subscriptions := subscriptions c; inbox := v |}.

Record Config := mkConfig {
  port : Z;
  maxClients : Z;
  logPackets : bool;
  traceSubscriptions : bool;
  traceMessages : bool;
  quiet : bool;
  artificialDelayMs : Z
}.

Definition defaultConfig : Config :=
  {| port := 1883; maxClients := 8; logPackets := false;
     traceSubscriptions := false; traceMessages := true; quiet := false;
     artificialDelayMs := 0 |}.

(** What the broker does to the outside world. [EvSend fd data] is a call
    [sendAll(fd, data)], [EvLog line] a line written to [std::cout]. *)
Inductive Event :=
| EvSend (fd : Z) (data : list byte)
| EvLog (line : string)
| EvClose (fd : Z)
| EvSleep (ms : Z).

(** ** The session table, a [std::map<int, ClientSession>]

    Kept as an association list in ascending key order, the order in which
    the source iterates over it. *)

Definition Clients := list (Z * ClientSession).

Fixpoint map_find (k : Z) (m : Clients) : option ClientSession :=
  match m with
  | [] => None
  | (k', v) :: rest => if k' =? k then Some v else map_find k rest
  end.

(** A write through the reference [pair.second] of the entry with key [k]. *)
Fixpoint map_store (k : Z) (v : ClientSession) (m : Clients) : Clients :=
  match m with
  | [] => []
  | (k', v') :: rest =>
      if k' =? k then (k', v) :: rest else (k', v') :: map_store k v rest
  end.

(** [clients[k] = v]. *)
Fixpoint map_assign (k : Z) (v : ClientSession) (m : Clients) : Clients :=
  match m with
  | [] => [(k, v)]
  | (k', v') :: rest =>
      if k <? k' then (k, v) :: (k', v') :: rest
      else if k =? k' then (k, v) :: rest
      else (k', v') :: map_assign k v rest
  end.

(** [clients.erase(k)]. *)
Definition map_erase (k : Z) (m : Clients) : Clients :=
  filter (fun pair => negb (fst pair =? k)) m.

Definition keys (m : Clients) : list Z := map fst m.

(** ** Logging *)

Local Open Scope string_scope.
Local Open Scope Z_scope.

Definition log (msg : string) (quiet : bool) : list Event :=
  if quiet then [] else [EvLog msg].

(** [std::to_string] of an integer. *)
Definition to_string (z : Z) : string := NilZero.string_of_int (Z.to_int z).

Definition hexDigit (n : Z) : ascii :=
  nth (Z.to_nat n) (list_ascii_of_string "0123456789abcdef") "0"%char.

Definition hex2 (b : byte) : string :=
  String (hexDigit (Z.shiftr (u8 b) 4)) (String (hexDigit (Z.land (u8 b) 15)) "").

Fixpoint toHex (data : list byte) : string :=
  match data with
  | [] => ""
  | b :: rest =>
      match rest with
      | [] => hex2 b
      | _ :: _ => hex2 b ++ " " ++ toHex rest
      end
  end.

(** ** Response packets *)

Definition sendConnack (fd : Z) : list Event := [EvSend fd [x20; x02; x00; x00]].

Definition sendPuback (fd : Z) (packetId : Z) : list Event :=
  [EvSend fd [x40; x02; to_u8 (Z.shiftr packetId 8); to_u8 (Z.land packetId 255)]].

Definition sendSuback (fd : Z) (packetId : Z) (qos : byte) : list Event :=
  [EvSend fd [x90; x03; to_u8 (Z.shiftr packetId 8); to_u8 (Z.land packetId 255); qos]].

Definition sendPingResp (fd : Z) : list Event := [EvSend fd [xd0; x00]].

Definition buildPublish (topic payload : string) : list byte :=
  let variable :=
    ([to_u8 (Z.shiftr (Z.of_nat (String.length topic)) 8);
      to_u8 (Z.land (Z.of_nat (String.length topic)) 255)]
     ++ list_byte_of_string topic ++ list_byte_of_string payload)%list in
  (x30 :: encodeRemainingLength (size variable) ++ variable)%list.

(** ** [sendAll]

    [send call requested] is what the [call]-th [::send] on the socket
    returns when asked to write [requested] bytes.  The result of
    [sendAll] is its boolean, the chunks of [data] the successful calls
    took, in order, and the number of calls made. *)
Equations? sendAllFrom (send : nat -> Z -> Z) (data : list byte)
    (call : nat) (total : Z) : bool * list (list byte) * nat
  by wf (Z.to_nat (size data - total)) lt :=
  sendAllFrom send data call total with inspect (total <? size data) := {
    | exist _ false _ => (true, [], call)
    | exist _ true _
        with inspect (send call (size data - total) <=? 0) := {
        | exist _ true _ => (false, [], S call)
        | exist _ false _ =>
            let sent := send call (size data - total) in
            let r := sendAllFrom send data (S call) (total + sent) in
            (fst (fst r),
             firstn (Z.to_nat sent) (skipn (Z.to_nat total) data) :: snd (fst r),
             snd r) } }.
Proof.
  apply Z.ltb_lt in e. apply Z.leb_gt in e0. lia.
Qed.

Definition sendAll (send : nat -> Z -> Z) (data : list byte)
  : bool * list (list byte) * nat :=
  sendAllFrom send data 0 0.

Section Broker.

(** Whether [sendAll] on a socket gets all its bytes out; the broker only
    looks at it to decide on the "Forwarded" log line. *)
Variable sendOk : Z -> list byte -> bool.

Definition broadcast (topic payload : string) (clients : Clients)
    (senderFd : Z) (verbose : bool) : list Event :=
  flat_map
    (fun pair : Z * ClientSession =>
       if fst pair =? senderFd then []
       else if set_mem string_dec topic (subscriptions (snd pair)) then
         let pkt := buildPublish topic payload in
         EvSend (fst pair) pkt ::
         (if sendOk (fst pair) pkt && verbose
          then [EvLog ("Forwarded to " ++ clientId (snd pair)
                       ++ " on topic '" ++ topic ++ "'")]
          else [])
       else [])
    clients.

(** ** The packet handlers, one per [case] of [processPacket]'s switch *)

Definition handleConnect (cfg : Config) (offset : Z) (packet : list byte)
    (client : ClientSession) : ClientSession * list Event :=
  let pos := offset in
  if pos + 2 >? size packet then (client, []) else
  let protoLen := be16 packet pos in
  let pos := pos + (2 + protoLen) in (* skip protocol name *)
  if pos + 4 >? size packet then (client, []) else
  let pos := pos + 4 in (* protocol level + flags + keepalive *)
  if pos + 2 >? size packet then (client, []) else
  let clientIdLen := be16 packet pos in
  let pos := pos + 2 in
  let cid :=
    if pos + clientIdLen <=? size packet then substr packet pos clientIdLen else "" in
  let client :=
    set_clientId (if String.eqb cid "" then clientId client else cid) client in
  (client,
   (log ("[connect] clientId=" ++ clientId client) (quiet cfg)
    ++ (if artificialDelayMs cfg >? 0 then [EvSleep (artificialDelayMs cfg)] else [])
    ++ sendConnack (fd client))%list).

Definition publishPayload (packet : list byte) (pos : Z) : string :=
  if pos <? size packet then substr packet pos (size packet - pos) else "".

Definition handlePublish (cfg : Config) (header : byte) (offset : Z)
    (packet : list byte) (client : ClientSession) (clients : Clients)
  : list Event :=
  let pos := offset in
  if pos + 2 >? size packet then [] else
  let topicLen := be16 packet pos in
  let pos := pos + 2 in
  if pos + topicLen >? size packet then [] else
  let topic := substr packet pos topicLen in
  let pos := pos + topicLen in
  let qos := Z.land (Z.shiftr (u8 header) 1) 3 in
  let deliver (payload : string) : list Event :=
    ((if traceMessages cfg
      then log ("[publish] from=" ++ clientId client ++ " topic='" ++ topic
                ++ "' payload='" ++ payload ++ "'") (quiet cfg)
      else [])
     ++ broadcast topic payload clients (fd client) (traceMessages cfg))%list in
  if qos >? 0 then
    if pos + 2 >? size packet then [] else
    let packetId := be16 packet pos in
    let pos := pos + 2 in
    (sendPuback (fd client) packetId ++ deliver (publishPayload packet pos))%list
  else deliver (publishPayload packet pos).

(** The [while (pos + 2 <= packet.size())] loop of the SUBSCRIBE case. *)
Equations? subscribeLoop (cfg : Config) (packet : list byte) (pos : Z)
    (client : ClientSession) : ClientSession * list Event
  by wf (Z.to_nat (size packet - pos)) lt :=
  subscribeLoop cfg packet pos client with inspect (pos + 2 <=? size packet) := {
    | exist _ false _ => (client, [])
    | exist _ true _
        with inspect (pos + 2 + be16 packet pos + 1 >? size packet) := {
        | exist _ true _ => (client, [])
        | exist _ false _ =>
            let topicLen := be16 packet pos in
            let topic := substr packet (pos + 2) topicLen in
            let client' :=
              set_subscriptions (set_add string_dec topic (subscriptions client)) client in
            let r := subscribeLoop cfg packet (pos + 2 + topicLen + 1) client' in
            (fst r,
             ((if traceSubscriptions cfg
               then log ("[subscribe] " ++ clientId client ++ " -> '" ++ topic ++ "'")
                        (quiet cfg)
               else []) ++ snd r)%list) } }.
Proof.
  clear subscribeLoop.
  assert (0 <= be16 packet pos).
  { unfold be16. apply Z.lor_nonneg. split.
    - apply Z.shiftl_nonneg. unfold u8. lia.
    - unfold u8. lia. }
  apply Z.leb_le in e. rewrite Z.gtb_ltb in e0. apply Z.ltb_ge in e0.
  lia.
Qed.

Definition handleSubscribe (cfg : Config) (offset : Z) (packet : list byte)
    (client : ClientSession) : ClientSession * list Event :=
  let pos := offset in
  if pos + 2 >? size packet then (client, []) else
  let packetId := be16 packet pos in
  let pos := pos + 2 in
  let r := subscribeLoop cfg packet pos client in
  (fst r, (snd r ++ sendSuback (fd (fst r)) packetId x00)%list).

(** How a [case] leaves the switch: [break] goes round the loop again,
    [return] leaves [processPacket]. *)
Inductive Flow := Break | Return.

Definition handlePacket (cfg : Config) (header : byte) (offset : Z)
    (packet : list byte) (client : ClientSession) (clients : Clients)
  : ClientSession * list Event * Flow :=
  let type := Z.shiftr (u8 header) 4 in
  match type with
  | 1 => (* CONNECT *)
      (handleConnect cfg offset packet client, Break)
  | 3 => (* PUBLISH *)
      (client, handlePublish cfg header offset packet client clients, Break)
  | 8 => (* SUBSCRIBE *)
      (handleSubscribe cfg offset packet client, Break)
  | 12 => (* PINGREQ *)
      (client,
       ((if quiet cfg then [] else [EvLog ("[ping] from " ++ clientId client)])
        ++ sendPingResp (fd client))%list,
       Break)
  | 14 => (* DISCONNECT *)
      (set_fd (-1) client,
       (log ("[disconnect] " ++ clientId client) (quiet cfg)
        ++ [EvClose (fd client)])%list,
       Return)
  | _ =>
      (client, log ("[warn] Unhandled packet type " ++ to_string type) (quiet cfg),
       Break)
  end.

(** ** One iteration of [processPacket]'s loop *)

Inductive Step :=
| StepReturn (clients : Clients) (events : list Event)
    (* the function returns *)
| StepNext (clients : Clients) (events : list Event)
    (* a packet was taken off the inbox; the loop goes on *)
| StepSpin (events : list Event).
    (* [totalPacketLength] is 0: nothing was taken off the inbox and the
       case ended in [break], so the same iteration runs again, for ever *)

Definition rawLog (cfg : Config) (header : byte) (packet : list byte) : list Event :=
  if logPackets cfg
  then [EvLog ("[raw] op=" ++ to_string (Z.land (Z.shiftr (u8 header) 4) 15)
               ++ " bytes=" ++ toHex packet)]
  else [].

Definition processStep (cfg : Config) (k : Z) (clients : Clients) : Step :=
  match map_find k clients with
  | None => StepReturn clients []
  | Some client =>
      if size (inbox client) <? 2 then StepReturn clients [] else
      let header := at_ (inbox client) 0 in
      match decodeRemainingLength (inbox client) 1 with
      | None => StepReturn clients [] (* wait for more data *)
      | Some (offset, remainingLength) =>
          let totalPacketLength := size_wrap (offset + remainingLength) in
          if size (inbox client) <? totalPacketLength
          then StepReturn clients [] (* incomplete *)
          else
            let packet := firstn (Z.to_nat totalPacketLength) (inbox client) in
            let client :=
              set_inbox (skipn (Z.to_nat totalPacketLength) (inbox client)) client in
            let clients := map_store k client clients in
            match handlePacket cfg header offset packet client clients with
            | (client, events, Return) =>
                StepReturn (map_store k client clients)
                           (rawLog cfg header packet ++ events)%list
            | (client, events, Break) =>
                if totalPacketLength =? 0
                then StepSpin (rawLog cfg header packet ++ events)%list
                else StepNext (map_store k client clients)
                              (rawLog cfg header packet ++ events)%list
            end
      end
  end.

End Broker.

Local Close Scope string_scope.

(** ** [processPacket]: the loop

    Every iteration that goes round again has taken at least one byte off
    the inbox, which is what makes the loop a well-founded recursion;
    the lemmas below say so. *)

Definition inboxLen (k : Z) (clients : Clients) : nat :=
  match map_find k clients with
  | Some client => List.length (inbox client)
  | None => 0%nat
  end.

Lemma map_find_store k v m :
  map_find k m <> None -> map_find k (map_store k v m) = Some v.
Proof.
  induction m as [|[k' v'] rest IH]; simpl; [congruence|].
  destruct (k' =? k) eqn:Hk; simpl; rewrite Hk; auto.
Qed.

Lemma subscribeLoop_inbox cfg packet pos client :
  inbox (fst (subscribeLoop cfg packet pos client)) = inbox client.
Proof.
  funelim (subscribeLoop cfg packet pos client); try reflexivity.
  simpl. rewrite H. reflexivity.
Qed.

Lemma handlePacket_inbox sendOk cfg header offset packet client clients :
  inbox (fst (fst (handlePacket sendOk cfg header offset packet client clients)))
  = inbox client.
Proof.
  unfold handlePacket.
  destruct (Z.shiftr (u8 header) 4) as [|p|p]; try reflexivity.
  do 4 (try destruct p as [p|p|]; try reflexivity); simpl.
  - unfold handleSubscribe. destruct (offset + 2 >? size packet); [reflexivity|].
    simpl. apply subscribeLoop_inbox.
  - unfold handleConnect.
    repeat match goal with
           | |- context [if ?b then (_, _) else _] => destruct b; [reflexivity|]
           end.
    reflexivity.
Qed.

Lemma processStep_next_shorter sendOk cfg k clients clients' events :
  processStep sendOk cfg k clients = StepNext clients' events ->
  (inboxLen k clients' < inboxLen k clients)%nat.
Proof.
  unfold processStep, inboxLen.
  destruct (map_find k clients) as [client|] eqn:Hfind; [|discriminate].
  destruct (size (inbox client) <? 2) eqn:Hsz; [discriminate|].
  destruct (decodeRemainingLength (inbox client) 1) as [[offset rl]|]; [|discriminate].
  destruct (size (inbox client) <? size_wrap (offset + rl)) eqn:Hlt; [discriminate|].
  pose proof (handlePacket_inbox sendOk cfg (at_ (inbox client) 0) offset
    (firstn (Z.to_nat (size_wrap (offset + rl))) (inbox client))
    (set_inbox (skipn (Z.to_nat (size_wrap (offset + rl))) (inbox client)) client)
    (map_store k
       (set_inbox (skipn (Z.to_nat (size_wrap (offset + rl))) (inbox client)) client)
       clients)) as Hin.
  destruct (handlePacket _ _ _ _ _ _ _) as [[client' ev] flow].
  destruct flow; [|discriminate].
  destruct (size_wrap (offset + rl) =? 0) eqn:Hz; [discriminate|].
  intros [= <- _].
  rewrite map_find_store.
  2:{ rewrite map_find_store; congruence. }
  simpl in Hin. rewrite Hin. simpl. rewrite length_skipn.
  apply Z.eqb_neq in Hz. apply Z.ltb_ge in Hsz. apply Z.ltb_ge in Hlt.
  unfold size in *. unfold size_wrap in *.
  pose proof (Z.mod_pos_bound (offset + rl) (2 ^ 64) ltac:(lia)). lia.
Qed.

Inductive Outcome :=
| Returned (clients : Clients) (events : list Event)
| Diverges (events : list Event) (cycle : list Event).
    (* after [events] the loop emits [cycle] over and over *)

Definition prepend (ev : list Event) (o : Outcome) : Outcome :=
  match o with
  | Returned clients events => Returned clients (ev ++ events)
  | Diverges events cycle => Diverges (ev ++ events) cycle
  end.

Section Loop.

Variable sendOk : Z -> list byte -> bool.

(** [processPacket(client, cfg, clients)], with [client] the entry of key
    [k] in [clients]. *)
Equations? processPacket (cfg : Config) (k : Z) (clients : Clients) : Outcome
  by wf (inboxLen k clients) lt :=
  processPacket cfg k clients with inspect (processStep sendOk cfg k clients) := {
    | exist _ (StepReturn clients' events) _ => Returned clients' events
    | exist _ (StepSpin events) _ => Diverges [] events
    | exist _ (StepNext clients' events) _ =>
        prepend events (processPacket cfg k clients') }.
Proof. eapply processStep_next_shorter. eassumption. Qed.

End Loop.

Local Open Scope string_scope.
Local Open Scope Z_scope.

(** ** The server loop of [main] *)

Section Server.

Variable sendOk : Z -> list byte -> bool.

(** What one pass of the loop gets from the operating system. *)
Record TickInput := mkInput {
  accepted : option Z;
    (* [Some newFd]: the listening socket is readable and [accept]
       returns [newFd] *)
  received : Z -> option (list byte)
    (* [Some data]: [select] reports the socket readable and [recv]
       returns [data]; the empty list stands for [received <= 0] *)
}.

Definition acceptStep (cfg : Config) (accepted : option Z) (clients : Clients)
  : Clients * list Event :=
  match accepted with
  | None => (clients, [])
  | Some newFd =>
      if newFd >=? 0 then
        if size clients >=? maxClients cfg
        then (clients, (log "[drop] too many clients" (quiet cfg) ++ [EvClose newFd])%list)
        else (map_assign newFd (newSession newFd) clients,
              log ("[accept] fd=" ++ to_string newFd) (quiet cfg))
      else (clients, [])
  end.

(** [pair.second.inbox.insert(pair.second.inbox.end(), buffer, buffer + received)]. *)
Definition appendInbox (k : Z) (data : list byte) (clients : Clients) : Clients :=
  match map_find k clients with
  | Some client => map_store k (set_inbox (inbox client ++ data)%list client) clients
  | None => clients
  end.

Inductive ReadOutcome :=
| ReadDone (clients : Clients) (toRemove : list Z) (events : list Event)
| ReadDiverges (events : list Event) (cycle : list Event).

Definition prependRead (ev : list Event) (o : ReadOutcome) : ReadOutcome :=
  match o with
  | ReadDone clients toRemove events => ReadDone clients toRemove (ev ++ events)%list
  | ReadDiverges events cycle => ReadDiverges (ev ++ events)%list cycle
  end.

Definition closedByBroker (k : Z) (clients : Clients) : bool :=
  match map_find k clients with
  | Some client => fd client <? 0
  | None => false
  end.

(** The [for (auto &pair : clients)] loop over the sockets; [todo] are the
    keys still to visit, [readfds] the descriptors put in the set before
    [select]. *)
Fixpoint readLoop (cfg : Config) (readfds : list Z)
    (received : Z -> option (list byte)) (todo : list Z)
    (clients : Clients) (toRemove : list Z) : ReadOutcome :=
  match todo with
  | [] => ReadDone clients toRemove []
  | fd :: rest =>
      if existsb (Z.eqb fd) readfds then
        match received fd with
        | None => readLoop cfg readfds received rest clients toRemove
        | Some [] =>
            prependRead
              (log ("[close] fd=" ++ to_string fd) (quiet cfg) ++ [EvClose fd])%list
              (readLoop cfg readfds received rest clients (toRemove ++ [fd])%list)
        | Some data =>
            match processPacket sendOk cfg fd (appendInbox fd data clients) with
            | Returned clients' events =>
                prependRead events
                  (readLoop cfg readfds received rest clients'
                     (if closedByBroker fd clients'
                      then (toRemove ++ [fd])%list else toRemove))
            | Diverges events cycle => ReadDiverges events cycle
            end
        end
      else readLoop cfg readfds received rest clients toRemove
  end.

Inductive TickOutcome :=
| TickDone (clients : Clients) (events : list Event)
| TickDiverges (events : list Event) (cycle : list Event).

Definition eraseAll (toRemove : list Z) (clients : Clients) : Clients :=
  fold_left (fun m fd => map_erase fd m) toRemove clients.

(** One pass of [while (!stopFlag)], from [FD_ZERO] to the erasure of the
    sessions in [toRemove], for a [select] that returns normally. *)
Definition tick (cfg : Config) (input : TickInput) (clients : Clients) : TickOutcome :=
  let readfds := filter (fun k => k >=? 0) (keys clients) in
  let (clients1, ev1) := acceptStep cfg (accepted input) clients in
  match readLoop cfg readfds (received input) (keys clients1) clients1 [] with
  | ReadDone clients2 toRemove ev2 =>
      TickDone (eraseAll toRemove clients2) (ev1 ++ ev2)%list
  | ReadDiverges events cycle => TickDiverges (ev1 ++ events)%list cycle
  end.

(** The session tables the server can be in: it starts with none and goes
    from pass to pass. *)
Inductive reachable (cfg : Config) : Clients -> Prop :=
| reachable_start : reachable cfg []
| reachable_tick clients input clients' events :
    reachable cfg clients ->
    tick cfg input clients = TickDone clients' events ->
    reachable cfg clients'.

(** A pass in which only the socket [k] has something to read. *)
Definition recvOnly (k : Z) (data : list byte) : TickInput :=
  {| accepted := None;
     received := fun fd => if fd =? k then Some data else None |}.

Definition prependTick (ev : list Event) (o : TickOutcome) : TickOutcome :=
  match o with
  | TickDone clients events => TickDone clients (ev ++ events)%list
  | TickDiverges events cycle => TickDiverges (ev ++ events)%list cycle
  end.

(** The bytes of [chunks] arriving on socket [k], one chunk per pass. *)
Fixpoint feed (cfg : Config) (k : Z) (chunks : list (list byte)) (clients : Clients)
  : TickOutcome :=
  match chunks with
  | [] => TickDone clients []
  | chunk :: rest =>
      match tick cfg (recvOnly k chunk) clients with
      | TickDone clients' events => prependTick events (feed cfg k rest clients')
      | TickDiverges events cycle => TickDiverges events cycle
      end
  end.

End Server.

(** ** Command line *)

Inductive Parsed :=
| ParsedOk (cfg : Config)
| UsageExit     (* the usage line and [std::exit(1)] *)
| StoiThrows.   (* [std::stoi] threw *)

Section CommandLine.

(** [std::stoi]; [None] when it throws. *)
Variable stoi : string -> option Z.

Definition set_port (v : Z) (c : Config) : Config :=
  {| port := v; maxClients := maxClients c; logPackets := logPackets c;
     traceSubscriptions := traceSubscriptions c; traceMessages := traceMessages c;
     quiet := quiet c; artificialDelayMs := artificialDelayMs c |}.

Definition set_maxClients (v : Z) (c : Config) : Config :=
  {| port := port c; maxClients := v; logPackets := logPackets c;
     traceSubscriptions := traceSubscriptions c; traceMessages := traceMessages c;
     quiet := quiet c; artificialDelayMs := artificialDelayMs c |}.

Definition set_quiet (v : bool) (c : Config) : Config :=
  {| port := port c; maxClients := maxClients c; logPackets := logPackets c;
     traceSubscriptions := traceSubscriptions c; traceMessages := traceMessages c;
     quiet := v; artificialDelayMs := artificialDelayMs c |}.

Definition set_logPackets (v : bool) (c : Config) : Config :=
  {| port := port c; maxClients := maxClients c; logPackets := v;
     traceSubscriptions := traceSubscriptions c; traceMessages := traceMessages c;
     quiet := quiet c; artificialDelayMs := artificialDelayMs c |}.

Definition set_traceSubscriptions (v : bool) (c : Config) : Config :=
  {| port := port c; maxClients := maxClients c; logPackets := logPackets c;
     traceSubscriptions := v; traceMessages := traceMessages c;
     quiet := quiet c; artificialDelayMs := artificialDelayMs c |}.

Definition set_traceMessages (v : bool) (c : Config) : Config :=
  {| port := port c; maxClients := maxClients c; logPackets := logPackets c;
     traceSubscriptions := traceSubscriptions c; traceMessages := v;
     quiet := quiet c; artificialDelayMs := artificialDelayMs c |}.

Definition set_artificialDelayMs (v : Z) (c : Config) : Config :=
  {| port := port c; maxClients := maxClients c; logPackets := logPackets c;
     traceSubscriptions := traceSubscriptions c; traceMessages := traceMessages c;
     quiet := quiet c; artificialDelayMs := v |}.

(** A flag that takes a value: [arg == flag && i + 1 < argc]. *)
Definition valued (flag arg : string) (rest : list string) : bool :=
  String.eqb arg flag && negb (Nat.eqb (List.length rest) 0).

(** The [for] loop of [parseArgs] over [argv[1..]]. *)
Fixpoint parseLoop (args : list string) (cfg : Config) : Parsed :=
  match args with
  | [] => ParsedOk cfg
  | arg :: rest =>
      let withValue (set : Z -> Config -> Config) : Parsed :=
        match rest with
        | [] => UsageExit
        | v :: rest' =>
            match stoi v with
            | Some z => parseLoop rest' (set z cfg)
            | None => StoiThrows
            end
        end in
      if valued "--port" arg rest then withValue set_port
      else if valued "--max" arg rest then withValue set_maxClients
      else if String.eqb arg "--quiet" then parseLoop rest (set_quiet true cfg)
      else if String.eqb arg "--raw" then parseLoop rest (set_logPackets true cfg)
      else if String.eqb arg "--trace-sub"
           then parseLoop rest (set_traceSubscriptions true cfg)
      else if String.eqb arg "--no-trace-msg"
           then parseLoop rest (set_traceMessages false cfg)
      else if valued "--delay" arg rest then withValue set_artificialDelayMs
      else UsageExit
  end.

(** [parseArgs(argc, argv)]; [argv[0]] is the program's name. *)
Definition parseArgs (argv : list string) : Parsed :=
  parseLoop (tl argv) defaultConfig.

End CommandLine.

Local Close Scope string_scope.

(** ** The vocabulary of the properties

    What the statements below talk about: complete packets, the bytes
    sent, the sessions a broadcast reaches, inboxes without a complete
    frame, well-formed session tables. *)

(** A complete packet: its Remaining Length decodes, ending at [offset],
    and its size is the [totalPacketLength] the loop computes from it. *)
Definition completePacket (packet : list byte) (offset : Z) : Prop :=
  exists remainingLength,
    decodeRemainingLength packet 1 = Some (offset, remainingLength) /\
    size packet = size_wrap (offset + remainingLength).

Definition packetType (packet : list byte) : Z := Z.shiftr (u8 (at_ packet 0)) 4.

(** A packet too short for the fields its handler reads before it acts:
    a CONNECT without room for the protocol name, the level, flags and
    keep-alive bytes and the length of the client identifier; a PUBLISH
    without room for its topic, or for the packet identifier when its QoS
    is not 0; a SUBSCRIBE without its packet identifier. *)
Definition bodyTooShort (packet : list byte) (offset : Z) : bool :=
  match packetType packet with
  | 1 =>
      (offset + 2 >? size packet)
      || (offset + 2 + be16 packet offset + 4 + 2 >? size packet)
  | 3 =>
      (offset + 2 >? size packet)
      || (offset + 2 + be16 packet offset >? size packet)
      || ((Z.land (Z.shiftr (u8 (at_ packet 0)) 1) 3 >? 0)
          && (offset + 2 + be16 packet offset + 2 >? size packet))
  | 8 => offset + 2 >? size packet
  | _ => false
  end.

(** The [sendAll] calls among the events: socket and bytes, in order. *)
Definition sends (events : list Event) : list (Z * list byte) :=
  flat_map (fun e => match e with EvSend fd data => [(fd, data)] | _ => [] end)
           events.

(** The granted-QoS bytes of a SUBACK: what follows [90 len PH PL]. *)
Definition grantedQoS (suback : list byte) : list byte := skipn 4 suback.

(** The sessions subscribed to [topic], the one with key [senderFd] left
    out, in the order of the table. *)
Definition subscribersExcept (topic : string) (senderFd : Z) (clients : Clients)
  : list Z :=
  map fst
    (filter (fun pair : Z * ClientSession =>
               negb (fst pair =? senderFd)
               && set_mem string_dec topic (subscriptions (snd pair)))
            clients).

(** No complete frame is left: whenever a prefix of the inbox holds a
    fixed header and a Remaining Length that decode, the inbox has fewer
    bytes than the header and the remaining length together. *)
Definition noCompleteFrame (inbox : list byte) : Prop :=
  forall prefix rest offset remainingLength,
    inbox = (prefix ++ rest)%list ->
    decodeRemainingLength prefix 1 = Some (offset, remainingLength) ->
    size inbox < offset + remainingLength.

(** A session is settled when it is due for removal or holds no
    complete frame. *)
Definition settled (toRemove : list Z) (pair : Z * ClientSession) : Prop :=
  In (fst pair) toRemove \/ noCompleteFrame (inbox (snd pair)).

Definition wellFormed (clients : Clients) : Prop :=
  StronglySorted Z.lt (keys clients) /\
  Forall (fun pair => fd (snd pair) = fst pair /\ 0 <= fst pair) clients.

(** A session is in order when it is due for removal or stored under its
    own socket. *)
Definition inOrder (toRemove : list Z) (pair : Z * ClientSession) : Prop :=
  0 <= fst pair /\ (In (fst pair) toRemove \/ fd (snd pair) = fst pair).

Definition boundaryLengths : list Z :=
  [0; 127; 128; 16383; 16384; 2097151; 2097152; 268435455].

(** ** Packets and session tables of the scenarios *)

(** The SUBSCRIBE of scenario S2: packet id 1, topic "test", QoS 0. *)
Definition subscribeTest : list byte :=
  [x82; x09; x00; x01; x00; x04; x74; x65; x73; x74; x00].

(** A SUBSCRIBE with packet id 1 and the two topic filters "a" and "b". *)
Definition subscribeTwoTopics : list byte :=
  [x82; x0a; x00; x01; x00; x01; x61; x00; x00; x01; x62; x00].

(** The QoS-0 PUBLISH of topic "test" and payload "hello". *)
Definition publishQoS0 : list byte :=
  [x30; x0b; x00; x04; x74; x65; x73; x74; x68; x65; x6c; x6c; x6f].

(** PUBLISH, QoS 1, topic "test", packet id 42, payload "hello". *)
Definition publishQoS1 : list byte :=
  [x32; x0d; x00; x04; x74; x65; x73; x74; x00; x2a; x68; x65; x6c; x6c; x6f].

(** A PUBLISH whose one-byte body cannot hold the topic length, followed by
    a PINGREQ. *)
Definition truncatedPublishThenPing : list byte := [x30; x01; x00; xc0; x00].

(** A DISCONNECT and, in the same segment, a PUBLISH to "test". *)
Definition disconnectThenPublish : list byte := ([xe0; x00] ++ publishQoS0)%list.

(** Two idle sessions. *)
Definition twoIdle : Clients :=
  [(5, {| fd := 5; clientId := "stm"; subscriptions := ["cmd/luz"%string]; inbox := [] |});
   (6, {| fd := 6; clientId := "rasp"; subscriptions := []; inbox := [] |})].

(** The table of scenario S2 once both clients have subscribed to "test":
    session 5, and session 6 which has just sent the QoS-0 PUBLISH. *)
Definition twoSubscribers : Clients :=
  [(5, {| fd := 5; clientId := "sub"; subscriptions := ["test"%string]; inbox := [] |});
   (6, {| fd := 6; clientId := "pub"; subscriptions := ["test"%string]; inbox := publishQoS0 |})].

Example decode_one : decodeRemainingLength [x30; x0b; x00] 1 = Some (2, 11).
Proof. reflexivity. Qed.

Example encode_321 : encodeRemainingLength 321 = [xc1; x02].
Proof. reflexivity. Qed.

Example encode_max : encodeRemainingLength 268435455 = [xff; xff; xff; x7f].
Proof. vm_compute. reflexivity. Qed.

(** ** Facts about bytes *)

Lemma u8_range (b : byte) : 0 <= u8 b < 256.
Proof.
  unfold u8. pose proof (Byte.to_N_bounded b) as Hb.
  split; [apply N2Z.is_nonneg|]. apply N2Z.inj_le in Hb. simpl in Hb. lia.
Qed.

Lemma to_u8_u8 (b : byte) : to_u8 (u8 b) = b.
Proof.
  unfold to_u8. rewrite Z.mod_small by apply u8_range.
  unfold u8. rewrite N2Z.id, Byte.of_to_N. reflexivity.
Qed.

Lemma u8_to_u8 (z : Z) : 0 <= z < 256 -> u8 (to_u8 z) = z.
Proof.
  intros Hz. unfold to_u8, u8. rewrite Z.mod_small by assumption.
  destruct (Byte.of_N (Z.to_N z)) as [b|] eqn:Hb.
  - apply Byte.to_of_N in Hb. rewrite Hb. apply Z2N.id. lia.
  - apply Byte.of_N_None_iff in Hb. lia.
Qed.

Lemma int_wrap_small (z : Z) : - 2 ^ 31 <= z < 2 ^ 31 -> int_wrap z = z.
Proof. intros H. unfold int_wrap. rewrite Z.mod_small; lia. Qed.

Lemma size_wrap_small (z : Z) : 0 <= z < 2 ^ 64 -> size_wrap z = z.
Proof. intros H. unfold size_wrap. apply Z.mod_small. assumption. Qed.

Lemma size_app {A} (u v : list A) : size (u ++ v) = size u + size v.
Proof. unfold size. rewrite length_app. lia. Qed.

Lemma size_nonneg {A} (v : list A) : 0 <= size v.
Proof. unfold size. lia. Qed.

Lemma size_cons {A} (a : A) (v : list A) : size (a :: v) = 1 + size v.
Proof. unfold size. simpl List.length. lia. Qed.

Lemma skipn_size_app {A} (u v : list A) : skipn (Z.to_nat (size u)) (u ++ v) = v.
Proof.
  unfold size. rewrite Nat2Z.id, skipn_app, skipn_all, Nat.sub_diag. reflexivity.
Qed.

(** ** The encoder, unfolded once *)

Lemma encodeRemainingLength_unfold (n : Z) :
  encodeRemainingLength n =
  if 0 <? n / 128
  then to_u8 (Z.lor (n mod 128) 128) :: encodeRemainingLength (n / 128)
  else [to_u8 (n mod 128)].
Proof.
  rewrite encodeRemainingLength_equation_1. unfold encodeRemainingLength_clause_1.
  simpl. destruct (0 <? n / 128); reflexivity.
Qed.

(** A property checked on every value below a bound. *)
Lemma forall_below (P : Z -> bool) (n : nat) :
  forallb P (map Z.of_nat (seq 0 n)) = true ->
  forall v, 0 <= v < Z.of_nat n -> P v = true.
Proof.
  intros Hall v Hv. rewrite forallb_forall in Hall. apply Hall.
  apply in_map_iff. exists (Z.to_nat v). split; [lia|].
  apply in_seq. lia.
Qed.

Lemma low7_bounds (e : Z) : 0 <= Z.land e 127 < 128.
Proof.
  change 127 with (Z.ones 7). rewrite Z.land_ones by lia.
  apply Z.mod_pos_bound. lia.
Qed.

Lemma continuation_byte (v : Z) :
  0 <= v < 128 ->
  Z.land (u8 (to_u8 (Z.lor v 128))) 128 <> 0 /\
  Z.land (u8 (to_u8 (Z.lor v 128))) 127 = v.
Proof.
  intros Hv.
  pose proof (forall_below
    (fun v => negb (Z.land (u8 (to_u8 (Z.lor v 128))) 128 =? 0)
              && (Z.land (u8 (to_u8 (Z.lor v 128))) 127 =? v)) 128 eq_refl v Hv) as H.
  simpl in H. apply andb_prop in H. destruct H as [H1 H2].
  apply negb_true_iff, Z.eqb_neq in H1. apply Z.eqb_eq in H2. auto.
Qed.

Lemma final_byte (v : Z) :
  0 <= v < 128 ->
  Z.land (u8 (to_u8 v)) 128 = 0 /\ Z.land (u8 (to_u8 v)) 127 = v.
Proof.
  intros Hv.
  pose proof (forall_below
    (fun v => (Z.land (u8 (to_u8 v)) 128 =? 0)
              && (Z.land (u8 (to_u8 v)) 127 =? v)) 128 eq_refl v Hv) as H.
  simpl in H. apply andb_prop in H. destruct H as [H1 H2].
  apply Z.eqb_eq in H1. apply Z.eqb_eq in H2. auto.
Qed.

(** ** The decoder: what it reads and what it returns *)

Section DecodeLoop.

(** The decoder never looks past the byte on which it stops. *)
Lemma decode_loop_app bytes ext m len c r :
  decode_loop bytes m len c = Some r ->
  decode_loop (bytes ++ ext) m len c = Some r.
Proof.
  revert m len c. induction bytes as [|e rest IH]; intros m len c; simpl.
  - discriminate.
  - destruct (Z.land (u8 e) 128 =? 0); [auto|].
    destruct (c + 1 >? 4); [discriminate|]. apply IH.
Qed.

(** Success consumes at least one byte, at most the bytes there are, and
    never more than five in all. *)
Lemma decode_loop_consumed bytes m len c c' l :
  decode_loop bytes m len c = Some (c', l) ->
  c < c' /\ c' - c <= size bytes /\ (c' <= 5 \/ c' = c + 1).
Proof.
  revert m len c. induction bytes as [|e rest IH]; intros m len c; simpl.
  - discriminate.
  - rewrite size_cons. pose proof (size_nonneg rest).
    destruct (Z.land (u8 e) 128 =? 0).
    + intros [= <- _]. lia.
    + destruct (c + 1 >? 4) eqn:Hc; [discriminate|].
      intros H1. apply IH in H1. rewrite Z.gtb_ltb in Hc. apply Z.ltb_ge in Hc. lia.
Qed.

(** Cutting the input before the stopping byte makes the decoder fail. *)
Lemma decode_loop_short bytes ext m len c c' l :
  decode_loop (bytes ++ ext) m len c = Some (c', l) ->
  size bytes < c' - c ->
  decode_loop bytes m len c = None.
Proof.
  revert m len c. induction bytes as [|e rest IH]; intros m len c; simpl.
  - reflexivity.
  - rewrite size_cons. pose proof (size_nonneg rest).
    destruct (Z.land (u8 e) 128 =? 0).
    + intros [= <- _]. lia.
    + destruct (c + 1 >? 4); [reflexivity|].
      intros H1 H2. apply (IH _ _ _ H1). lia.
Qed.

Lemma decode_loop_length_range bytes m len c c' l :
  decode_loop bytes m len c = Some (c', l) -> 0 <= l < 2 ^ 64.
Proof.
  revert m len c. induction bytes as [|e rest IH]; intros m len c; simpl.
  - discriminate.
  - destruct (Z.land (u8 e) 128 =? 0).
    + intros [= _ <-]. apply Z.mod_pos_bound. lia.
    + destruct (c + 1 >? 4); [discriminate|]. apply IH.
Qed.

(** With at most four bytes consumed no arithmetic wraps and the result
    stays below [128 ^ consumed]. *)
Lemma decode_loop_bound bytes c len c' l :
  0 <= c -> 0 <= len < 128 ^ c ->
  decode_loop bytes (128 ^ c) len c = Some (c', l) ->
  c' <= 4 -> 0 <= l < 128 ^ c'.
Proof.
  revert c len. induction bytes as [|e rest IH]; intros c len Hc Hlen; simpl.
  - discriminate.
  - intros Hdec Hc'.
    assert (c <= 3).
    { destruct (Z.land (u8 e) 128 =? 0).
      - injection Hdec as <- _. lia.
      - destruct (c + 1 >? 4); [discriminate|].
        apply decode_loop_consumed in Hdec. lia. }
    pose proof (low7_bounds (u8 e)) as Hlow.
    assert (Hpow : 128 ^ (c + 1) = 128 ^ c * 128) by (rewrite Z.pow_add_r; lia).
    assert (0 < 128 ^ c) by (apply Z.pow_pos_nonneg; lia).
    assert (128 ^ (c + 1) <= 128 ^ 4) by (apply Z.pow_le_mono_r; lia).
    change (128 ^ 4) with 268435456 in *.
    rewrite int_wrap_small in Hdec by nia.
    rewrite size_wrap_small in Hdec by nia.
    rewrite (int_wrap_small (128 ^ c * 128)) in Hdec by nia.
    destruct (Z.land (u8 e) 128 =? 0).
    + injection Hdec as <- <-. nia.
    + destruct (c + 1 >? 4); [discriminate|].
      rewrite <- Hpow in Hdec. apply IH in Hdec; try lia. nia.
Qed.

End DecodeLoop.

Lemma decodeRemainingLength_app buf ext offset r :
  0 <= offset <= size buf ->
  decodeRemainingLength buf offset = Some r ->
  decodeRemainingLength (buf ++ ext) offset = Some r.
Proof.
  unfold decodeRemainingLength. intros Ho.
  rewrite skipn_app.
  destruct (decode_loop (skipn (Z.to_nat offset) buf) 1 0 0) as [[c l]|] eqn:Hd;
    [|discriminate].
  intros [= <-]. erewrite decode_loop_app by eassumption. reflexivity.
Qed.

Lemma decodeRemainingLength_range buf offset offset' l :
  decodeRemainingLength buf offset = Some (offset', l) ->
  offset + 1 <= offset' <= offset + 5 /\ 0 <= l < 2 ^ 64.
Proof.
  unfold decodeRemainingLength.
  destruct (decode_loop _ 1 0 0) as [[c l0]|] eqn:Hd; [|discriminate].
  intros [= <- <-]. pose proof (decode_loop_consumed _ _ _ _ _ _ Hd).
  pose proof (decode_loop_length_range _ _ _ _ _ _ Hd). lia.
Qed.

(** ** Round trip of the Remaining Length *)

Lemma decode_encode_loop (n : Z) :
  forall c len suf,
    0 <= n -> 0 <= c <= 4 -> n * 128 ^ c < 128 ^ 4 -> 0 <= len < 128 ^ c ->
    decode_loop (encodeRemainingLength n ++ suf) (128 ^ c) len c =
    Some (c + size (encodeRemainingLength n), len + n * 128 ^ c).
Proof.
  induction n as [n IH] using (well_founded_induction (Z.lt_wf 0)).
  intros c len suf Hn Hc Hfit Hlen.
  assert (0 < 128 ^ c) by (apply Z.pow_pos_nonneg; lia).
  assert (Hpow : 128 ^ (c + 1) = 128 ^ c * 128) by (rewrite Z.pow_add_r; lia).
  assert (128 ^ c <= 128 ^ 4) by (apply Z.pow_le_mono_r; lia).
  change (128 ^ 4) with 268435456 in *.
  pose proof (Z.mod_pos_bound n 128 ltac:(lia)) as Hmod.
  pose proof (Z.div_mod n 128 ltac:(lia)) as Hdm.
  assert (Hq0 : 0 <= n / 128) by (apply Z.div_pos; lia).
  assert (Hlo : n mod 128 * 128 ^ c <= n * 128 ^ c)
    by (apply Z.mul_le_mono_nonneg_r; lia).
  assert (0 <= n mod 128 * 128 ^ c) by (apply Z.mul_nonneg_nonneg; lia).
  rewrite encodeRemainingLength_unfold.
  destruct (0 <? n / 128) eqn:Hq.
  - apply Z.ltb_lt in Hq.
    destruct (continuation_byte (n mod 128) Hmod) as [Hbit Hlow].
    simpl. rewrite Hlow. apply Z.eqb_neq in Hbit. rewrite Hbit.
    assert (128 ^ c * 128 <= n * 128 ^ c) by nia.
    rewrite (int_wrap_small (128 ^ c * 128)) by lia.
    rewrite int_wrap_small by lia. rewrite size_wrap_small by lia.
    assert (c + 1 <= 3).
    { destruct (Z_le_gt_dec (c + 1) 3); [assumption|]. exfalso.
      assert (128 ^ 3 <= 128 ^ c) by (apply Z.pow_le_mono_r; lia).
      change (128 ^ 3) with 2097152 in *. nia. }
    replace (c + 1 >? 4) with false by (rewrite Z.gtb_ltb; symmetry; apply Z.ltb_ge; lia).
    rewrite <- Hpow.
    assert (Hn' : 0 <= n / 128 < n) by lia.
    assert (Hmul : n / 128 * 128 ^ (c + 1) = (128 * (n / 128)) * 128 ^ c)
      by (rewrite Hpow; ring).
    assert (Hfit' : n / 128 * 128 ^ (c + 1) < 268435456).
    { assert ((128 * (n / 128)) * 128 ^ c <= n * 128 ^ c)
        by (apply Z.mul_le_mono_nonneg_r; lia).
      lia. }
    assert (Hsplit : n * 128 ^ c = (128 * (n / 128)) * 128 ^ c + n mod 128 * 128 ^ c)
      by (rewrite <- Z.mul_add_distr_r, <- Hdm; reflexivity).
    assert (n mod 128 * 128 ^ c <= 127 * 128 ^ c)
      by (apply Z.mul_le_mono_nonneg_r; lia).
    rewrite (IH (n / 128) Hn' (c + 1)); try lia.
    rewrite size_cons. f_equal. f_equal; lia.
  - apply Z.ltb_ge in Hq.
    destruct (final_byte (n mod 128) Hmod) as [Hbit Hlow].
    simpl. rewrite Hlow, Hbit. simpl.
    rewrite int_wrap_small by lia. rewrite size_wrap_small by lia.
    assert (n / 128 = 0) by lia.
    unfold size. simpl.
    replace (n mod 128) with n by lia. reflexivity.
Qed.

Lemma decode_encode (n : Z) (pre suf : list byte) :
  0 <= n <= 268435455 ->
  decodeRemainingLength (pre ++ encodeRemainingLength n ++ suf) (size pre) =
  Some (size pre + size (encodeRemainingLength n), n).
Proof.
  intros Hn. unfold decodeRemainingLength. rewrite skipn_size_app.
  change 1 with (128 ^ 0) at 1.
  rewrite decode_encode_loop; try (simpl; lia).
  f_equal. f_equal. simpl. lia.
Qed.

(** Lengths above the four-byte range need a fifth byte. *)
Lemma encode_long (n : Z) : 268435455 < n -> 4 < size (encodeRemainingLength n).
Proof.
  intros Hn.
  assert (H1 : 2097152 <= n / 128) by (apply Z.div_le_lower_bound; lia).
  assert (H2 : 16384 <= n / 128 / 128) by (apply Z.div_le_lower_bound; lia).
  assert (H3 : 128 <= n / 128 / 128 / 128) by (apply Z.div_le_lower_bound; lia).
  assert (H4 : 1 <= n / 128 / 128 / 128 / 128) by (apply Z.div_le_lower_bound; lia).
  rewrite (encodeRemainingLength_unfold n).
  replace (0 <? n / 128) with true by (symmetry; apply Z.ltb_lt; lia).
  rewrite (encodeRemainingLength_unfold (n / 128)).
  replace (0 <? n / 128 / 128) with true by (symmetry; apply Z.ltb_lt; lia).
  rewrite (encodeRemainingLength_unfold (n / 128 / 128)).
  replace (0 <? n / 128 / 128 / 128) with true by (symmetry; apply Z.ltb_lt; lia).
  rewrite (encodeRemainingLength_unfold (n / 128 / 128 / 128)).
  replace (0 <? n / 128 / 128 / 128 / 128) with true by (symmetry; apply Z.ltb_lt; lia).
  rewrite !size_cons. pose proof (size_nonneg (encodeRemainingLength (n / 128 / 128 / 128 / 128))).
  assert (encodeRemainingLength (n / 128 / 128 / 128 / 128) <> []).
  { rewrite encodeRemainingLength_unfold. destruct (0 <? _); discriminate. }
  destruct (encodeRemainingLength (n / 128 / 128 / 128 / 128)); [congruence|].
  rewrite size_cons. pose proof (size_nonneg l). lia.
Qed.

(** A decode that stopped within four bytes stays in the four-byte range. *)
Lemma decode_short_bound buf offset offset' n :
  decodeRemainingLength buf offset = Some (offset', n) ->
  offset' - offset <= 4 -> n <= 268435455.
Proof.
  unfold decodeRemainingLength.
  destruct (decode_loop _ 1 0 0) as [[c l]|] eqn:Hd; [|discriminate].
  intros [= <- <-] Hc.
  pose proof (decode_loop_consumed _ _ _ _ _ _ Hd).
  change 1 with (128 ^ 0) in Hd at 1.
  apply decode_loop_bound in Hd; try lia.
  assert (128 ^ c <= 128 ^ 4) by (apply Z.pow_le_mono_r; lia).
  change (128 ^ 4) with 268435456 in *. lia.
Qed.

(** Five length bytes that all carry the continuation bit are refused. *)
Lemma five_continuations_rejected b1 b2 b3 b4 b5 rest m len :
  Forall (fun b => Z.land (u8 b) 128 <> 0) [b1; b2; b3; b4; b5] ->
  decode_loop (b1 :: b2 :: b3 :: b4 :: b5 :: rest) m len 0 = None.
Proof.
  intros Hall.
  repeat match goal with
         | H : Forall _ (_ :: _) |- _ => inversion H; subst; clear H
         end.
  simpl.
  repeat match goal with
         | H : Z.land _ 128 <> 0 |- _ => apply Z.eqb_neq in H; rewrite H; clear H
         end.
  reflexivity.
Qed.

(** ** Properties of the Remaining Length codec *)

(** C2. The claim is that a Remaining Length whose first four bytes all
    carry the continuation bit is rejected.  The decoder tests
    [consumed > 4] only after it has looked at the byte's continuation bit,
    so a fifth byte without the bit is accepted: on
    [30 80 80 80 80 01] it returns [true] with offset 6 and length
    268435456. *)
Theorem fifth_length_byte_accepted :
  Forall (fun b => Z.land (u8 b) 128 <> 0) [x80; x80; x80; x80] /\
  decodeRemainingLength [x30; x80; x80; x80; x80; x01] 1 = Some (6, 268435456).
Proof.
  split; [|reflexivity].
  repeat constructor; discriminate.
Qed.

(** C5. Each of the boundary lengths 0, 127, 128, 16383, 16384, 2097151,
    2097152 and 268435455, once encoded, decodes to itself, the decoder
    stopping right after the bytes the encoder produced (whatever comes
    before or after them); a length above 268435455 is encoded on more
    than four bytes, and a decode that used at most four bytes never
    yields more than 268435455. *)
Theorem remaining_length_round_trip :
  (forall n, In n boundaryLengths ->
     forall pre suf,
       decodeRemainingLength (pre ++ encodeRemainingLength n ++ suf) (size pre) =
       Some (size pre + size (encodeRemainingLength n), n)) /\
  (forall n, 268435455 < n -> 4 < size (encodeRemainingLength n)) /\
  (forall buf offset offset' n,
     decodeRemainingLength buf offset = Some (offset', n) ->
     offset' - offset <= 4 -> n <= 268435455).
Proof.
  split; [|split].
  - intros n Hn pre suf. apply decode_encode.
    unfold boundaryLengths in Hn. simpl in Hn.
    repeat (destruct Hn as [<-|Hn]; [lia|]). contradiction.
  - apply encode_long.
  - apply decode_short_bound.
Qed.

Lemma remaining_length_round_trip_witness :
  decodeRemainingLength ([x30] ++ encodeRemainingLength 16384 ++ [x00; x04]) (size [x30])
    = Some (size [x30] + size (encodeRemainingLength 16384), 16384) /\
  4 < size (encodeRemainingLength 268435456) /\
  2097151 <= 268435455.
Proof.
  destruct remaining_length_round_trip as [Hround [Hlong Hshort]].
  split; [|split].
  - apply Hround. simpl. tauto.
  - apply Hlong. lia.
  - apply (Hshort [x30; xff; xff; x7f] 1 4 2097151); [reflexivity | lia].
Defined.

(** ** The session table *)

Lemma map_find_store_other k k' v m :
  k <> k' -> map_find k' (map_store k v m) = map_find k' m.
Proof.
  intros Hne. induction m as [|[k0 v0] rest IH]; simpl; [reflexivity|].
  destruct (k0 =? k) eqn:Hk; simpl.
  - apply Z.eqb_eq in Hk. subst k0.
    replace (k =? k') with false by (symmetry; apply Z.eqb_neq; assumption).
    reflexivity.
  - destruct (k0 =? k'); auto.
Qed.

Lemma map_store_store k v1 v2 m :
  map_store k v2 (map_store k v1 m) = map_store k v2 m.
Proof.
  induction m as [|[k0 v0] rest IH]; simpl; [reflexivity|].
  destruct (k0 =? k) eqn:Hk; simpl; rewrite Hk; [reflexivity|].
  rewrite IH. reflexivity.
Qed.

Lemma map_store_same k v m : map_find k m = Some v -> map_store k v m = m.
Proof.
  induction m as [|[k0 v0] rest IH]; simpl; [reflexivity|].
  destruct (k0 =? k) eqn:Hk.
  - intros [= ->]. reflexivity.
  - intros H. rewrite IH by assumption. reflexivity.
Qed.

Lemma keys_store k v m : keys (map_store k v m) = keys m.
Proof.
  unfold keys. induction m as [|[k0 v0] rest IH]; simpl; [reflexivity|].
  destruct (k0 =? k); simpl; [reflexivity|]. rewrite IH. reflexivity.
Qed.

Lemma map_erase_store k v m : map_erase k (map_store k v m) = map_erase k m.
Proof.
  unfold map_erase. induction m as [|[k0 v0] rest IH]; simpl; [reflexivity|].
  destruct (k0 =? k) eqn:Hk; simpl; rewrite Hk; simpl; [reflexivity|].
  rewrite IH. reflexivity.
Qed.

Lemma map_find_In k m : map_find k m <> None <-> In k (keys m).
Proof.
  unfold keys. induction m as [|[k0 v0] rest IH]; simpl; [tauto|].
  destruct (k0 =? k) eqn:Hk.
  - apply Z.eqb_eq in Hk. split; [auto|congruence].
  - apply Z.eqb_neq in Hk. rewrite IH. split; [auto|]. intros [?|?]; [contradiction|auto].
Qed.

Lemma map_find_erase k m : map_find k (map_erase k m) = None.
Proof.
  unfold map_erase. induction m as [|[k0 v0] rest IH]; simpl; [reflexivity|].
  destruct (k0 =? k) eqn:Hk; simpl; [assumption|]. rewrite Hk. assumption.
Qed.

Lemma map_find_erase_other k k' m :
  k <> k' -> map_find k' (map_erase k m) = map_find k' m.
Proof.
  intros Hne. unfold map_erase.
  induction m as [|[k0 v0] rest IH]; simpl; [reflexivity|].
  destruct (k0 =? k) eqn:Hk; simpl.
  - apply Z.eqb_eq in Hk. subst k0.
    replace (k =? k') with false by (symmetry; apply Z.eqb_neq; assumption).
    assumption.
  - rewrite IH. reflexivity.
Qed.

(** ** [processPacket], one iteration at a time *)

Lemma processPacket_iter sendOk cfg k clients :
  processPacket sendOk cfg k clients =
  match processStep sendOk cfg k clients with
  | StepReturn clients' events => Returned clients' events
  | StepSpin events => Diverges [] events
  | StepNext clients' events => prepend events (processPacket sendOk cfg k clients')
  end.
Proof.
  rewrite processPacket_equation_1. unfold processPacket_clause_1. simpl.
  destruct (processStep sendOk cfg k clients); reflexivity.
Qed.

Lemma completePacket_size packet offset :
  completePacket packet offset -> 2 <= offset <= size packet.
Proof.
  intros [rl [Hdec _]]. unfold decodeRemainingLength in Hdec.
  destruct (decode_loop _ 1 0 0) as [[c l]|] eqn:Hd; [|discriminate].
  assert (Hoff : offset = 1 + c) by congruence.
  apply decode_loop_consumed in Hd. destruct Hd as [H1 [H2 _]].
  unfold size in *. rewrite length_skipn in H2.
  change (Z.to_nat 1) with 1%nat in H2. lia.
Qed.

Lemma at_app_l (u v : list byte) (i : Z) :
  0 <= i < size u -> at_ (u ++ v) i = at_ u i.
Proof. intros Hi. unfold at_. apply app_nth1. unfold size in Hi. lia. Qed.

Lemma firstn_size_app {A} (u v : list A) : firstn (Z.to_nat (size u)) (u ++ v) = u.
Proof.
  unfold size. rewrite Nat2Z.id, firstn_app, firstn_all, Nat.sub_diag.
  simpl. apply app_nil_r.
Qed.

(** The iteration that finds a complete packet at the front of the inbox
    takes exactly that packet off and hands it to the switch. *)
Lemma processStep_frame sendOk cfg k clients client packet offset rest :
  map_find k clients = Some client ->
  inbox client = packet ++ rest ->
  completePacket packet offset ->
  processStep sendOk cfg k clients =
  let client1 := set_inbox rest client in
  let clients1 := map_store k client1 clients in
  match handlePacket sendOk cfg (at_ packet 0) offset packet client1 clients1 with
  | (client2, events, Return) =>
      StepReturn (map_store k client2 clients1)
                 (rawLog cfg (at_ packet 0) packet ++ events)
  | (client2, events, Break) =>
      StepNext (map_store k client2 clients1)
               (rawLog cfg (at_ packet 0) packet ++ events)
  end.
Proof.
  intros Hfind Hinbox Hcomplete.
  pose proof (completePacket_size _ _ Hcomplete) as Hsize.
  destruct Hcomplete as [rl [Hdec Htotal]].
  unfold processStep. rewrite Hfind, Hinbox.
  rewrite size_app. pose proof (size_nonneg rest).
  replace (size packet + size rest <? 2) with false
    by (symmetry; apply Z.ltb_ge; lia).
  rewrite (decodeRemainingLength_app packet rest 1 _ ltac:(lia) Hdec).
  rewrite <- Htotal.
  replace (size packet + size rest <? size packet) with false
    by (symmetry; apply Z.ltb_ge; lia).
  rewrite firstn_size_app, skipn_size_app.
  rewrite at_app_l by lia.
  cbv zeta.
  destruct (handlePacket _ _ _ _ _ _ _) as [[client2 events] flow].
  destruct flow; [|reflexivity].
  replace (size packet =? 0) with false by (symmetry; apply Z.eqb_neq; lia).
  reflexivity.
Qed.

Lemma processPacket_frame sendOk cfg k clients client packet offset rest :
  map_find k clients = Some client ->
  inbox client = packet ++ rest ->
  completePacket packet offset ->
  processPacket sendOk cfg k clients =
  let client1 := set_inbox rest client in
  let clients1 := map_store k client1 clients in
  match handlePacket sendOk cfg (at_ packet 0) offset packet client1 clients1 with
  | (client2, events, Return) =>
      Returned (map_store k client2 clients1)
               (rawLog cfg (at_ packet 0) packet ++ events)
  | (client2, events, Break) =>
      prepend (rawLog cfg (at_ packet 0) packet ++ events)
              (processPacket sendOk cfg k (map_store k client2 clients1))
  end.
Proof.
  intros Hfind Hinbox Hcomplete.
  rewrite processPacket_iter.
  rewrite (processStep_frame _ _ _ _ _ _ _ _ Hfind Hinbox Hcomplete).
  cbv zeta.
  destruct (handlePacket _ _ _ _ _ _ _) as [[client2 events] flow].
  destruct flow; reflexivity.
Qed.

(** With fewer than two bytes in the inbox the loop is not entered. *)
Lemma processPacket_short sendOk cfg k clients client :
  map_find k clients = Some client ->
  size (inbox client) < 2 ->
  processPacket sendOk cfg k clients = Returned clients [].
Proof.
  intros Hfind Hsize. rewrite processPacket_iter. unfold processStep.
  rewrite Hfind.
  replace (size (inbox client) <? 2) with true by (symmetry; apply Z.ltb_lt; lia).
  reflexivity.
Qed.

(** A session whose inbox holds exactly one complete packet. *)
Lemma processPacket_single sendOk cfg k clients client packet offset :
  map_find k clients = Some client ->
  inbox client = packet ->
  completePacket packet offset ->
  processPacket sendOk cfg k clients =
  let client1 := set_inbox [] client in
  let clients1 := map_store k client1 clients in
  match handlePacket sendOk cfg (at_ packet 0) offset packet client1 clients1 with
  | (client2, events, _) =>
      Returned (map_store k client2 clients1)
               (rawLog cfg (at_ packet 0) packet ++ events)
  end.
Proof.
  intros Hfind Hinbox Hcomplete.
  rewrite (processPacket_frame sendOk cfg k clients client packet offset []
             Hfind ltac:(rewrite app_nil_r; assumption) Hcomplete).
  cbv zeta.
  pose proof (handlePacket_inbox sendOk cfg (at_ packet 0) offset packet
                (set_inbox [] client) (map_store k (set_inbox [] client) clients)) as Hin.
  destruct (handlePacket _ _ _ _ _ _ _) as [[client2 events] flow].
  destruct flow; [|reflexivity].
  simpl in Hin.
  rewrite (processPacket_short sendOk cfg k _ client2).
  - simpl. rewrite app_nil_r. reflexivity.
  - rewrite map_find_store; [reflexivity|].
    rewrite map_find_store; congruence.
  - rewrite Hin. unfold size. simpl. lia.
Qed.

(** ** What is sent *)

Lemma sends_app ev1 ev2 : sends (ev1 ++ ev2) = sends ev1 ++ sends ev2.
Proof. unfold sends. apply flat_map_app. Qed.

Lemma sends_log msg q : sends (log msg q) = [].
Proof. unfold log. destruct q; reflexivity. Qed.

Lemma sends_rawLog cfg header packet : sends (rawLog cfg header packet) = [].
Proof. unfold rawLog. destruct (logPackets cfg); reflexivity. Qed.

Lemma In_sends fd data events : In (fd, data) (sends events) <-> In (EvSend fd data) events.
Proof.
  unfold sends. rewrite in_flat_map. split.
  - intros [e [Hin He]]. destruct e; simpl in He; try contradiction.
    destruct He as [[= <- <-]|[]]. assumption.
  - intros Hin. exists (EvSend fd data). split; [assumption|]. simpl. auto.
Qed.

Lemma be16_hi v pos : to_u8 (Z.shiftr (be16 v pos) 8) = at_ v pos.
Proof.
  unfold be16. pose proof (u8_range (at_ v pos)). pose proof (u8_range (at_ v (pos + 1))).
  rewrite Z.shiftr_lor, Z.shiftr_shiftl_l by lia. simpl Z.sub. rewrite Z.shiftl_0_r.
  rewrite (Z.shiftr_div_pow2 (u8 (at_ v (pos + 1)))) by lia.
  rewrite (Z.div_small (u8 (at_ v (pos + 1)))) by (simpl; lia).
  rewrite Z.lor_0_r. apply to_u8_u8.
Qed.

Lemma be16_lo v pos : to_u8 (Z.land (be16 v pos) 255) = at_ v (pos + 1).
Proof.
  unfold be16. pose proof (u8_range (at_ v pos)). pose proof (u8_range (at_ v (pos + 1))).
  change 255 with (Z.ones 8). rewrite Z.land_ones by lia.
  rewrite <- (to_u8_u8 (at_ v (pos + 1))) at 2. f_equal.
  apply Z.bits_inj'. intros n Hn.
  destruct (Z_lt_le_dec n 8).
  - rewrite Z.mod_pow2_bits_low by lia. rewrite Z.lor_spec.
    rewrite Z.shiftl_spec_low by lia. reflexivity.
  - rewrite Z.mod_pow2_bits_high by lia. symmetry.
    apply (Z.bits_above_log2 (u8 (at_ v (pos + 1))) n); [lia|].
    destruct (Z.eq_dec (u8 (at_ v (pos + 1))) 0) as [->|]; [simpl; lia|].
    apply Z.log2_lt_pow2; [lia|].
    assert (2 ^ 8 <= 2 ^ n) by (apply Z.pow_le_mono_r; lia).
    change (2 ^ 8) with 256 in *. lia.
Qed.

Lemma subscribeLoop_fd cfg packet pos client :
  fd (fst (subscribeLoop cfg packet pos client)) = fd client.
Proof.
  funelim (subscribeLoop cfg packet pos client); try reflexivity.
  simpl. rewrite H. reflexivity.
Qed.

Lemma subscribeLoop_sends cfg packet pos client :
  sends (snd (subscribeLoop cfg packet pos client)) = [].
Proof.
  funelim (subscribeLoop cfg packet pos client); try reflexivity.
  simpl. rewrite sends_app, H.
  destruct (traceSubscriptions cfg); [rewrite sends_log|]; reflexivity.
Qed.

Lemma sends_broadcast sendOk topic payload clients senderFd verbose :
  sends (broadcast sendOk topic payload clients senderFd verbose) =
  map (fun s => (s, buildPublish topic payload))
      (subscribersExcept topic senderFd clients).
Proof.
  unfold broadcast, subscribersExcept.
  induction clients as [|[k c] rest IH]; [reflexivity|].
  cbn [flat_map filter fst snd]. rewrite sends_app, IH.
  destruct (k =? senderFd); [reflexivity|].
  destruct (set_mem string_dec topic (subscriptions c)); [|reflexivity].
  destruct (sendOk k (buildPublish topic payload) && verbose); reflexivity.
Qed.

Lemma subscribersExcept_store topic k v clients :
  subscribersExcept topic k (map_store k v clients) = subscribersExcept topic k clients.
Proof.
  unfold subscribersExcept.
  induction clients as [|[k0 v0] rest IH]; simpl; [reflexivity|].
  destruct (k0 =? k) eqn:Hk; simpl; rewrite Hk; simpl; [reflexivity|].
  destruct (set_mem string_dec topic (subscriptions v0)); simpl; rewrite IH; reflexivity.
Qed.

Lemma subscribersExcept_not_sender topic senderFd clients :
  ~ In senderFd (subscribersExcept topic senderFd clients).
Proof.
  unfold subscribersExcept. rewrite in_map_iff.
  intros [[k c] [Hk Hin]]. simpl in Hk. subst k.
  apply filter_In in Hin. destruct Hin as [_ Hf]. simpl in Hf.
  rewrite Z.eqb_refl in Hf. discriminate.
Qed.

(** ** SUBSCRIBE and its SUBACK *)

Local Open Scope string_scope.
Local Open Scope Z_scope.

(** C1, as the code has it. A complete SUBSCRIBE packet that holds its
    packet identifier is answered with exactly one [sendAll], of the five
    bytes [90 03 PH PL 00] to the subscribing session: one granted-QoS
    byte, 0x00, whatever the number of topic filters in the packet. *)
Theorem suback_has_one_grant_byte sendOk cfg k clients client packet offset :
  map_find k clients = Some client ->
  inbox client = packet ->
  completePacket packet offset ->
  packetType packet = 8 ->
  offset + 2 <= size packet ->
  exists clients' events,
    processPacket sendOk cfg k clients = Returned clients' events /\
    sends events =
      [(fd client, [x90; x03; at_ packet offset; at_ packet (offset + 1); x00])] /\
    grantedQoS [x90; x03; at_ packet offset; at_ packet (offset + 1); x00] = [x00].
Proof.
  intros Hfind Hinbox Hcomplete Htype Hid.
  rewrite (processPacket_single sendOk cfg k clients client packet offset
             Hfind Hinbox Hcomplete).
  cbv zeta. unfold handlePacket. unfold packetType in Htype. rewrite Htype.
  unfold handleSubscribe.
  replace (offset + 2 >? size packet) with false
    by (rewrite Z.gtb_ltb; symmetry; apply Z.ltb_ge; lia).
  cbv zeta. eexists. eexists. split; [reflexivity|]. split; [|reflexivity].
  rewrite !sends_app, sends_rawLog, subscribeLoop_sends, subscribeLoop_fd.
  unfold sendSuback. simpl. rewrite be16_hi, be16_lo. reflexivity.
Qed.

Lemma suback_has_one_grant_byte_witness :
  exists clients' events,
    processPacket (fun _ _ => true) defaultConfig 5
      [(5, {| fd := 5; clientId := "?"; subscriptions := [];
              inbox := subscribeTwoTopics |})]
    = Returned clients' events /\
    sends events = [(5, [x90; x03; x00; x01; x00])] /\
    grantedQoS [x90; x03; x00; x01; x00] = [x00].
Proof.
  apply (suback_has_one_grant_byte (fun _ _ => true) defaultConfig 5
           [(5, {| fd := 5; clientId := "?"; subscriptions := [];
                   inbox := subscribeTwoTopics |})]
           {| fd := 5; clientId := "?"; subscriptions := [];
              inbox := subscribeTwoTopics |}
           subscribeTwoTopics 2).
  - reflexivity.
  - reflexivity.
  - exists 10. split; reflexivity.
  - reflexivity.
  - vm_compute. discriminate.
Defined.

(** C1, as stated, fails: the SUBSCRIBE [subscribeTwoTopics] adds its two
    topic filters to the session, and the SUBACK the broker sends back
    carries one granted-QoS byte, not two. *)
Lemma suback_two_topics_one_grant :
  exists clients' events client',
    processPacket (fun _ _ => true) defaultConfig 5
      [(5, {| fd := 5; clientId := "?"; subscriptions := [];
              inbox := subscribeTwoTopics |})]
    = Returned clients' events /\
    map_find 5 clients' = Some client' /\
    subscriptions client' = ["a"; "b"] /\
    sends events = [(5, [x90; x03; x00; x01; x00])] /\
    List.length (grantedQoS [x90; x03; x00; x01; x00]) <> 2%nat.
Proof.
  do 3 eexists. split; [vm_compute; reflexivity|].
  split; [reflexivity|]. split; [reflexivity|]. split; [reflexivity|].
  simpl. discriminate.
Qed.

(** ** PUBLISH: acknowledgement and fan-out *)

Example buildPublish_test_hello : buildPublish "test" "hello" = publishQoS0.
Proof. vm_compute. reflexivity. Qed.

Lemma handlePublish_publishQoS1 sendOk cfg client clients :
  handlePublish sendOk cfg x32 2 publishQoS1 client clients =
  (sendPuback (fd client) 42
   ++ (if traceMessages cfg
       then log ("[publish] from=" ++ clientId client ++ " topic='test' payload='hello'")
                (quiet cfg)
       else [])
   ++ broadcast sendOk "test" "hello" clients (fd client) (traceMessages cfg))%list.
Proof. reflexivity. Qed.

(** C6. When the session with socket [k] has sent the PUBLISH
    [32 0D 00 04 74 65 73 74 00 2A 68 65 6C 6C 6F], the broker's sends are
    exactly: the PUBACK [40 02 00 2A] to [k], then the QoS-0 PUBLISH
    [30 0B 00 04 "test" "hello"] to every other session subscribed to
    "test"; nothing else goes to the publisher. *)
Theorem publish_qos1_puback_and_fanout sendOk cfg k clients client :
  map_find k clients = Some client ->
  fd client = k ->
  inbox client = publishQoS1 ->
  exists clients' events,
    processPacket sendOk cfg k clients = Returned clients' events /\
    sends events =
      ((k, [x40; x02; x00; x2a]) ::
       map (fun s => (s, publishQoS0)) (subscribersExcept "test" k clients))%list /\
    ~ In k (subscribersExcept "test" k clients).
Proof.
  intros Hfind Hfd Hinbox.
  assert (Hcomplete : completePacket publishQoS1 2) by (exists 13; split; reflexivity).
  rewrite (processPacket_single sendOk cfg k clients client publishQoS1 2
             Hfind Hinbox Hcomplete).
  cbv zeta.
  change (handlePacket sendOk cfg (at_ publishQoS1 0) 2 publishQoS1
            (set_inbox [] client) (map_store k (set_inbox [] client) clients))
    with (set_inbox [] client,
          handlePublish sendOk cfg x32 2 publishQoS1 (set_inbox [] client)
            (map_store k (set_inbox [] client) clients), Break).
  rewrite handlePublish_publishQoS1.
  eexists. eexists. split; [reflexivity|].
  split; [|apply subscribersExcept_not_sender].
  rewrite !sends_app, sends_rawLog, sends_broadcast.
  replace (sends (if traceMessages cfg then log _ (quiet cfg) else [])) with
    (@nil (Z * list byte)) by (destruct (traceMessages cfg); [rewrite sends_log|]; reflexivity).
  simpl. rewrite Hfd, subscribersExcept_store. reflexivity.
Qed.

Lemma publish_qos1_puback_and_fanout_witness :
  exists clients' events,
    processPacket (fun _ _ => true) defaultConfig 6
      [(5, {| fd := 5; clientId := "sub"; subscriptions := ["test"]; inbox := [] |});
       (6, {| fd := 6; clientId := "pub"; subscriptions := ["test"];
              inbox := publishQoS1 |})]
    = Returned clients' events /\
    sends events =
      ((6, [x40; x02; x00; x2a]) ::
       map (fun s => (s, publishQoS0))
         (subscribersExcept "test" 6
            [(5, {| fd := 5; clientId := "sub"; subscriptions := ["test"]; inbox := [] |});
             (6, {| fd := 6; clientId := "pub"; subscriptions := ["test"];
                    inbox := publishQoS1 |})]))%list /\
    ~ In 6 (subscribersExcept "test" 6
            [(5, {| fd := 5; clientId := "sub"; subscriptions := ["test"]; inbox := [] |});
             (6, {| fd := 6; clientId := "pub"; subscriptions := ["test"];
                    inbox := publishQoS1 |})]).
Proof.
  apply (publish_qos1_puback_and_fanout (fun _ _ => true) defaultConfig 6 _
           {| fd := 6; clientId := "pub"; subscriptions := ["test"];
              inbox := publishQoS1 |}); reflexivity.
Defined.

(** ** A pass of the server loop in which one socket is readable *)

Lemma readLoop_skip sendOk cfg readfds recv todo clients toRemove :
  (forall fd, In fd todo -> recv fd = None) ->
  readLoop sendOk cfg readfds recv todo clients toRemove =
  ReadDone clients toRemove [].
Proof.
  induction todo as [|fd rest IH]; intros Hnone; simpl; [reflexivity|].
  rewrite (Hnone fd) by (left; reflexivity).
  assert (Hrest : forall fd', In fd' rest -> recv fd' = None)
    by (intros fd' H; apply Hnone; right; assumption).
  destruct (existsb (Z.eqb fd) readfds); apply IH; assumption.
Qed.

Lemma readLoop_one sendOk cfg readfds recv k data todo clients toRemove :
  NoDup todo -> In k todo -> In k readfds -> data <> [] ->
  recv k = Some data -> (forall fd, fd <> k -> recv fd = None) ->
  readLoop sendOk cfg readfds recv todo clients toRemove =
  match processPacket sendOk cfg k (appendInbox k data clients) with
  | Returned clients' events =>
      ReadDone clients'
        (if closedByBroker k clients' then toRemove ++ [k] else toRemove) events
  | Diverges events cycle => ReadDiverges events cycle
  end.
Proof.
  intros Hnodup Hin Hready Hdata Hrecv Hnone.
  induction todo as [|fd rest IH]; [contradiction|].
  inversion Hnodup as [|? ? Hnotin Hnodup']; subst.
  simpl. destruct (Z.eq_dec fd k) as [->|Hne].
  - replace (existsb (Z.eqb k) readfds) with true
      by (symmetry; apply existsb_exists; exists k; split; [assumption|apply Z.eqb_refl]).
    rewrite Hrecv.
    destruct data as [|b bs]; [congruence|].
    destruct (processPacket sendOk cfg k (appendInbox k (b :: bs) clients))
      as [clients' events|events cycle]; [|reflexivity].
    rewrite readLoop_skip.
    + simpl. rewrite app_nil_r. reflexivity.
    + intros fd Hfd. apply Hnone. intros ->. contradiction.
  - rewrite (Hnone fd Hne).
    destruct Hin as [Hin|Hin]; [contradiction|].
    destruct (existsb (Z.eqb fd) readfds); apply IH; assumption.
Qed.

Lemma tick_recvOnly sendOk cfg k data clients :
  NoDup (keys clients) -> In k (keys clients) -> 0 <= k -> data <> [] ->
  tick sendOk cfg (recvOnly k data) clients =
  match processPacket sendOk cfg k (appendInbox k data clients) with
  | Returned clients' events =>
      TickDone (if closedByBroker k clients' then map_erase k clients' else clients')
               events
  | Diverges events cycle => TickDiverges events cycle
  end.
Proof.
  intros Hnodup Hin Hk Hdata. unfold tick. cbn [accepted recvOnly acceptStep].
  rewrite (readLoop_one sendOk cfg _ _ k data (keys clients) clients [] Hnodup Hin).
  - destruct (processPacket _ _ _ _) as [clients' events|events cycle]; [|reflexivity].
    destruct (closedByBroker k clients'); reflexivity.
  - apply filter_In. split; [assumption|]. apply Z.geb_le. lia.
  - assumption.
  - simpl. rewrite Z.eqb_refl. reflexivity.
  - intros fd Hne. simpl. apply Z.eqb_neq in Hne. rewrite Hne. reflexivity.
Qed.

Lemma appendInbox_found k data clients client :
  map_find k clients = Some client ->
  appendInbox k data clients = map_store k (set_inbox (inbox client ++ data) client) clients.
Proof. intros H. unfold appendInbox. rewrite H. reflexivity. Qed.

Lemma set_inbox_same client : set_inbox (inbox client) client = client.
Proof. destruct client. reflexivity. Qed.

Lemma set_inbox_set_inbox v w client : set_inbox v (set_inbox w client) = set_inbox v client.
Proof. reflexivity. Qed.

(** ** No self-delivery *)

(** C7, as the code has it. Under every configuration the broadcast of a
    PUBLISH never sends to the publishing session, subscribed or not; the
    only bytes the PUBLISH handler sends to the publisher are a PUBACK;
    and the broker has no reflect option: [--reflect] on the command line
    ends in the usage message and exit status 1. *)
Theorem broadcast_never_reaches_sender :
  (forall sendOk topic payload clients senderFd verbose pkt,
     ~ In (EvSend senderFd pkt)
          (broadcast sendOk topic payload clients senderFd verbose)) /\
  (forall sendOk cfg header offset packet client clients pkt,
     In (EvSend (fd client) pkt)
        (handlePublish sendOk cfg header offset packet client clients) ->
     exists packetId, sendPuback (fd client) packetId = [EvSend (fd client) pkt]) /\
  (forall stoi prog rest, parseArgs stoi (prog :: "--reflect" :: rest) = UsageExit).
Proof.
  assert (Hself : forall sendOk topic payload clients senderFd verbose pkt,
     ~ In (EvSend senderFd pkt)
          (broadcast sendOk topic payload clients senderFd verbose)).
  { intros sendOk topic payload clients senderFd verbose pkt Hin.
    apply In_sends in Hin. rewrite sends_broadcast in Hin.
    apply in_map_iff in Hin. destruct Hin as [s [[= -> _] Hin]].
    exact (subscribersExcept_not_sender _ _ _ Hin). }
  split; [exact Hself|]. split.
  - intros sendOk cfg header offset packet client clients pkt.
    unfold handlePublish.
    assert (Hdeliver : forall topic payload,
      ~ In (EvSend (fd client) pkt)
        ((if traceMessages cfg
          then log ("[publish] from=" ++ clientId client ++ " topic='" ++ topic
                    ++ "' payload='" ++ payload ++ "'") (quiet cfg)
          else [])
         ++ broadcast sendOk topic payload clients (fd client) (traceMessages cfg))%list).
    { intros topic payload Hin. apply in_app_or in Hin. destruct Hin as [Hin|Hin].
      - destruct (traceMessages cfg); [|contradiction].
        unfold log in Hin. destruct (quiet cfg); [contradiction|].
        destruct Hin as [Hin|[]]. discriminate.
      - exact (Hself _ _ _ _ _ _ _ Hin). }
    destruct (offset + 2 >? size packet); [contradiction|].
    destruct (offset + 2 + be16 packet offset >? size packet); [contradiction|].
    destruct (Z.land (Z.shiftr (u8 header) 1) 3 >? 0).
    + destruct (offset + 2 + be16 packet offset + 2 >? size packet); [contradiction|].
      intros Hin. apply in_app_or in Hin. destruct Hin as [Hin|Hin].
      * destruct Hin as [Hin|[]]. eexists. unfold sendPuback. rewrite Hin. reflexivity.
      * exfalso. exact (Hdeliver _ _ Hin).
    + intros Hin. exfalso. exact (Hdeliver _ _ Hin).
  - intros stoi prog rest. reflexivity.
Qed.

Lemma broadcast_never_reaches_sender_witness :
  exists packetId, sendPuback 6 packetId = [EvSend 6 [x40; x02; x00; x2a]].
Proof.
  destruct broadcast_never_reaches_sender as [_ [Hpuback _]].
  apply (Hpuback (fun _ _ => true) defaultConfig x32 2 publishQoS1
           {| fd := 6; clientId := "pub"; subscriptions := ["test"]; inbox := [] |}
           [(5, {| fd := 5; clientId := "sub"; subscriptions := ["test"]; inbox := [] |})]
           [x40; x02; x00; x2a]).
  vm_compute. left. reflexivity.
Defined.

(** C7, as stated, fails in its reflect clause: there is no reflect option
    ([--reflect] is refused), and no configuration makes the broker send
    anything to the subscribed publisher 6 of [twoSubscribers]. *)
Lemma reflect_cannot_be_enabled :
  parseArgs (fun _ => None) ["debug_mqtt_server"; "--reflect"] = UsageExit /\
  ~ exists cfg clients' events pkt,
      processPacket (fun _ _ => true) cfg 6 twoSubscribers = Returned clients' events /\
      In (EvSend 6 pkt) events.
Proof.
  split; [reflexivity|].
  intros [cfg [clients' [events [pkt [Hrun Hin]]]]].
  destruct cfg as [p m lp ts tm q d].
  destruct lp, tm, q; vm_compute in Hrun; injection Hrun as <- <-;
    simpl in Hin; intuition discriminate.
Qed.

(** ** Reserved packet types and the missing disconnect-on-error switch *)

(** C4, as the code has it. The broker has no disconnect-on-error option
    ([--disconnect-on-error] ends in the usage message and exit status 1).
    Under every configuration, when a session with an open socket and an
    empty inbox sends the fixed header [00 00], the pass of the server
    loop that reads it consumes the two bytes, logs "[warn] Unhandled
    packet type 0" unless quiet, sends nothing and closes nothing: the
    whole session table, the sender's entry included, is as it was. *)
Theorem reserved_type_is_logged_not_closed :
  (forall sendOk cfg k clients client,
     NoDup (keys clients) ->
     map_find k clients = Some client ->
     0 <= k -> 0 <= fd client -> inbox client = [] ->
     tick sendOk cfg (recvOnly k [x00; x00]) clients =
     TickDone clients
       (rawLog cfg x00 [x00; x00]
        ++ log "[warn] Unhandled packet type 0" (quiet cfg))%list) /\
  (forall stoi prog rest,
     parseArgs stoi (prog :: "--disconnect-on-error" :: rest) = UsageExit).
Proof.
  split; [|reflexivity].
  intros sendOk cfg k clients client Hnodup Hfind Hk Hfd Hinbox.
  assert (Hin : In k (keys clients)) by (apply map_find_In; congruence).
  rewrite (tick_recvOnly sendOk cfg k [x00; x00] clients Hnodup Hin Hk ltac:(discriminate)).
  rewrite (appendInbox_found _ _ _ _ Hfind), Hinbox.
  assert (Hcomplete : completePacket [x00; x00] 2) by (exists 0; split; reflexivity).
  assert (Hfind' : map_find k (map_store k (set_inbox ([] ++ [x00; x00]) client) clients)
                   = Some (set_inbox ([] ++ [x00; x00]) client))
    by (apply map_find_store; congruence).
  rewrite (processPacket_single sendOk cfg k _ _ [x00; x00] 2 Hfind' eq_refl Hcomplete).
  cbv zeta.
  assert (Hc : set_inbox [] client = client)
    by (rewrite <- Hinbox; apply set_inbox_same).
  change (set_inbox [] (set_inbox ([] ++ [x00; x00]) client))
    with (set_inbox [] client).
  rewrite Hc, !map_store_store, (map_store_same k client clients Hfind).
  change (handlePacket sendOk cfg (at_ [x00; x00] 0) 2 [x00; x00] client clients)
    with (client, log "[warn] Unhandled packet type 0" (quiet cfg), Break).
  cbv iota beta. rewrite (map_store_same k client clients Hfind).
  unfold closedByBroker. rewrite Hfind.
  replace (fd client <? 0) with false by (symmetry; apply Z.ltb_ge; assumption).
  reflexivity.
Qed.

Lemma reserved_type_is_logged_not_closed_witness :
  tick (fun _ _ => true) defaultConfig (recvOnly 5 [x00; x00]) twoIdle =
  TickDone twoIdle [EvLog "[warn] Unhandled packet type 0"].
Proof.
  destruct reserved_type_is_logged_not_closed as [Htick _].
  apply (Htick (fun _ _ => true) defaultConfig 5 twoIdle
           {| fd := 5; clientId := "stm"; subscriptions := ["cmd/luz"]; inbox := [] |}).
  - repeat constructor; simpl; intuition discriminate.
  - reflexivity.
  - lia.
  - simpl. lia.
  - reflexivity.
Defined.

(** C4, as stated, fails: [--disconnect-on-error] is refused by the
    command line, and under no configuration does the pass that reads
    [00 00] from session 5 close its socket or drop it from the table. *)
Lemma disconnect_on_error_cannot_be_enabled :
  parseArgs (fun _ => None) ["debug_mqtt_server"; "--disconnect-on-error"] = UsageExit /\
  ~ exists cfg clients' events,
      tick (fun _ _ => true) cfg (recvOnly 5 [x00; x00]) twoIdle
      = TickDone clients' events /\
      (In (EvClose 5) events \/ map_find 5 clients' = None).
Proof.
  split; [reflexivity|].
  intros [cfg [clients' [events [Hrun Hclosed]]]].
  destruct cfg as [p m lp ts tm q d].
  destruct lp, q; vm_compute in Hrun; injection Hrun as <- <-;
    simpl in Hclosed; intuition discriminate.
Qed.

(** ** DISCONNECT *)

(** C10. The iteration of [processPacket] that takes a DISCONNECT packet
    off the inbox returns at once: the session's [fd] becomes -1, its
    socket is closed, and the bytes after the packet are left in the inbox
    as they are, whatever they hold.  The pass of the server loop in which
    this happens then erases the session; none of its events comes from
    the bytes after the DISCONNECT. *)
Theorem disconnect_stops_processing :
  (forall sendOk cfg k clients client packet offset rest,
     map_find k clients = Some client ->
     inbox client = (packet ++ rest)%list ->
     completePacket packet offset ->
     packetType packet = 14 ->
     processStep sendOk cfg k clients =
     StepReturn (map_store k (set_fd (-1) (set_inbox rest client)) clients)
       (rawLog cfg (at_ packet 0) packet
        ++ log ("[disconnect] " ++ clientId client) (quiet cfg)
        ++ [EvClose (fd client)])%list) /\
  (forall sendOk cfg k clients client packet offset rest,
     NoDup (keys clients) ->
     map_find k clients = Some client ->
     0 <= k -> inbox client = [] ->
     completePacket packet offset ->
     packetType packet = 14 ->
     tick sendOk cfg (recvOnly k (packet ++ rest)%list) clients =
     TickDone (map_erase k clients)
       (rawLog cfg (at_ packet 0) packet
        ++ log ("[disconnect] " ++ clientId client) (quiet cfg)
        ++ [EvClose (fd client)])%list).
Proof.
  assert (Hstep : forall sendOk cfg k clients client packet offset rest,
     map_find k clients = Some client ->
     inbox client = (packet ++ rest)%list ->
     completePacket packet offset ->
     packetType packet = 14 ->
     processStep sendOk cfg k clients =
     StepReturn (map_store k (set_fd (-1) (set_inbox rest client)) clients)
       (rawLog cfg (at_ packet 0) packet
        ++ log ("[disconnect] " ++ clientId client) (quiet cfg)
        ++ [EvClose (fd client)])%list).
  { intros sendOk cfg k clients client packet offset rest Hfind Hinbox Hcomplete Htype.
    rewrite (processStep_frame sendOk cfg k clients client packet offset rest
               Hfind Hinbox Hcomplete).
    cbv zeta. unfold handlePacket. unfold packetType in Htype. rewrite Htype.
    rewrite map_store_store. reflexivity. }
  split; [exact Hstep|].
  intros sendOk cfg k clients client packet offset rest
         Hnodup Hfind Hk Hinbox Hcomplete Htype.
  assert (Hin : In k (keys clients)) by (apply map_find_In; congruence).
  pose proof (completePacket_size _ _ Hcomplete) as Hsize.
  assert (Hdata : (packet ++ rest)%list <> []).
  { destruct packet; [unfold size in Hsize; simpl in Hsize; lia|discriminate]. }
  rewrite (tick_recvOnly sendOk cfg k _ clients Hnodup Hin Hk Hdata).
  rewrite (appendInbox_found _ _ _ _ Hfind), Hinbox. simpl app.
  rewrite processPacket_iter.
  assert (Hfind' : map_find k (map_store k (set_inbox (packet ++ rest)%list client) clients)
                   = Some (set_inbox (packet ++ rest)%list client))
    by (apply map_find_store; congruence).
  rewrite (Hstep sendOk cfg k _ _ packet offset rest Hfind' eq_refl Hcomplete Htype).
  rewrite map_store_store.
  unfold closedByBroker. rewrite map_find_store by congruence.
  simpl. rewrite map_erase_store. reflexivity.
Qed.

Lemma disconnect_stops_processing_witness :
  tick (fun _ _ => true) defaultConfig (recvOnly 6 disconnectThenPublish)
    [(5, {| fd := 5; clientId := "sub"; subscriptions := ["test"]; inbox := [] |});
     (6, {| fd := 6; clientId := "pub"; subscriptions := []; inbox := [] |})]
  = TickDone
      [(5, {| fd := 5; clientId := "sub"; subscriptions := ["test"]; inbox := [] |})]
      [EvLog "[disconnect] pub"; EvClose 6].
Proof.
  destruct disconnect_stops_processing as [_ Htick].
  apply (Htick (fun _ _ => true) defaultConfig 6
           [(5, {| fd := 5; clientId := "sub"; subscriptions := ["test"]; inbox := [] |});
            (6, {| fd := 6; clientId := "pub"; subscriptions := []; inbox := [] |})]
           {| fd := 6; clientId := "pub"; subscriptions := []; inbox := [] |}
           [xe0; x00] 2 publishQoS0).
  - repeat constructor; simpl; intuition discriminate.
  - reflexivity.
  - lia.
  - reflexivity.
  - exists 0. split; reflexivity.
  - reflexivity.
Defined.

(** ** Packets with a truncated body *)

Lemma be16_nonneg v pos : 0 <= be16 v pos.
Proof.
  unfold be16. apply Z.lor_nonneg. split.
  - apply Z.shiftl_nonneg. apply u8_range.
  - apply u8_range.
Qed.

Lemma gtb_true a b : (a >? b) = true <-> b < a.
Proof. rewrite Z.gtb_ltb. apply Z.ltb_lt. Qed.

Lemma gtb_false a b : (a >? b) = false <-> a <= b.
Proof. rewrite Z.gtb_ltb. apply Z.ltb_ge. Qed.

Lemma handlePacket_tooShort sendOk cfg packet offset client clients :
  bodyTooShort packet offset = true ->
  handlePacket sendOk cfg (at_ packet 0) offset packet client clients
  = (client, [], Break).
Proof.
  unfold bodyTooShort, packetType, handlePacket.
  pose proof (be16_nonneg packet offset) as Hbe.
  destruct (Z.shiftr (u8 (at_ packet 0)) 4) as [|p|p]; try discriminate.
  do 4 (try destruct p as [p|p|]; try discriminate); intros H;
    match goal with
    | |- context [handleSubscribe] =>
        unfold handleSubscribe; rewrite H; reflexivity
    | |- context [handlePublish] =>
        unfold handlePublish;
        destruct (offset + 2 >? size packet); [reflexivity|];
        destruct (offset + 2 + be16 packet offset >? size packet); [reflexivity|];
        simpl in H;
        destruct (Z.land (Z.shiftr (u8 (at_ packet 0)) 1) 3 >? 0); [|discriminate];
        simpl in H; rewrite H; reflexivity
    | |- context [handleConnect] =>
        unfold handleConnect;
        destruct (offset + 2 >? size packet) eqn:H1; [reflexivity|];
        simpl in H; apply gtb_true in H;
        destruct (offset + (2 + be16 packet offset) + 4 >? size packet) eqn:H2;
          [reflexivity|];
        replace (offset + (2 + be16 packet offset) + 4 + 2 >? size packet) with true
          by (symmetry; apply gtb_true; lia);
        reflexivity
    end.
Qed.

(** C3, as the code has it. Under every configuration, a complete packet
    whose body is too short for its handler is taken off the inbox and
    nothing else happens for it: no other field of the session changes,
    nothing is sent, and the only line logged is the raw-frame line when
    raw logging is on; no warning is written.  Processing then goes on
    with the bytes that follow. *)
Theorem truncated_packet_is_dropped_silently
    sendOk cfg k clients client packet offset rest :
  map_find k clients = Some client ->
  inbox client = (packet ++ rest)%list ->
  completePacket packet offset ->
  bodyTooShort packet offset = true ->
  processPacket sendOk cfg k clients =
  prepend (rawLog cfg (at_ packet 0) packet)
    (processPacket sendOk cfg k (map_store k (set_inbox rest client) clients)).
Proof.
  intros Hfind Hinbox Hcomplete Hshort.
  rewrite (processPacket_frame sendOk cfg k clients client packet offset rest
             Hfind Hinbox Hcomplete).
  cbv zeta. rewrite (handlePacket_tooShort _ _ _ _ _ _ Hshort).
  rewrite map_store_store, app_nil_r. reflexivity.
Qed.

Lemma truncated_packet_is_dropped_silently_witness :
  processPacket (fun _ _ => true) defaultConfig 5
    [(5, {| fd := 5; clientId := "stm"; subscriptions := [];
            inbox := truncatedPublishThenPing |})]
  = prepend (rawLog defaultConfig x30 [x30; x01; x00])
      (processPacket (fun _ _ => true) defaultConfig 5
         (map_store 5
            (set_inbox [xc0; x00]
               {| fd := 5; clientId := "stm"; subscriptions := [];
                  inbox := truncatedPublishThenPing |})
            [(5, {| fd := 5; clientId := "stm"; subscriptions := [];
                    inbox := truncatedPublishThenPing |})])).
Proof.
  apply (truncated_packet_is_dropped_silently (fun _ _ => true) defaultConfig 5
           [(5, {| fd := 5; clientId := "stm"; subscriptions := [];
                   inbox := truncatedPublishThenPing |})]
           {| fd := 5; clientId := "stm"; subscriptions := [];
              inbox := truncatedPublishThenPing |}
           [x30; x01; x00] 2 [xc0; x00]).
  - reflexivity.
  - reflexivity.
  - exists 1. split; reflexivity.
  - reflexivity.
Defined.

(** C3, as stated, fails on the warning: under the default configuration
    the truncated PUBLISH of [truncatedPublishThenPing] is discarded and
    the PINGREQ behind it answered, but the only line logged is the one
    of the PINGREQ. *)
Lemma truncated_publish_logs_no_warning :
  processPacket (fun _ _ => true) defaultConfig 5
    [(5, {| fd := 5; clientId := "stm"; subscriptions := [];
            inbox := truncatedPublishThenPing |})]
  = Returned
      [(5, {| fd := 5; clientId := "stm"; subscriptions := []; inbox := [] |})]
      [EvLog "[ping] from stm"; EvSend 5 [xd0; x00]].
Proof. vm_compute. reflexivity. Qed.

(** What the claim calls a Remaining Length overflow never reaches the
    switch: when the length does not decode, [processPacket] returns and
    leaves the inbox as it is, whatever follows the length bytes. *)
Lemma undecodable_length_stays_in_inbox sendOk cfg k clients client :
  map_find k clients = Some client ->
  decodeRemainingLength (inbox client) 1 = None ->
  processPacket sendOk cfg k clients = Returned clients [].
Proof.
  intros Hfind Hdec. rewrite processPacket_iter. unfold processStep.
  rewrite Hfind, Hdec. destruct (size (inbox client) <? 2); reflexivity.
Qed.

Example overlong_length_blocks_ping :
  processPacket (fun _ _ => true) defaultConfig 5
    [(5, {| fd := 5; clientId := "stm"; subscriptions := [];
            inbox := [x30; x80; x80; x80; x80; x80; x00; xc0; x00] |})]
  = Returned
      [(5, {| fd := 5; clientId := "stm"; subscriptions := [];
              inbox := [x30; x80; x80; x80; x80; x80; x00; xc0; x00] |})]
      [].
Proof. vm_compute. reflexivity. Qed.

(** ** Fragmented delivery *)

(** While a complete packet has only partly arrived, [processPacket]
    returns without touching anything. *)
Lemma processPacket_partial sendOk cfg k clients client packet offset more :
  map_find k clients = Some client ->
  completePacket packet offset ->
  packet = (inbox client ++ more)%list ->
  more <> [] ->
  processPacket sendOk cfg k clients = Returned clients [].
Proof.
  intros Hfind [rl [Hdec Htotal]] Hsplit Hmore.
  rewrite processPacket_iter. unfold processStep. rewrite Hfind.
  destruct (size (inbox client) <? 2) eqn:Hsz; [reflexivity|].
  apply Z.ltb_ge in Hsz.
  destruct (decodeRemainingLength (inbox client) 1) as [[o l]|] eqn:Hpre;
    [|reflexivity].
  apply (decodeRemainingLength_app _ more) in Hpre; [|lia].
  rewrite <- Hsplit, Hdec in Hpre. injection Hpre as <- <-.
  rewrite <- Htotal, Hsplit, size_app.
  assert (0 < size more).
  { destruct more; [congruence|]. rewrite size_cons. pose proof (size_nonneg more). lia. }
  replace (size (inbox client) <? size (inbox client) + size more) with true
    by (symmetry; apply Z.ltb_lt; lia).
  reflexivity.
Qed.

Lemma feed_one sendOk cfg k chunk clients :
  feed sendOk cfg k [chunk] clients = tick sendOk cfg (recvOnly k chunk) clients.
Proof.
  simpl. destruct (tick sendOk cfg (recvOnly k chunk) clients); [|reflexivity].
  simpl. rewrite app_nil_r. reflexivity.
Qed.

Lemma feed_fragments sendOk cfg k packet offset chunks :
  completePacket packet offset ->
  Forall (fun chunk => chunk <> []) chunks ->
  chunks <> [] ->
  forall clients client,
    NoDup (keys clients) ->
    map_find k clients = Some client ->
    0 <= k -> 0 <= fd client ->
    (inbox client ++ List.concat chunks)%list = packet ->
    feed sendOk cfg k chunks clients =
    tick sendOk cfg (recvOnly k (List.concat chunks)) clients.
Proof.
  intros Hcomplete Hall. induction Hall as [|chunk rest Hchunk Hrest IH];
    intros Hne clients client Hnodup Hfind Hk Hfd Hsplit; [congruence|].
  destruct rest as [|chunk2 rest].
  - simpl List.concat. rewrite app_nil_r. apply feed_one.
  - assert (Hin : In k (keys clients)) by (apply map_find_In; congruence).
    assert (Hmore : List.concat (chunk2 :: rest) <> []).
    { inversion Hrest; subst. simpl. destruct chunk2; [congruence|discriminate]. }
    change (feed sendOk cfg k (chunk :: chunk2 :: rest) clients) with
      (match tick sendOk cfg (recvOnly k chunk) clients with
       | TickDone clients' events =>
           prependTick events (feed sendOk cfg k (chunk2 :: rest) clients')
       | TickDiverges events cycle => TickDiverges events cycle
       end).
    rewrite (tick_recvOnly sendOk cfg k chunk clients Hnodup Hin Hk Hchunk).
    rewrite (appendInbox_found _ _ _ _ Hfind).
    set (client1 := set_inbox (inbox client ++ chunk) client).
    set (clients1 := map_store k client1 clients).
    assert (Hfind1 : map_find k clients1 = Some client1)
      by (apply map_find_store; congruence).
    rewrite (processPacket_partial sendOk cfg k clients1 client1 packet offset
               (List.concat (chunk2 :: rest)) Hfind1 Hcomplete).
    2:{ rewrite <- Hsplit. unfold client1. simpl inbox. simpl List.concat.
        rewrite <- app_assoc. reflexivity. }
    2:{ assumption. }
    unfold closedByBroker. rewrite Hfind1.
    replace (fd client1 <? 0) with false
      by (symmetry; apply Z.ltb_ge; unfold client1; simpl; assumption).
    rewrite (IH ltac:(discriminate) clients1 client1).
    + destruct (tick sendOk cfg (recvOnly k (List.concat (chunk2 :: rest))) clients1)
        as [clients2 events2|events2 cycle2] eqn:Htick.
      * simpl prependTick. rewrite <- Htick.
        rewrite (tick_recvOnly sendOk cfg k _ clients1); try assumption.
        -- rewrite (tick_recvOnly sendOk cfg k _ clients Hnodup Hin Hk).
           ++ rewrite (appendInbox_found _ _ _ _ Hfind1).
              rewrite (appendInbox_found _ _ _ _ Hfind).
              unfold clients1, client1. simpl inbox. rewrite map_store_store.
              change (set_inbox ?v (set_inbox ?w client)) with (set_inbox v client).
              simpl List.concat. rewrite <- app_assoc. reflexivity.
           ++ simpl List.concat. destruct chunk; [congruence|discriminate].
        -- unfold clients1. rewrite keys_store. assumption.
        -- unfold clients1. rewrite keys_store. assumption.
      * simpl prependTick. rewrite <- Htick.
        rewrite (tick_recvOnly sendOk cfg k _ clients1); try assumption.
        -- rewrite (tick_recvOnly sendOk cfg k _ clients Hnodup Hin Hk).
           ++ rewrite (appendInbox_found _ _ _ _ Hfind1).
              rewrite (appendInbox_found _ _ _ _ Hfind).
              unfold clients1, client1. simpl inbox. rewrite map_store_store.
              change (set_inbox ?v (set_inbox ?w client)) with (set_inbox v client).
              simpl List.concat. rewrite <- app_assoc. reflexivity.
           ++ simpl List.concat. destruct chunk; [congruence|discriminate].
        -- unfold clients1. rewrite keys_store. assumption.
        -- unfold clients1. rewrite keys_store. assumption.
    + unfold clients1. rewrite keys_store. assumption.
    + assumption.
    + assumption.
    + unfold client1. simpl. assumption.
    + rewrite <- Hsplit. unfold client1. simpl inbox. simpl List.concat.
      rewrite <- app_assoc. reflexivity.
Qed.

(** C8. A complete packet that reaches an idle session (empty inbox) in
    any number of non-empty chunks, one per pass of the server loop, leaves
    the broker in the same state, with the same events (the same bytes
    sent, the same lines logged), as the packet arriving in one read. *)
Theorem fragmentation_invariance sendOk cfg k clients client packet offset chunks :
  NoDup (keys clients) ->
  map_find k clients = Some client ->
  0 <= k -> 0 <= fd client -> inbox client = [] ->
  completePacket packet offset ->
  List.concat chunks = packet ->
  Forall (fun chunk => chunk <> []) chunks ->
  feed sendOk cfg k chunks clients = tick sendOk cfg (recvOnly k packet) clients.
Proof.
  intros Hnodup Hfind Hk Hfd Hinbox Hcomplete Hconcat Hall.
  rewrite <- Hconcat.
  apply (feed_fragments sendOk cfg k packet offset chunks Hcomplete Hall)
    with (client := client); try assumption.
  - intros ->. simpl in Hconcat. subst packet.
    apply completePacket_size in Hcomplete. unfold size in Hcomplete.
    simpl in Hcomplete. lia.
  - rewrite Hinbox. assumption.
Qed.

Lemma fragmentation_invariance_witness :
  feed (fun _ _ => true) defaultConfig 5
    [[x82; x09; x00]; [x01; x00; x04; x74; x65; x73; x74; x00]] twoIdle
  = tick (fun _ _ => true) defaultConfig (recvOnly 5 subscribeTest) twoIdle.
Proof.
  apply (fragmentation_invariance (fun _ _ => true) defaultConfig 5 twoIdle
           {| fd := 5; clientId := "stm"; subscriptions := ["cmd/luz"]; inbox := [] |}
           subscribeTest 2).
  - repeat constructor; simpl; intuition discriminate.
  - reflexivity.
  - lia.
  - simpl. lia.
  - reflexivity.
  - exists 9. split; reflexivity.
  - reflexivity.
  - repeat constructor; discriminate.
Defined.

Example fragmented_subscribe_outcome :
  feed (fun _ _ => true) defaultConfig 5
    [[x82; x09; x00]; [x01; x00; x04; x74; x65; x73; x74; x00]] twoIdle
  = TickDone
      [(5, {| fd := 5; clientId := "stm"; subscriptions := ["cmd/luz"; "test"];
              inbox := [] |});
       (6, {| fd := 6; clientId := "rasp"; subscriptions := []; inbox := [] |})]
      [EvSend 5 [x90; x03; x00; x01; x00]].
Proof. vm_compute. reflexivity. Qed.

(** ** Buffer completeness *)

Lemma decode_success_size buf offset l :
  decodeRemainingLength buf 1 = Some (offset, l) -> 2 <= offset <= size buf.
Proof.
  intros Hdec.
  unfold decodeRemainingLength in Hdec.
  destruct (decode_loop _ 1 0 0) as [[c l0]|] eqn:Hd; [|discriminate].
  assert (Hoff : offset = 1 + c) by congruence.
  apply decode_loop_consumed in Hd. destruct Hd as [H1 [H2 _]].
  unfold size in *. rewrite length_skipn in H2.
  change (Z.to_nat 1) with 1%nat in H2. lia.
Qed.

Lemma noCompleteFrame_short inbox : size inbox < 2 -> noCompleteFrame inbox.
Proof.
  intros Hsz prefix rest offset rl Hsplit Hdec.
  apply decode_success_size in Hdec. subst inbox. rewrite size_app in *.
  pose proof (size_nonneg rest). lia.
Qed.

Lemma noCompleteFrame_undecodable inbox :
  decodeRemainingLength inbox 1 = None -> noCompleteFrame inbox.
Proof.
  intros Hnone prefix rest offset rl Hsplit Hdec.
  pose proof (decode_success_size _ _ _ Hdec).
  apply (decodeRemainingLength_app _ rest) in Hdec; [|lia].
  rewrite <- Hsplit in Hdec. congruence.
Qed.

Lemma noCompleteFrame_incomplete inbox offset l :
  decodeRemainingLength inbox 1 = Some (offset, l) ->
  size inbox < size_wrap (offset + l) ->
  noCompleteFrame inbox.
Proof.
  intros Hwhole Hlt prefix rest offset' rl Hsplit Hdec.
  pose proof (decode_success_size _ _ _ Hdec).
  pose proof (decodeRemainingLength_range _ _ _ _ Hdec) as [_ Hrl].
  apply (decodeRemainingLength_app _ rest) in Hdec; [|lia].
  rewrite <- Hsplit in Hdec. rewrite Hwhole in Hdec. injection Hdec as <- <-.
  unfold size_wrap in Hlt.
  pose proof (Z.mod_le (offset + l) (2 ^ 64) ltac:(lia) ltac:(lia)). lia.
Qed.

Lemma handlePacket_return sendOk cfg header offset packet client clients c ev :
  handlePacket sendOk cfg header offset packet client clients = (c, ev, Return) ->
  fd c = -1.
Proof.
  unfold handlePacket.
  destruct (Z.shiftr (u8 header) 4) as [|p|p]; try discriminate.
  do 4 (try destruct p as [p|p|]; try discriminate).
  intros [= <- _]. reflexivity.
Qed.

(** When [processPacket] returns, only the entry of key [k] has changed,
    and that session is either closed or left without a complete frame. *)
Lemma processPacket_returned sendOk cfg k :
  forall clients client clients' events,
    map_find k clients = Some client ->
    processPacket sendOk cfg k clients = Returned clients' events ->
    exists client',
      clients' = map_store k client' clients /\
      (fd client' < 0 \/ noCompleteFrame (inbox client')).
Proof.
  intros clients. remember (inboxLen k clients) as n eqn:Hn.
  revert clients Hn.
  induction n as [n IH] using lt_wf_ind.
  intros clients Hn client clients' events Hfind Hrun.
  rewrite processPacket_iter in Hrun.
  destruct (processStep sendOk cfg k clients) as [c1 e1|c1 e1|e1] eqn:Hstep;
    [| |discriminate].
  - (* the function returns in this iteration *)
    injection Hrun as <- <-.
    unfold processStep in Hstep. rewrite Hfind in Hstep.
    destruct (size (inbox client) <? 2) eqn:Hsz.
    { injection Hstep as <- _. exists client. split.
      - symmetry. apply map_store_same. assumption.
      - right. apply noCompleteFrame_short. apply Z.ltb_lt. assumption. }
    destruct (decodeRemainingLength (inbox client) 1) as [[offset rl]|] eqn:Hdec.
    2:{ injection Hstep as <- _. exists client. split.
        - symmetry. apply map_store_same. assumption.
        - right. apply noCompleteFrame_undecodable. assumption. }
    destruct (size (inbox client) <? size_wrap (offset + rl)) eqn:Hlt.
    { injection Hstep as <- _. exists client. split.
      - symmetry. apply map_store_same. assumption.
      - right. apply (noCompleteFrame_incomplete _ _ _ Hdec).
        apply Z.ltb_lt. assumption. }
    destruct (handlePacket _ _ _ _ _ _ _) as [[client2 ev] flow] eqn:Hhandle.
    destruct flow.
    + destruct (size_wrap (offset + rl) =? 0); discriminate.
    + injection Hstep as <- _. exists client2. split.
      * apply map_store_store.
      * left. apply handlePacket_return in Hhandle. lia.
  - (* the loop goes round again *)
    pose proof (processStep_next_shorter _ _ _ _ _ _ Hstep) as Hshorter.
    destruct (processPacket sendOk cfg k c1) as [c2 e2|] eqn:Hrest; [|discriminate].
    injection Hrun as <- <-.
    unfold processStep in Hstep. rewrite Hfind in Hstep.
    destruct (size (inbox client) <? 2); [discriminate|].
    destruct (decodeRemainingLength (inbox client) 1) as [[offset rl]|]; [|discriminate].
    destruct (size (inbox client) <? size_wrap (offset + rl)); [discriminate|].
    destruct (handlePacket _ _ _ _ _ _ _) as [[client2 ev] flow].
    destruct flow; [|discriminate].
    destruct (size_wrap (offset + rl) =? 0); [discriminate|].
    injection Hstep as <- _.
    assert (Hfind2 : map_find k
              (map_store k client2
                 (map_store k
                    (set_inbox (skipn (Z.to_nat (size_wrap (offset + rl))) (inbox client))
                       client) clients)) = Some client2).
    { apply map_find_store. rewrite map_find_store; congruence. }
    subst n.
    destruct (IH _ Hshorter _ eq_refl _ _ _ Hfind2 Hrest) as [client' [Heq Hinv]].
    exists client'. split; [|assumption].
    rewrite Heq, !map_store_store. reflexivity.
Qed.

Lemma processPacket_absent sendOk cfg k clients :
  map_find k clients = None ->
  processPacket sendOk cfg k clients = Returned clients [].
Proof.
  intros Hfind. rewrite processPacket_iter. unfold processStep.
  rewrite Hfind. reflexivity.
Qed.

Lemma Forall_map_store (Q : Z * ClientSession -> Prop) k v m :
  Forall Q m -> Q (k, v) -> Forall Q (map_store k v m).
Proof.
  intros Hall Hq. induction Hall as [|[k0 v0] rest Hhd Htl IH]; simpl; [constructor|].
  destruct (k0 =? k) eqn:Hk.
  - apply Z.eqb_eq in Hk. subst k0. constructor; assumption.
  - constructor; assumption.
Qed.

Lemma Forall_map_assign (Q : Z * ClientSession -> Prop) k v m :
  Forall Q m -> Q (k, v) -> Forall Q (map_assign k v m).
Proof.
  intros Hall Hq. induction Hall as [|[k0 v0] rest Hhd Htl IH]; simpl.
  - constructor; [assumption|constructor].
  - destruct (k <? k0); [constructor; [assumption|constructor; assumption]|].
    destruct (k =? k0); constructor; assumption.
Qed.

Lemma In_eraseAll pair toRemove m :
  In pair (eraseAll toRemove m) -> In pair m /\ ~ In (fst pair) toRemove.
Proof.
  unfold eraseAll. revert m.
  induction toRemove as [|fd rest IH]; intros m Hin; simpl in *; [tauto|].
  apply IH in Hin. destruct Hin as [Hin Hnot].
  unfold map_erase in Hin. apply filter_In in Hin. destruct Hin as [Hin Hne].
  apply negb_true_iff, Z.eqb_neq in Hne.
  split; [assumption|]. intros [->|H]; [congruence|contradiction].
Qed.

Lemma settled_more toRemove fd clients :
  Forall (settled toRemove) clients -> Forall (settled (toRemove ++ [fd])) clients.
Proof.
  apply Forall_impl. intros pair [H|H]; [left|right; assumption].
  apply in_or_app. left. assumption.
Qed.

Lemma readLoop_settled sendOk cfg readfds recv todo :
  forall clients toRemove clients' toRemove' events,
    Forall (settled toRemove) clients ->
    readLoop sendOk cfg readfds recv todo clients toRemove
      = ReadDone clients' toRemove' events ->
    Forall (settled toRemove') clients'.
Proof.
  induction todo as [|sock rest IH]; intros clients toRemove clients' toRemove' events
    Hall Hrun; simpl in Hrun.
  - injection Hrun as <- <- _. assumption.
  - destruct (existsb (Z.eqb sock) readfds); [|eapply IH; eassumption].
    destruct (recv sock) as [[|b data]|]; [| |eapply IH; eassumption].
    + (* recv returned nothing: the session goes to toRemove *)
      destruct (readLoop sendOk cfg readfds recv rest clients (toRemove ++ [sock]))
        as [c2 t2 e2|] eqn:Hrest; [|discriminate].
      injection Hrun as <- <- _.
      eapply IH; [|eassumption]. apply settled_more. assumption.
    + destruct (processPacket sendOk cfg sock (appendInbox sock (b :: data) clients))
        as [c1 e1|] eqn:Hproc; [|discriminate].
      destruct (readLoop sendOk cfg readfds recv rest c1 _)
        as [c2 t2 e2|] eqn:Hrest; [|discriminate].
      injection Hrun as <- <- _.
      eapply IH; [|eassumption].
      unfold appendInbox in Hproc.
      destruct (map_find sock clients) as [client|] eqn:Hfind.
      * assert (Hfind1 : map_find sock
                  (map_store sock (set_inbox (inbox client ++ b :: data) client) clients)
                  = Some (set_inbox (inbox client ++ b :: data) client))
          by (apply map_find_store; congruence).
        destruct (processPacket_returned _ _ _ _ _ _ _ Hfind1 Hproc)
          as [client' [-> Hinv]].
        rewrite map_store_store.
        unfold closedByBroker. rewrite map_find_store by congruence.
        destruct (fd client' <? 0) eqn:Hclosed.
        -- apply Forall_map_store; [apply settled_more; assumption|].
           left. simpl. apply in_or_app. right. left. reflexivity.
        -- apply Forall_map_store; [assumption|].
           right. simpl. apply Z.ltb_ge in Hclosed.
           destruct Hinv as [Hneg|Hinv]; [lia|assumption].
      * rewrite (processPacket_absent _ _ _ _ Hfind) in Hproc.
        injection Hproc as <- _.
        unfold closedByBroker. rewrite Hfind. assumption.
Qed.

Lemma tick_keeps_inboxes_incomplete sendOk cfg input clients clients' events :
  Forall (fun pair => noCompleteFrame (inbox (snd pair))) clients ->
  tick sendOk cfg input clients = TickDone clients' events ->
  Forall (fun pair => noCompleteFrame (inbox (snd pair))) clients'.
Proof.
  intros Hall Hrun. unfold tick in Hrun.
  destruct (acceptStep cfg (accepted input) clients) as [clients1 ev1] eqn:Haccept.
  assert (Hall1 : Forall (settled []) clients1).
  { unfold acceptStep in Haccept.
    assert (Hall0 : Forall (settled []) clients)
      by (revert Hall; apply Forall_impl; intros pair H; right; assumption).
    destruct (accepted input) as [newFd|]; [|injection Haccept as <- _; assumption].
    destruct (newFd >=? 0); [|injection Haccept as <- _; assumption].
    destruct (size clients >=? maxClients cfg); injection Haccept as <- _;
      [assumption|].
    apply Forall_map_assign; [assumption|].
    right. simpl. apply noCompleteFrame_short. unfold size. simpl. lia. }
  destruct (readLoop _ _ _ _ _ _ _) as [clients2 toRemove ev2|] eqn:Hread;
    [|discriminate].
  injection Hrun as <- _.
  pose proof (readLoop_settled _ _ _ _ _ _ _ _ _ _ Hall1 Hread) as Hall2.
  apply Forall_forall. intros pair Hin.
  apply In_eraseAll in Hin. destruct Hin as [Hin Hnot].
  rewrite Forall_forall in Hall2. destruct (Hall2 pair Hin); [contradiction|assumption].
Qed.

(** C9. In every session table the server reaches, pass after pass, every
    session that is still there holds no complete frame: for any prefix
    of its inbox whose fixed header and Remaining Length decode, the inbox
    has fewer than [header_size + remaining_length] bytes. *)
Theorem buffer_completeness sendOk cfg clients k client :
  reachable sendOk cfg clients ->
  In (k, client) clients ->
  noCompleteFrame (inbox client).
Proof.
  intros Hreach Hin.
  assert (Hall : Forall (fun pair => noCompleteFrame (inbox (snd pair))) clients).
  { clear Hin. induction Hreach as [|clients0 input clients1 events Hreach IH Htick].
    - constructor.
    - eapply tick_keeps_inboxes_incomplete; eassumption. }
  rewrite Forall_forall in Hall. exact (Hall (k, client) Hin).
Qed.

(** A pass that accepts socket 5, then a pass in which it sends a PINGREQ
    and the first three bytes of the SUBSCRIBE of scenario S2. *)
Lemma buffer_completeness_witness :
  noCompleteFrame [x82; x09; x00].
Proof.
  apply (buffer_completeness (fun _ _ => true) defaultConfig
           [(5, {| fd := 5; clientId := "?"; subscriptions := [];
                   inbox := [x82; x09; x00] |})]
           5
           {| fd := 5; clientId := "?"; subscriptions := [];
              inbox := [x82; x09; x00] |}).
  - apply (reachable_tick _ _
             [(5, newSession 5)] (recvOnly 5 [xc0; x00; x82; x09; x00]) _
             [EvLog "[ping] from ?"; EvSend 5 [xd0; x00]]).
    + apply (reachable_tick _ _ []
               {| accepted := Some 5; received := fun _ => None |} _
               [EvLog "[accept] fd=5"]).
      * apply reachable_start.
      * vm_compute. reflexivity.
    + vm_compute. reflexivity.
  - simpl. left. reflexivity.
Defined.

(** ** The session tables the server reaches are well formed

    The hypotheses of the statements above on the table (no key twice,
    every session stored under its own open socket) hold in every table
    the server loop reaches. *)

Lemma keys_map_assign x k v m :
  In x (keys (map_assign k v m)) -> x = k \/ In x (keys m).
Proof.
  unfold keys. induction m as [|[k0 v0] rest IH]; simpl.
  - intros [<-|[]]. left. reflexivity.
  - destruct (k <? k0); [simpl; intuition auto|].
    destruct (k =? k0) eqn:Hk; simpl.
    + apply Z.eqb_eq in Hk. subst k0. intuition auto.
    + intros [<-|H]; [right; left; reflexivity|]. apply IH in H. intuition auto.
Qed.

Lemma sorted_map_assign k v m :
  StronglySorted Z.lt (keys m) -> StronglySorted Z.lt (keys (map_assign k v m)).
Proof.
  unfold keys. induction m as [|[k0 v0] rest IH]; simpl; intros Hs.
  - constructor; constructor.
  - inversion Hs as [|? ? Hrest Hall]; subst.
    destruct (k <? k0) eqn:Hlt.
    + apply Z.ltb_lt in Hlt. simpl. constructor; [assumption|].
      constructor; [assumption|].
      revert Hall. apply Forall_impl. intros; lia.
    + apply Z.ltb_ge in Hlt. destruct (k =? k0) eqn:Hk; simpl.
      * apply Z.eqb_eq in Hk. subst k0. constructor; assumption.
      * apply Z.eqb_neq in Hk. constructor; [apply IH; assumption|].
        apply Forall_forall. intros x Hx.
        apply (keys_map_assign x k v rest) in Hx. destruct Hx as [->|Hx]; [lia|].
        rewrite Forall_forall in Hall. apply Hall. assumption.
Qed.

Lemma sorted_NoDup l : StronglySorted Z.lt l -> NoDup l.
Proof.
  induction 1 as [|a l Hs IH Hall]; constructor; [|assumption].
  intros Hin. rewrite Forall_forall in Hall. specialize (Hall a Hin). lia.
Qed.

Lemma sorted_filter (f : Z * ClientSession -> bool) m :
  StronglySorted Z.lt (keys m) -> StronglySorted Z.lt (keys (filter f m)).
Proof.
  unfold keys. induction m as [|[k0 v0] rest IH]; simpl; intros Hs; [constructor|].
  inversion Hs as [|? ? Hrest Hall]; subst.
  destruct (f (k0, v0)); simpl; [|apply IH; assumption].
  constructor; [apply IH; assumption|].
  apply Forall_forall. intros x Hx. rewrite Forall_forall in Hall. apply Hall.
  apply in_map_iff in Hx. destruct Hx as [pair [<- Hin]].
  apply filter_In in Hin. apply in_map. tauto.
Qed.

Lemma sorted_eraseAll toRemove m :
  StronglySorted Z.lt (keys m) -> StronglySorted Z.lt (keys (eraseAll toRemove m)).
Proof.
  unfold eraseAll. revert m. induction toRemove as [|sock rest IH]; intros m Hs; simpl;
    [assumption|].
  apply IH. apply sorted_filter. assumption.
Qed.

Lemma subscribeLoop_clientId cfg packet pos client :
  clientId (fst (subscribeLoop cfg packet pos client)) = clientId client.
Proof.
  funelim (subscribeLoop cfg packet pos client); try reflexivity.
  simpl. rewrite H. reflexivity.
Qed.

Lemma handlePacket_break_fd sendOk cfg header offset packet client clients c ev :
  handlePacket sendOk cfg header offset packet client clients = (c, ev, Break) ->
  fd c = fd client.
Proof.
  unfold handlePacket.
  destruct (Z.shiftr (u8 header) 4) as [|p|p]; try (intros [= <- _]; reflexivity).
  do 4 (try destruct p as [p|p|]; try (intros [= <- _]; reflexivity)).
  - unfold handleSubscribe. destruct (offset + 2 >? size packet);
      intros [= <- _]; [reflexivity|]. simpl. apply subscribeLoop_fd.
  - unfold handleConnect.
    repeat match goal with
           | |- context [if ?b then (client, _) else _] =>
               destruct b; [intros [= <- _]; reflexivity|]
           end.
    intros [= <- _]. reflexivity.
Qed.

(** [processPacket] leaves the session's socket as it was or, on
    DISCONNECT, sets it to -1. *)
Lemma processPacket_fd sendOk cfg k :
  forall clients client clients' events client',
    map_find k clients = Some client ->
    processPacket sendOk cfg k clients = Returned clients' events ->
    map_find k clients' = Some client' ->
    fd client' = fd client \/ fd client' = -1.
Proof.
  intros clients. remember (inboxLen k clients) as n eqn:Hn.
  revert clients Hn.
  induction n as [n IH] using lt_wf_ind.
  intros clients Hn client clients' events client' Hfind Hrun Hfind'.
  rewrite processPacket_iter in Hrun.
  destruct (processStep sendOk cfg k clients) as [c1 e1|c1 e1|e1] eqn:Hstep;
    [| |discriminate].
  - injection Hrun as <- <-.
    unfold processStep in Hstep. rewrite Hfind in Hstep.
    destruct (size (inbox client) <? 2);
      [injection Hstep as <- _; left; congruence|].
    destruct (decodeRemainingLength (inbox client) 1) as [[offset rl]|];
      [|injection Hstep as <- _; left; congruence].
    destruct (size (inbox client) <? size_wrap (offset + rl));
      [injection Hstep as <- _; left; congruence|].
    destruct (handlePacket _ _ _ _ _ _ _) as [[client2 ev] flow] eqn:Hhandle.
    destruct flow; [destruct (size_wrap (offset + rl) =? 0); discriminate|].
    injection Hstep as <- _.
    rewrite map_find_store in Hfind' by (rewrite map_find_store; congruence).
    injection Hfind' as <-. right. eapply handlePacket_return. eassumption.
  - pose proof (processStep_next_shorter _ _ _ _ _ _ Hstep) as Hshorter.
    destruct (processPacket sendOk cfg k c1) as [c2 e2|] eqn:Hrest; [|discriminate].
    injection Hrun as <- <-.
    unfold processStep in Hstep. rewrite Hfind in Hstep.
    destruct (size (inbox client) <? 2); [discriminate|].
    destruct (decodeRemainingLength (inbox client) 1) as [[offset rl]|]; [|discriminate].
    destruct (size (inbox client) <? size_wrap (offset + rl)); [discriminate|].
    destruct (handlePacket _ _ _ _ _ _ _) as [[client2 ev] flow] eqn:Hhandle.
    destruct flow; [|discriminate].
    destruct (size_wrap (offset + rl) =? 0); [discriminate|].
    injection Hstep as <- _.
    apply handlePacket_break_fd in Hhandle. simpl in Hhandle.
    assert (Hfind2 : map_find k
              (map_store k client2
                 (map_store k
                    (set_inbox (skipn (Z.to_nat (size_wrap (offset + rl))) (inbox client))
                       client) clients)) = Some client2).
    { apply map_find_store. rewrite map_find_store; congruence. }
    subst n.
    destruct (IH _ Hshorter _ eq_refl _ _ _ _ Hfind2 Hrest Hfind') as [H|H];
      [left; congruence|right; assumption].
Qed.

Lemma inOrder_more toRemove sock clients :
  Forall (inOrder toRemove) clients -> Forall (inOrder (toRemove ++ [sock])) clients.
Proof.
  apply Forall_impl. intros pair [H0 [H|H]]; (split; [assumption|]);
    [left; apply in_or_app; left; assumption|right; assumption].
Qed.

Lemma readLoop_inOrder sendOk cfg readfds recv todo :
  forall clients toRemove clients' toRemove' events,
    Forall (inOrder toRemove) clients ->
    readLoop sendOk cfg readfds recv todo clients toRemove
      = ReadDone clients' toRemove' events ->
    Forall (inOrder toRemove') clients' /\ keys clients' = keys clients.
Proof.
  induction todo as [|sock rest IH]; intros clients toRemove clients' toRemove' events
    Hall Hrun; simpl in Hrun.
  - injection Hrun as <- <- _. split; [assumption|reflexivity].
  - destruct (existsb (Z.eqb sock) readfds); [|eapply IH; eassumption].
    destruct (recv sock) as [[|b data]|]; [| |eapply IH; eassumption].
    + destruct (readLoop sendOk cfg readfds recv rest clients (toRemove ++ [sock]))
        as [c2 t2 e2|] eqn:Hrest; [|discriminate].
      injection Hrun as <- <- _.
      eapply IH; [|eassumption]. apply inOrder_more. assumption.
    + destruct (processPacket sendOk cfg sock (appendInbox sock (b :: data) clients))
        as [c1 e1|] eqn:Hproc; [|discriminate].
      destruct (readLoop sendOk cfg readfds recv rest c1 _)
        as [c2 t2 e2|] eqn:Hrest; [|discriminate].
      injection Hrun as <- <- _.
      unfold appendInbox in Hproc.
      destruct (map_find sock clients) as [client|] eqn:Hfind.
      * assert (Hfind1 : map_find sock
                  (map_store sock (set_inbox (inbox client ++ b :: data) client) clients)
                  = Some (set_inbox (inbox client ++ b :: data) client))
          by (apply map_find_store; congruence).
        destruct (processPacket_returned _ _ _ _ _ _ _ Hfind1 Hproc)
          as [client' [Heq _]].
        rewrite map_store_store in Heq.
        assert (Hfind' : map_find sock c1 = Some client')
          by (rewrite Heq; apply map_find_store; congruence).
        pose proof (processPacket_fd _ _ _ _ _ _ _ _ Hfind1 Hproc Hfind') as Hfd.
        simpl in Hfd.
        assert (Hkeys : keys c1 = keys clients) by (rewrite Heq; apply keys_store).
        assert (Hsock : inOrder toRemove (sock, client)).
        { rewrite Forall_forall in Hall. apply Hall.
          clear - Hfind. induction clients as [|[k0 v0] tl IHc]; simpl in *; [discriminate|].
          destruct (k0 =? sock) eqn:Hk.
          - apply Z.eqb_eq in Hk. injection Hfind as ->. left. congruence.
          - right. apply IHc. assumption. }
        destruct Hsock as [Hnonneg Hsock]. simpl in Hnonneg, Hsock.
        assert (Hall1 : Forall
                  (inOrder (if closedByBroker sock c1
                            then (toRemove ++ [sock])%list else toRemove)) c1).
        { unfold closedByBroker. rewrite Hfind'. rewrite Heq.
          destruct (fd client' <? 0) eqn:Hclosed.
          - apply Forall_map_store; [apply inOrder_more; assumption|].
            split; [assumption|]. left. simpl. apply in_or_app. right. left. reflexivity.
          - apply Forall_map_store; [assumption|].
            split; [assumption|]. simpl. apply Z.ltb_ge in Hclosed.
            destruct Hsock as [Hin|Heqfd]; [left; assumption|right].
            destruct Hfd as [Hfd|Hfd]; [congruence|lia]. }
        destruct (IH c1 _ _ _ _ Hall1 Hrest) as [Hres Hk2].
        split; [assumption|congruence].
      * rewrite (processPacket_absent _ _ _ _ Hfind) in Hproc.
        injection Hproc as <- _.
        unfold closedByBroker in Hrest. rewrite Hfind in Hrest.
        eapply IH; eassumption.
Qed.

Theorem reachable_wellFormed sendOk cfg clients :
  reachable sendOk cfg clients -> wellFormed clients.
Proof.
  induction 1 as [|clients input clients' events Hreach [Hsorted Hall] Htick].
  - split; constructor.
  - unfold tick in Htick.
    destruct (acceptStep cfg (accepted input) clients) as [clients1 ev1] eqn:Haccept.
    assert (Hwf1 : StronglySorted Z.lt (keys clients1) /\ Forall (inOrder []) clients1).
    { assert (Hall0 : Forall (inOrder []) clients).
      { revert Hall. apply Forall_impl. intros pair [H1 H2]. split; [assumption|].
        right. assumption. }
      unfold acceptStep in Haccept.
      destruct (accepted input) as [newFd|]; [|injection Haccept as <- _; tauto].
      destruct (newFd >=? 0) eqn:Hnew; [|injection Haccept as <- _; tauto].
      destruct (size clients >=? maxClients cfg); injection Haccept as <- _; [tauto|].
      split; [apply sorted_map_assign; assumption|].
      apply Forall_map_assign; [assumption|].
      split; [simpl; apply Z.geb_le in Hnew; lia|right; reflexivity]. }
    destruct Hwf1 as [Hsorted1 Hall1].
    destruct (readLoop _ _ _ _ _ _ _) as [clients2 toRemove ev2|] eqn:Hread;
      [|discriminate].
    injection Htick as <- _.
    destruct (readLoop_inOrder _ _ _ _ _ _ _ _ _ _ Hall1 Hread) as [Hall2 Hkeys].
    split.
    + apply sorted_eraseAll. rewrite Hkeys. assumption.
    + apply Forall_forall. intros pair Hin.
      apply In_eraseAll in Hin. destruct Hin as [Hin Hnot].
      rewrite Forall_forall in Hall2. destruct (Hall2 pair Hin) as [H0 [H1|H1]];
        [contradiction|split; assumption].
Qed.

Corollary reachable_keys_NoDup sendOk cfg clients :
  reachable sendOk cfg clients -> NoDup (keys clients).
Proof.
  intros H. apply sorted_NoDup. apply (reachable_wellFormed _ _ _ H).
Qed.

(** ** When [processPacket] does not return

    The loop can only hang on an iteration whose [totalPacketLength] is 0,
    and that takes a five-byte Remaining Length whose fifth byte overflows
    the [int] product [(encoded & 127) * multiplier]: the sum
    [offset + remainingLength] then wraps to 0 in [size_t]. *)

Lemma spin_only_on_wrapped_length sendOk cfg k clients events :
  processStep sendOk cfg k clients = StepSpin events ->
  exists client offset remainingLength,
    map_find k clients = Some client /\
    decodeRemainingLength (inbox client) 1 = Some (offset, remainingLength) /\
    offset = 6 /\ 268435455 < remainingLength.
Proof.
  unfold processStep.
  destruct (map_find k clients) as [client|] eqn:Hfind; [|discriminate].
  destruct (size (inbox client) <? 2); [discriminate|].
  destruct (decodeRemainingLength (inbox client) 1) as [[offset rl]|] eqn:Hdec;
    [|discriminate].
  destruct (size (inbox client) <? size_wrap (offset + rl)); [discriminate|].
  destruct (handlePacket _ _ _ _ _ _ _) as [[client2 ev] flow].
  destruct flow; [|discriminate].
  destruct (size_wrap (offset + rl) =? 0) eqn:Hzero; [|discriminate].
  intros _. exists client, offset, rl. split; [reflexivity|]. split; [assumption|].
  apply Z.eqb_eq in Hzero. unfold size_wrap in Hzero.
  pose proof (decodeRemainingLength_range _ _ _ _ Hdec) as [Hoff Hrl].
  assert (Hsum : offset + rl = 2 ^ 64).
  { apply Z.mod_divide in Hzero; [|lia]. destruct Hzero as [q Hq].
    assert (q = 1) by nia. subst q. lia. }
  assert (Hlong : 268435455 < rl) by lia.
  split; [|assumption].
  destruct (Z_le_gt_dec (offset - 1) 4) as [Hshort|Hfive]; [|lia].
  pose proof (decode_short_bound _ _ _ _ Hdec Hshort). lia.
Qed.

Example wrapped_length_spins :
  processPacket (fun _ _ => true) defaultConfig 5
    [(5, {| fd := 5; clientId := "stm"; subscriptions := [];
            inbox := [xc0; xfa; xff; xff; xff; x0f] |})]
  = Diverges [] [EvLog "[ping] from stm"; EvSend 5 [xd0; x00]].
Proof. vm_compute. reflexivity. Qed.

(** Four bytes in a row with the continuation bit set, somewhere in the
    input; without them no Remaining Length takes a fifth byte. *)
Fixpoint fourContinuations (bytes : list byte) : bool :=
  match bytes with
  | [] => false
  | b1 :: rest =>
      (negb (Z.land (u8 b1) 128 =? 0)
       && match rest with
          | b2 :: b3 :: b4 :: _ =>
              negb (Z.land (u8 b2) 128 =? 0)
              && negb (Z.land (u8 b3) 128 =? 0)
              && negb (Z.land (u8 b4) 128 =? 0)
          | _ => false
          end)
      || fourContinuations rest
  end.

Lemma fourContinuations_skipn n bytes :
  fourContinuations (skipn n bytes) = true -> fourContinuations bytes = true.
Proof.
  revert bytes. induction n as [|n IH]; intros bytes; [simpl; auto|].
  destruct bytes as [|b rest]; [simpl; auto|].
  intros H. apply IH in H. simpl skipn in *.
  change (fourContinuations (b :: rest)) with
    ((negb (Z.land (u8 b) 128 =? 0)
      && match rest with
         | b2 :: b3 :: b4 :: _ =>
             negb (Z.land (u8 b2) 128 =? 0)
             && negb (Z.land (u8 b3) 128 =? 0)
             && negb (Z.land (u8 b4) 128 =? 0)
         | _ => false
         end)
     || fourContinuations rest).
  rewrite H. apply orb_true_r.
Qed.

Lemma five_bytes_need_four_continuations bytes l :
  decode_loop bytes 1 0 0 = Some (5, l) -> fourContinuations bytes = true.
Proof.
  destruct bytes as [|b1 [|b2 [|b3 [|b4 rest]]]]; cbn [decode_loop fourContinuations];
    repeat match goal with
           | |- context [Z.land (u8 ?b) 128 =? 0] =>
               destruct (Z.land (u8 b) 128 =? 0); cbn [negb andb orb]
           end;
    try discriminate; try reflexivity;
    intros [= H _]; vm_compute in H; discriminate.
Qed.

(** A session whose inbox never has four continuation bytes in a row is
    always served: [processPacket] returns. *)
Lemma processPacket_returns sendOk cfg k :
  forall clients client,
    map_find k clients = Some client ->
    fourContinuations (inbox client) = false ->
    exists clients' events,
      processPacket sendOk cfg k clients = Returned clients' events.
Proof.
  intros clients. remember (inboxLen k clients) as n eqn:Hn.
  revert clients Hn.
  induction n as [n IH] using lt_wf_ind.
  intros clients Hn client Hfind Hrun.
  rewrite processPacket_iter.
  destruct (processStep sendOk cfg k clients) as [c1 e1|c1 e1|e1] eqn:Hstep.
  - eexists. eexists. reflexivity.
  - pose proof (processStep_next_shorter _ _ _ _ _ _ Hstep) as Hshorter.
    unfold processStep in Hstep. rewrite Hfind in Hstep.
    destruct (size (inbox client) <? 2); [discriminate|].
    destruct (decodeRemainingLength (inbox client) 1) as [[offset rl]|]; [|discriminate].
    destruct (size (inbox client) <? size_wrap (offset + rl)); [discriminate|].
    pose proof (handlePacket_inbox sendOk cfg (at_ (inbox client) 0) offset
      (firstn (Z.to_nat (size_wrap (offset + rl))) (inbox client))
      (set_inbox (skipn (Z.to_nat (size_wrap (offset + rl))) (inbox client)) client)
      (map_store k
         (set_inbox (skipn (Z.to_nat (size_wrap (offset + rl))) (inbox client)) client)
         clients)) as Hin.
    destruct (handlePacket _ _ _ _ _ _ _) as [[client2 ev] flow].
    destruct flow; [|discriminate].
    destruct (size_wrap (offset + rl) =? 0); [discriminate|].
    injection Hstep as <- _.
    assert (Hfind2 : map_find k
              (map_store k client2
                 (map_store k
                    (set_inbox (skipn (Z.to_nat (size_wrap (offset + rl))) (inbox client))
                       client) clients)) = Some client2).
    { apply map_find_store. rewrite map_find_store; congruence. }
    subst n.
    destruct (IH _ Hshorter _ eq_refl client2 Hfind2) as [clients' [events Hrest]].
    + simpl in Hin. rewrite Hin.
      destruct (fourContinuations (skipn _ (inbox client))) eqn:Hfour; [|reflexivity].
      apply fourContinuations_skipn in Hfour. congruence.
    + rewrite Hrest. simpl. eexists. eexists. reflexivity.
  - exfalso.
    destruct (spin_only_on_wrapped_length _ _ _ _ _ Hstep)
      as [client0 [offset [rl [Hfind0 [Hdec [Hoff _]]]]]].
    rewrite Hfind in Hfind0. injection Hfind0 as <-. subst offset.
    unfold decodeRemainingLength in Hdec.
    destruct (decode_loop _ 1 0 0) as [[c l]|] eqn:Hd; [|discriminate].
    assert (Hc : 1 + c = 6) by congruence.
    assert (c = 5) by lia. subst c.
    apply five_bytes_need_four_continuations in Hd.
    apply fourContinuations_skipn in Hd. congruence.
Qed.

(** ** The end-to-end scenarios, run *)

(** S1: CONNECT with an empty client identifier; the session keeps the
    placeholder "?" and gets CONNACK [20 02 00 00]. *)
Example scenario_connect :
  tick (fun _ _ => true) defaultConfig
    (recvOnly 5 [x10; x0c; x00; x04; x4d; x51; x54; x54; x04; x02; x00; x3c; x00; x00])
    [(5, newSession 5)]
  = TickDone [(5, newSession 5)]
      [EvLog "[connect] clientId=?"; EvSend 5 [x20; x02; x00; x00]].
Proof. vm_compute. reflexivity. Qed.

(** S2: the subscriber 5 receives the PUBLISH of session 6 byte for byte,
    and session 6, subscribed as well, receives nothing. *)
Example scenario_fan_out :
  processPacket (fun _ _ => true) defaultConfig 6 twoSubscribers
  = Returned
      [(5, {| fd := 5; clientId := "sub"; subscriptions := ["test"]; inbox := [] |});
       (6, {| fd := 6; clientId := "pub"; subscriptions := ["test"]; inbox := [] |})]
      [EvLog "[publish] from=pub topic='test' payload='hello'";
       EvSend 5 publishQoS0;
       EvLog "Forwarded to sub on topic 'test'"].
Proof. vm_compute. reflexivity. Qed.

(** S4: PINGREQ is answered with PINGRESP. *)
Example scenario_ping :
  tick (fun _ _ => true) defaultConfig (recvOnly 6 [xc0; x00]) twoIdle
  = TickDone twoIdle [EvLog "[ping] from rasp"; EvSend 6 [xd0; x00]].
Proof. vm_compute. reflexivity. Qed.

Local Close Scope string_scope.

(** * Further properties of the broker

    ** The Remaining Length codec, in general *)

Lemma encode_size_by_range (n : Z) :
  (0 <= n < 128 -> size (encodeRemainingLength n) = 1) /\
  (128 <= n < 16384 -> size (encodeRemainingLength n) = 2) /\
  (16384 <= n < 2097152 -> size (encodeRemainingLength n) = 3) /\
  (2097152 <= n < 268435456 -> size (encodeRemainingLength n) = 4).
Proof.
  assert (H1 : forall m, 0 <= m < 128 -> size (encodeRemainingLength m) = 1).
  { intros m Hm. rewrite encodeRemainingLength_unfold.
    rewrite (Z.div_small m 128) by lia. reflexivity. }
  assert (Hstep : forall m s, 128 <= m ->
            size (encodeRemainingLength (m / 128)) = s ->
            size (encodeRemainingLength m) = 1 + s).
  { intros m s Hm Hs. rewrite encodeRemainingLength_unfold.
    assert (1 <= m / 128) by (apply Z.div_le_lower_bound; lia).
    replace (0 <? m / 128) with true by (symmetry; apply Z.ltb_lt; lia).
    rewrite size_cons, Hs. reflexivity. }
  assert (H2 : forall m, 128 <= m < 16384 -> size (encodeRemainingLength m) = 2).
  { intros m Hm. apply (Hstep m 1); [lia|]. apply H1. split.
    - apply Z.div_pos; lia.
    - apply Z.div_lt_upper_bound; lia. }
  assert (H3 : forall m, 16384 <= m < 2097152 -> size (encodeRemainingLength m) = 3).
  { intros m Hm. apply (Hstep m 2); [lia|]. apply H2. split.
    - apply Z.div_le_lower_bound; lia.
    - apply Z.div_lt_upper_bound; lia. }
  repeat split; auto.
  intros Hn. apply (Hstep n 3); [lia|]. apply H3. split.
  - apply Z.div_le_lower_bound; lia.
  - apply Z.div_lt_upper_bound; lia.
Qed.

(** X1. Every length of the MQTT range, 0 to 268435455, survives the
    round trip: its encoding has between one and four bytes, and decoding
    at the position where the encoding starts gives the length back and
    stops right behind the encoding, whatever bytes come before and
    after. *)
Theorem remaining_length_round_trip_in_range (n : Z) (pre suf : list byte) :
  0 <= n <= 268435455 ->
  1 <= size (encodeRemainingLength n) <= 4 /\
  decodeRemainingLength (pre ++ encodeRemainingLength n ++ suf) (size pre) =
  Some (size pre + size (encodeRemainingLength n), n).
Proof.
  intros Hn. split; [|apply decode_encode; assumption].
  destruct (encode_size_by_range n) as [H1 [H2 [H3 H4]]].
  destruct (Z_lt_le_dec n 128); [rewrite H1; lia|].
  destruct (Z_lt_le_dec n 16384); [rewrite H2; lia|].
  destruct (Z_lt_le_dec n 2097152); [rewrite H3; lia|].
  rewrite H4; lia.
Qed.

Lemma remaining_length_round_trip_in_range_witness :
  1 <= size (encodeRemainingLength 321) <= 4 /\
  decodeRemainingLength ([x30] ++ encodeRemainingLength 321 ++ [x00; x04]) (size [x30]) =
  Some (size [x30] + size (encodeRemainingLength 321), 321).
Proof.
  apply (remaining_length_round_trip_in_range 321 [x30] [x00; x04]). lia.
Defined.

(** X2. The encoder writes a well-formed variable-length integer: every
    byte but the last carries the continuation bit and the last one does
    not; and it is the shortest one: one byte below 128, two below 16384,
    three below 2097152, four below 268435456. *)
Theorem encoding_is_well_formed_and_shortest (n : Z) :
  0 <= n ->
  (exists body last,
     encodeRemainingLength n = body ++ [last] /\
     Forall (fun b => Z.land (u8 b) 128 <> 0) body /\
     Z.land (u8 last) 128 = 0) /\
  (n < 128 -> size (encodeRemainingLength n) = 1) /\
  (128 <= n < 16384 -> size (encodeRemainingLength n) = 2) /\
  (16384 <= n < 2097152 -> size (encodeRemainingLength n) = 3) /\
  (2097152 <= n < 268435456 -> size (encodeRemainingLength n) = 4).
Proof.
  intros Hn. split.
  - induction n as [n IH] using (well_founded_induction (Z.lt_wf 0)).
    pose proof (Z.mod_pos_bound n 128 ltac:(lia)) as Hmod.
    rewrite encodeRemainingLength_unfold.
    destruct (0 <? n / 128) eqn:Hq.
    + apply Z.ltb_lt in Hq.
      assert (128 <= n)
        by (destruct (Z_lt_le_dec n 128); [rewrite Z.div_small in Hq; lia|assumption]).
      assert (Hlt : 0 <= n / 128 < n) by (split; [lia|apply Z.div_lt; lia]).
      destruct (IH (n / 128) Hlt ltac:(lia)) as [body [last [Heq [Hbody Hlast]]]].
      exists (to_u8 (Z.lor (n mod 128) 128) :: body), last.
      rewrite Heq. split; [reflexivity|]. split; [|assumption].
      constructor; [|assumption].
      apply (continuation_byte (n mod 128) Hmod).
    + exists [], (to_u8 (n mod 128)). split; [reflexivity|].
      split; [constructor|]. apply (final_byte (n mod 128) Hmod).
  - destruct (encode_size_by_range n) as [H1 [H2 [H3 H4]]].
    repeat split; auto; intros Hlt; apply H1; lia.
Qed.

Lemma encoding_is_well_formed_and_shortest_witness :
  (exists body last,
     encodeRemainingLength 16384 = body ++ [last] /\
     Forall (fun b => Z.land (u8 b) 128 <> 0) body /\
     Z.land (u8 last) 128 = 0) /\
  size (encodeRemainingLength 16384) = 3.
Proof.
  destruct (encoding_is_well_formed_and_shortest 16384 ltac:(lia))
    as [Hshape [_ [_ [H3 _]]]].
  split; [exact Hshape|]. apply H3. lia.
Defined.

Lemma decode_loop_firstn bytes m len c c' l :
  decode_loop bytes m len c = Some (c', l) ->
  decode_loop (firstn (Z.to_nat (c' - c)) bytes) m len c = Some (c', l).
Proof.
  revert m len c. induction bytes as [|e rest IH]; intros m len c; simpl.
  - discriminate.
  - intros Hdec. pose proof (decode_loop_consumed (e :: rest) m len c c' l Hdec) as Hc.
    destruct (Z.to_nat (c' - c)) as [|k] eqn:Hk; [lia|].
    simpl. simpl in Hdec.
    destruct (Z.land (u8 e) 128 =? 0); [assumption|].
    destruct (c + 1 >? 4); [discriminate|].
    replace k with (Z.to_nat (c' - (c + 1))) by lia.
    apply IH. assumption.
Qed.

(** X3. The decoder looks at the length bytes and at nothing else: a
    successful decode used between one and five bytes, all inside the
    buffer; any buffer with the same bytes up to the new offset decodes
    to the same result; and the same buffer cut anywhere before the new
    offset does not decode. *)
Theorem decode_depends_on_length_bytes_only buf offset offset' n :
  0 <= offset ->
  decodeRemainingLength buf offset = Some (offset', n) ->
  (1 <= offset' - offset <= 5 /\ offset' <= size buf) /\
  (forall other,
     firstn (Z.to_nat offset') other = firstn (Z.to_nat offset') buf ->
     decodeRemainingLength other offset = Some (offset', n)) /\
  (forall cut,
     offset <= cut < offset' ->
     decodeRemainingLength (firstn (Z.to_nat cut) buf) offset = None).
Proof.
  intros Hoff Hdec. unfold decodeRemainingLength in *.
  destruct (decode_loop (skipn (Z.to_nat offset) buf) 1 0 0) as [[c l]|] eqn:Hd;
    [|discriminate].
  assert (Ho' : offset' = offset + c) by congruence.
  assert (Hl : l = n) by congruence. subst offset' l.
  pose proof (decode_loop_consumed _ _ _ _ _ _ Hd) as [Hc1 [Hc2 Hc3]].
  unfold size in Hc2. rewrite length_skipn in Hc2.
  split; [unfold size; lia|]. split.
  - intros other Hsame.
    pose proof (decode_loop_firstn _ _ _ _ _ _ Hd) as Hfirst.
    rewrite firstn_skipn_comm in Hfirst.
    replace (Z.to_nat (offset + c)) with (Z.to_nat offset + Z.to_nat (c - 0))%nat
      in Hsame by lia.
    rewrite <- Hsame, <- firstn_skipn_comm in Hfirst.
    rewrite <- (firstn_skipn (Z.to_nat (c - 0)) (skipn (Z.to_nat offset) other)).
    rewrite (decode_loop_app _ _ _ _ _ _ Hfirst). reflexivity.
  - intros cut Hcut.
    rewrite skipn_firstn_comm.
    rewrite <- (firstn_skipn (Z.to_nat cut - Z.to_nat offset)
                  (skipn (Z.to_nat offset) buf)) in Hd.
    rewrite (decode_loop_short _ _ _ _ _ _ _ Hd); [reflexivity|].
    unfold size. rewrite length_firstn. lia.
Qed.

Lemma decode_depends_on_length_bytes_only_witness :
  decodeRemainingLength [x30; xc1; x02; xff; xff] 1 = Some (3, 321) /\
  decodeRemainingLength [x30; xc1] 1 = None.
Proof.
  destruct (decode_depends_on_length_bytes_only [x30; xc1; x02; x00] 1 3 321
              ltac:(lia) eq_refl) as [_ [Hsame Hcut]].
  split.
  - apply Hsame. reflexivity.
  - apply (Hcut 2). lia.
Defined.

(** ** [toHex] *)








(** ** [sendAll] and partial writes *)




(** A socket that takes at most four bytes per call, and fails on the
    third call. *)
Definition fourThenFail (call : nat) (requested : Z) : Z :=
  if (call <? 2)%nat then Z.min 4 requested else -1.


Example sendAll_partial_then_error :
  sendAll fourThenFail publishQoS0 =
  (false, [[x30; x0b; x00; x04]; [x74; x65; x73; x74]], 3%nat).
Proof. vm_compute. reflexivity. Qed.

(** ** Who a broadcast reaches *)

(** X6. A broadcast sends to a session exactly when it is in the table
    under a key other than the sender's and its subscription set holds
    the very topic string (no wildcard is expanded); what it sends is
    always the one packet [buildPublish topic payload]; and a line is
    logged only when [verbose] is set. *)
Theorem broadcast_reaches_exactly_the_subscribers
    sendOk topic payload clients senderFd verbose :
  (forall s pkt,
     In (EvSend s pkt) (broadcast sendOk topic payload clients senderFd verbose) <->
     s <> senderFd /\ pkt = buildPublish topic payload /\
     exists session, In (s, session) clients /\ In topic (subscriptions session)) /\
  (forall line,
     In (EvLog line) (broadcast sendOk topic payload clients senderFd verbose) ->
     verbose = true).
Proof.
  split.
  - intros s pkt. rewrite <- In_sends, sends_broadcast, in_map_iff.
    unfold subscribersExcept. split.
    + intros [s' [[= -> <-] Hin]]. apply in_map_iff in Hin.
      destruct Hin as [[k c] [Hk Hin]]. simpl in Hk. subst k.
      apply filter_In in Hin. destruct Hin as [Hin Hf]. simpl in Hf.
      apply andb_prop in Hf. destruct Hf as [Hne Hmem].
      apply negb_true_iff, Z.eqb_neq in Hne.
      apply set_mem_correct1 in Hmem.
      split; [assumption|]. split; [reflexivity|]. exists c. split; assumption.
    + intros [Hne [-> [c [Hin Hsub]]]]. exists s. split; [reflexivity|].
      apply in_map_iff. exists (s, c). split; [reflexivity|].
      apply filter_In. split; [assumption|]. simpl.
      apply andb_true_intro. split.
      * apply negb_true_iff, Z.eqb_neq. assumption.
      * apply set_mem_correct2. assumption.
  - intros line. unfold broadcast. rewrite in_flat_map.
    intros [[k c] [_ Hin]]. simpl in Hin.
    destruct (k =? senderFd); [contradiction|].
    destruct (set_mem string_dec topic (subscriptions c)); [|contradiction].
    destruct Hin as [Hin|Hin]; [discriminate|].
    destruct (sendOk k (buildPublish topic payload)); simpl in Hin;
      [|contradiction].
    destruct verbose; [reflexivity|contradiction].
Qed.

Lemma broadcast_reaches_exactly_the_subscribers_witness :
  In (EvSend 5 publishQoS0)
     (broadcast (fun _ _ => true) "test" "hello" twoSubscribers 6 false).
Proof.
  destruct (broadcast_reaches_exactly_the_subscribers
              (fun _ _ => true) "test" "hello" twoSubscribers 6 false) as [Hsend _].
  apply Hsend. split; [lia|]. split; [vm_compute; reflexivity|].
  exists {| fd := 5; clientId := "sub"; subscriptions := ["test"%string]; inbox := [] |}.
  split; simpl; auto.
Defined.

(** ** Length-prefixed fields *)

(** The two bytes of a big-endian 16-bit length. *)
Definition be16bytes (n : Z) : list byte :=
  [to_u8 (Z.shiftr n 8); to_u8 (Z.land n 255)].

(** A field as the wire has it: its length on two bytes, then its bytes. *)
Definition lengthPrefixed (field : list byte) : list byte :=
  be16bytes (size field) ++ field.

Lemma at_middle (pre : list byte) (x : byte) (rest : list byte) :
  at_ (pre ++ x :: rest) (size pre) = x.
Proof.
  unfold at_, size. rewrite Nat2Z.id. rewrite app_nth2 by lia.
  rewrite Nat.sub_diag. reflexivity.
Qed.

Lemma be16_join (n : Z) :
  0 <= n < 65536 ->
  Z.lor (Z.shiftl (u8 (to_u8 (Z.shiftr n 8))) 8) (u8 (to_u8 (Z.land n 255))) = n.
Proof.
  intros Hn.
  assert (0 <= Z.shiftr n 8 < 256).
  { rewrite Z.shiftr_div_pow2 by lia. change (2 ^ 8) with 256. split.
    - apply Z.div_pos; lia.
    - apply Z.div_lt_upper_bound; lia. }
  assert (0 <= Z.land n 255 < 256).
  { change 255 with (Z.ones 8). rewrite Z.land_ones by lia.
    apply Z.mod_pos_bound. lia. }
  rewrite !u8_to_u8 by assumption.
  apply Z.bits_inj'. intros i Hi. rewrite Z.lor_spec.
  change 255 with (Z.ones 8). rewrite Z.land_ones by lia.
  destruct (Z_lt_le_dec i 8).
  - rewrite Z.shiftl_spec_low by lia. rewrite Z.mod_pow2_bits_low by lia.
    reflexivity.
  - rewrite Z.shiftl_spec_high by lia. rewrite Z.shiftr_spec by lia.
    rewrite Z.mod_pow2_bits_high by lia. rewrite orb_false_r.
    f_equal. lia.
Qed.

Lemma be16_lengthPrefixed pre field rest :
  size field < 65536 ->
  be16 (pre ++ lengthPrefixed field ++ rest) (size pre) = size field.
Proof.
  intros Hsize. pose proof (size_nonneg field).
  unfold lengthPrefixed, be16bytes, be16. cbn [app].
  rewrite at_middle.
  replace (pre ++ to_u8 (Z.shiftr (size field) 8)
               :: to_u8 (Z.land (size field) 255) :: field ++ rest)
    with ((pre ++ [to_u8 (Z.shiftr (size field) 8)])
          ++ to_u8 (Z.land (size field) 255) :: field ++ rest)
    by (rewrite <- app_assoc; reflexivity).
  replace (size pre + 1) with (size (pre ++ [to_u8 (Z.shiftr (size field) 8)]))
    by (rewrite size_app; reflexivity).
  rewrite at_middle. apply be16_join. lia.
Qed.

Lemma substr_lengthPrefixed pre field rest :
  substr (pre ++ lengthPrefixed field ++ rest) (size pre + 2) (size field)
  = string_of_list_byte field.
Proof.
  unfold substr, lengthPrefixed, be16bytes. cbn [app].
  replace (pre ++ to_u8 (Z.shiftr (size field) 8)
               :: to_u8 (Z.land (size field) 255) :: field ++ rest)
    with ((pre ++ [to_u8 (Z.shiftr (size field) 8); to_u8 (Z.land (size field) 255)])
          ++ field ++ rest)
    by (rewrite <- app_assoc; reflexivity).
  replace (size pre + 2)
    with (size (pre ++ [to_u8 (Z.shiftr (size field) 8);
                        to_u8 (Z.land (size field) 255)]))
    by (rewrite size_app; reflexivity).
  rewrite skipn_size_app, firstn_size_app. reflexivity.
Qed.

Lemma size_lengthPrefixed field : size (lengthPrefixed field) = 2 + size field.
Proof. unfold lengthPrefixed, be16bytes. rewrite size_app. reflexivity. Qed.

Lemma size_list_byte_of_string (s : string) :
  size (list_byte_of_string s) = Z.of_nat (String.length s).
Proof.
  unfold size. f_equal. unfold list_byte_of_string. rewrite length_map.
  induction s as [|c s IH]; simpl; [reflexivity|]. rewrite IH. reflexivity.
Qed.

(** A packet put together from a header byte and a body of at most
    268435455 bytes is complete. *)
Lemma completePacket_build (header : byte) (body : list byte) :
  size body <= 268435455 ->
  completePacket (header :: encodeRemainingLength (size body) ++ body)
                 (1 + size (encodeRemainingLength (size body))).
Proof.
  intros Hsize. pose proof (size_nonneg body). exists (size body). split.
  - apply (decode_encode (size body) [header] body). lia.
  - rewrite size_cons, size_app.
    pose proof (size_nonneg (encodeRemainingLength (size body))).
    rewrite size_wrap_small; [lia|].
    assert (size (encodeRemainingLength (size body)) <= 4).
    { destruct (encode_size_by_range (size body)) as [H1 [H2 [H3 H4]]].
      destruct (Z_lt_le_dec (size body) 128); [rewrite H1; lia|].
      destruct (Z_lt_le_dec (size body) 16384); [rewrite H2; lia|].
      destruct (Z_lt_le_dec (size body) 2097152); [rewrite H3; lia|].
      rewrite H4; lia. }
    change (2 ^ 64) with 18446744073709551616. lia.
Qed.

(** ** A PUBLISH in the broker's own format *)

Local Open Scope string_scope.
Local Open Scope Z_scope.

Lemma buildPublish_layout topic payload :
  buildPublish topic payload =
  (x30 :: encodeRemainingLength
            (size (lengthPrefixed (list_byte_of_string topic)
                   ++ list_byte_of_string payload)%list)
       ++ lengthPrefixed (list_byte_of_string topic)
       ++ list_byte_of_string payload)%list.
Proof.
  unfold buildPublish, lengthPrefixed, be16bytes.
  rewrite size_list_byte_of_string. cbn [app]. reflexivity.
Qed.

Lemma publishPayload_tail (pre payload : list byte) :
  publishPayload (pre ++ payload)%list (size pre) = string_of_list_byte payload.
Proof.
  unfold publishPayload. rewrite size_app.
  destruct (size pre <? size pre + size payload) eqn:Hlt.
  - unfold substr. rewrite skipn_size_app.
    replace (size pre + size payload - size pre) with (size payload) by lia.
    unfold size. rewrite Nat2Z.id, firstn_all. reflexivity.
  - apply Z.ltb_ge in Hlt. pose proof (size_nonneg payload).
    destruct payload; [reflexivity|]. rewrite size_cons in *.
    pose proof (size_nonneg payload). lia.
Qed.

Lemma handlePublish_built sendOk cfg pre topic payload client clients :
  Z.of_nat (String.length topic) <= 65535 ->
  handlePublish sendOk cfg x30 (size pre)
    (pre ++ lengthPrefixed (list_byte_of_string topic)
         ++ list_byte_of_string payload)%list client clients =
  ((if traceMessages cfg
    then log ("[publish] from=" ++ clientId client ++ " topic='" ++ topic
              ++ "' payload='" ++ payload ++ "'") (quiet cfg)
    else [])
   ++ broadcast sendOk topic payload clients (fd client) (traceMessages cfg))%list.
Proof.
  intros Hlen. unfold handlePublish.
  pose proof (size_list_byte_of_string topic) as Hst.
  pose proof (size_nonneg (list_byte_of_string payload)) as Hsp.
  pose proof (size_nonneg pre).
  rewrite be16_lengthPrefixed by lia.
  rewrite !size_app, size_lengthPrefixed.
  replace (size pre + 2 >? size pre + (2 + size (list_byte_of_string topic)
                                       + size (list_byte_of_string payload)))
    with false by (symmetry; apply gtb_false; lia).
  replace (size pre + 2 + size (list_byte_of_string topic)
           >? size pre + (2 + size (list_byte_of_string topic)
                          + size (list_byte_of_string payload)))
    with false by (symmetry; apply gtb_false; lia).
  change (Z.land (Z.shiftr (u8 x30) 1) 3 >? 0) with false. cbv iota.
  rewrite substr_lengthPrefixed, string_of_list_byte_of_string.
  replace (publishPayload _ _) with payload; [reflexivity|].
  rewrite app_assoc.
  replace (size pre + 2 + size (list_byte_of_string topic))
    with (size (pre ++ lengthPrefixed (list_byte_of_string topic))%list)
    by (rewrite size_app, size_lengthPrefixed; lia).
  rewrite publishPayload_tail, string_of_list_byte_of_string. reflexivity.
Qed.

(** X7. The broker reads back what it writes: when a session sends a
    packet that is byte for byte [buildPublish topic payload] (a topic of
    at most 65535 bytes, a body within the MQTT length range), the broker
    parses the same topic and payload out of it and sends that very
    packet, unchanged, to every other session subscribed to the topic,
    and nothing to anyone else. *)
Theorem built_publish_is_forwarded_verbatim
    sendOk cfg k clients client topic payload :
  map_find k clients = Some client ->
  fd client = k ->
  inbox client = buildPublish topic payload ->
  Z.of_nat (String.length topic) <= 65535 ->
  2 + Z.of_nat (String.length topic) + Z.of_nat (String.length payload) <= 268435455 ->
  exists clients' events,
    processPacket sendOk cfg k clients = Returned clients' events /\
    sends events =
      map (fun s => (s, buildPublish topic payload))
          (subscribersExcept topic k clients).
Proof.
  intros Hfind Hfd Hinbox Htopic Hbody.
  set (body := (lengthPrefixed (list_byte_of_string topic)
                ++ list_byte_of_string payload)%list).
  assert (Hsize : size body <= 268435455).
  { unfold body. rewrite size_app, size_lengthPrefixed, !size_list_byte_of_string. lia. }
  pose proof (completePacket_build x30 body Hsize) as Hcomplete.
  rewrite buildPublish_layout in Hinbox. fold body in Hinbox.
  rewrite (processPacket_single sendOk cfg k clients client _ _ Hfind Hinbox Hcomplete).
  cbv zeta.
  set (pre := (x30 :: encodeRemainingLength (size body))%list).
  assert (Hpre : 1 + size (encodeRemainingLength (size body)) = size pre)
    by (unfold pre; rewrite size_cons; reflexivity).
  rewrite Hpre.
  change (x30 :: encodeRemainingLength (size body) ++ body)%list
    with (pre ++ body)%list.
  assert (Hhead : at_ (pre ++ body)%list 0 = x30) by reflexivity.
  rewrite Hhead. unfold handlePacket.
  change (Z.shiftr (u8 x30) 4) with 3. cbv iota.
  unfold body at 1. rewrite (handlePublish_built sendOk cfg pre topic payload _ _ Htopic).
  eexists. eexists. split; [reflexivity|].
  rewrite !sends_app, sends_rawLog, sends_broadcast.
  replace (sends (if traceMessages cfg then log _ (quiet cfg) else []))
    with (@nil (Z * list byte))
    by (destruct (traceMessages cfg); [rewrite sends_log|]; reflexivity).
  simpl. rewrite Hfd, subscribersExcept_store, buildPublish_layout. reflexivity.
Qed.

Lemma built_publish_is_forwarded_verbatim_witness :
  exists clients' events,
    processPacket (fun _ _ => true) defaultConfig 6
      [(5, {| fd := 5; clientId := "sub"; subscriptions := ["cmd/luz"]; inbox := [] |});
       (6, {| fd := 6; clientId := "pub"; subscriptions := [];
              inbox := buildPublish "cmd/luz" "75" |})]
    = Returned clients' events /\
    sends events =
      map (fun s => (s, buildPublish "cmd/luz" "75"))
        (subscribersExcept "cmd/luz" 6
           [(5, {| fd := 5; clientId := "sub"; subscriptions := ["cmd/luz"];
                   inbox := [] |});
            (6, {| fd := 6; clientId := "pub"; subscriptions := [];
                   inbox := buildPublish "cmd/luz" "75" |})]).
Proof.
  apply (built_publish_is_forwarded_verbatim (fun _ _ => true) defaultConfig 6 _
           {| fd := 6; clientId := "pub"; subscriptions := [];
              inbox := buildPublish "cmd/luz" "75" |} "cmd/luz" "75").
  - reflexivity.
  - reflexivity.
  - reflexivity.
  - simpl. lia.
  - simpl. lia.
Defined.

(** ** CONNECT *)

Lemma string_of_list_byte_empty (field : list byte) :
  String.eqb (string_of_list_byte field) "" =
  match field with [] => true | _ :: _ => false end.
Proof. destruct field; reflexivity. Qed.

(** The client identifier a CONNECT leaves in the session. *)
Definition adoptedClientId (cid : list byte) (client : ClientSession) : string :=
  match cid with
  | [] => clientId client
  | _ :: _ => string_of_list_byte cid
  end.

Lemma handleConnect_layout cfg pre proto four cid tail client :
  size proto <= 65535 -> size four = 4 -> size cid <= 65535 ->
  handleConnect cfg (size pre)
    (pre ++ lengthPrefixed proto ++ four ++ lengthPrefixed cid ++ tail)%list client =
  (set_clientId (adoptedClientId cid client) client,
   (log ("[connect] clientId=" ++ adoptedClientId cid client) (quiet cfg)
    ++ (if artificialDelayMs cfg >? 0 then [EvSleep (artificialDelayMs cfg)] else [])
    ++ sendConnack (fd client))%list).
Proof.
  intros Hproto Hfour Hcid. unfold handleConnect.
  pose proof (size_nonneg pre). pose proof (size_nonneg proto).
  pose proof (size_nonneg cid). pose proof (size_nonneg tail).
  set (packet := (pre ++ lengthPrefixed proto ++ four ++ lengthPrefixed cid ++ tail)%list).
  assert (Hsize : size packet = size pre + (2 + size proto) + 4 + (2 + size cid) + size tail).
  { unfold packet. rewrite !size_app, !size_lengthPrefixed. lia. }
  assert (Hproto16 : be16 packet (size pre) = size proto)
    by (unfold packet; apply be16_lengthPrefixed; lia).
  set (pre2 := (pre ++ lengthPrefixed proto ++ four)%list).
  assert (Hpacket2 : packet = (pre2 ++ lengthPrefixed cid ++ tail)%list)
    by (unfold packet, pre2; rewrite <- !app_assoc; reflexivity).
  assert (Hpre2 : size pre2 = size pre + (2 + size proto) + 4)
    by (unfold pre2; rewrite !size_app, size_lengthPrefixed; lia).
  rewrite Hproto16.
  replace (size pre + 2 >? size packet) with false
    by (symmetry; apply gtb_false; lia).
  replace (size pre + (2 + size proto) + 4 >? size packet) with false
    by (symmetry; apply gtb_false; lia).
  replace (size pre + (2 + size proto) + 4 + 2 >? size packet) with false
    by (symmetry; apply gtb_false; lia).
  rewrite <- Hpre2.
  assert (Hcid16 : be16 packet (size pre2) = size cid)
    by (rewrite Hpacket2; apply be16_lengthPrefixed; lia).
  rewrite Hcid16.
  replace (size pre2 + 2 + size cid <=? size packet) with true
    by (symmetry; apply Z.leb_le; lia).
  assert (Hsub : substr packet (size pre2 + 2) (size cid) = string_of_list_byte cid)
    by (rewrite Hpacket2; apply substr_lengthPrefixed).
  rewrite !Hsub, string_of_list_byte_empty.
  destruct cid; reflexivity.
Qed.

(** X8. CONNECT, for a packet laid out as the handler reads it (protocol
    name, four bytes of level, flags and keep-alive, client identifier,
    then anything): the session takes the client identifier of the packet,
    or keeps the one it has when the packet's is empty; its socket and
    subscriptions stay as they are; the broker logs the identifier, sleeps
    first when a delay is configured, and answers CONNACK [20 02 00 00],
    once. *)
Theorem connect_adopts_client_id
    sendOk cfg k clients client header proto four cid tail :
  map_find k clients = Some client ->
  Z.shiftr (u8 header) 4 = 1 ->
  size proto <= 65535 -> size four = 4 -> size cid <= 65535 ->
  size (lengthPrefixed proto ++ four ++ lengthPrefixed cid ++ tail)%list <= 268435455 ->
  inbox client =
    (header :: encodeRemainingLength
                 (size (lengthPrefixed proto ++ four ++ lengthPrefixed cid ++ tail)%list)
            ++ lengthPrefixed proto ++ four ++ lengthPrefixed cid ++ tail)%list ->
  processPacket sendOk cfg k clients =
  Returned
    (map_store k (set_clientId (adoptedClientId cid client) (set_inbox [] client)) clients)
    (rawLog cfg header (inbox client)
     ++ log ("[connect] clientId=" ++ adoptedClientId cid client) (quiet cfg)
     ++ (if artificialDelayMs cfg >? 0 then [EvSleep (artificialDelayMs cfg)] else [])
     ++ [EvSend (fd client) [x20; x02; x00; x00]])%list.
Proof.
  intros Hfind Htype Hproto Hfour Hcid Hbody Hinbox.
  set (body := (lengthPrefixed proto ++ four ++ lengthPrefixed cid ++ tail)%list) in *.
  pose proof (completePacket_build header body Hbody) as Hcomplete.
  rewrite (processPacket_single sendOk cfg k clients client _ _ Hfind Hinbox Hcomplete).
  cbv zeta. rewrite Hinbox.
  set (pre := (header :: encodeRemainingLength (size body))%list).
  assert (Hpre : 1 + size (encodeRemainingLength (size body)) = size pre)
    by (unfold pre; rewrite size_cons; reflexivity).
  rewrite Hpre.
  change (header :: encodeRemainingLength (size body) ++ body)%list
    with (pre ++ body)%list.
  assert (Hhead : at_ (pre ++ body)%list 0 = header) by reflexivity.
  rewrite Hhead. unfold handlePacket. rewrite Htype. cbv iota.
  unfold body at 1.
  rewrite (handleConnect_layout cfg pre proto four cid tail _ Hproto Hfour Hcid).
  rewrite map_store_store. reflexivity.
Qed.

Lemma connect_adopts_client_id_witness :
  processPacket (fun _ _ => true) defaultConfig 5
    [(5, {| fd := 5; clientId := "?"; subscriptions := [];
            inbox := [x10; x0f; x00; x04; x4d; x51; x54; x54; x04; x02; x00; x3c;
                      x00; x03; x73; x74; x6d] |})]
  = Returned
      [(5, {| fd := 5; clientId := "stm"; subscriptions := []; inbox := [] |})]
      [EvLog "[connect] clientId=stm"; EvSend 5 [x20; x02; x00; x00]].
Proof.
  etransitivity.
  - apply (connect_adopts_client_id (fun _ _ => true) defaultConfig 5 _
             {| fd := 5; clientId := "?"; subscriptions := [];
                inbox := [x10; x0f; x00; x04; x4d; x51; x54; x54; x04; x02; x00; x3c;
                          x00; x03; x73; x74; x6d] |}
             x10 [x4d; x51; x54; x54] [x04; x02; x00; x3c] [x73; x74; x6d] []).
    + reflexivity.
    + reflexivity.
    + vm_compute. discriminate.
    + reflexivity.
    + vm_compute. discriminate.
    + vm_compute. discriminate.
    + reflexivity.
  - reflexivity.
Defined.

(** ** SUBSCRIBE *)

(** The subscription set after the topics of [topics] have been inserted,
    first to last. *)
Definition addTopics (topics : list string) (subs : set string) : set string :=
  fold_left (fun s t => set_add string_dec t s) topics subs.

(** One topic filter of a SUBSCRIBE: the length-prefixed topic and the
    requested QoS. *)
Definition subscribeEntry (entry : list byte * byte) : list byte :=
  (lengthPrefixed (fst entry) ++ [snd entry])%list.

Definition traceLine (cfg : Config) (client : ClientSession) (topic : string)
  : list Event :=
  if traceSubscriptions cfg
  then log ("[subscribe] " ++ clientId client ++ " -> '" ++ topic ++ "'") (quiet cfg)
  else [].

Lemma subscribeLoop_iter cfg packet pos client :
  subscribeLoop cfg packet pos client =
  if pos + 2 <=? size packet then
    if pos + 2 + be16 packet pos + 1 >? size packet then (client, [])
    else
      let topic := substr packet (pos + 2) (be16 packet pos) in
      let r := subscribeLoop cfg packet (pos + 2 + be16 packet pos + 1)
                 (set_subscriptions (set_add string_dec topic (subscriptions client))
                    client) in
      (fst r, (traceLine cfg client topic ++ snd r)%list)
  else (client, []).
Proof.
  rewrite subscribeLoop_equation_1. unfold subscribeLoop_clause_1. simpl.
  destruct (pos + 2 <=? size packet); [|reflexivity].
  unfold subscribeLoop_clause_1_clause_2. simpl.
  destruct (pos + 2 + be16 packet pos + 1 >? size packet); reflexivity.
Qed.

Lemma set_subscriptions_same client :
  set_subscriptions (subscriptions client) client = client.
Proof. destruct client. reflexivity. Qed.

Lemma set_add_present (t : string) (subs : set string) :
  In t subs -> set_add string_dec t subs = subs.
Proof.
  induction subs as [|s rest IH]; simpl; [contradiction|].
  intros Hin. destruct (string_dec t s); [reflexivity|].
  destruct Hin as [Heq|Hin]; [congruence|]. rewrite IH by assumption. reflexivity.
Qed.

Lemma addTopics_In (t : string) topics subs :
  In t (addTopics topics subs) <-> In t topics \/ In t subs.
Proof.
  unfold addTopics. revert subs.
  induction topics as [|t0 rest IH]; intros subs; simpl; [tauto|].
  rewrite IH. split.
  - intros [H|H]; [tauto|]. apply set_add_elim in H. destruct H; [subst; tauto|tauto].
  - intros [[H|H]|H]; [subst; right; apply set_add_intro2; reflexivity|tauto|].
    right. apply set_add_intro1. assumption.
Qed.

Lemma addTopics_present topics subs :
  (forall t, In t topics -> In t subs) -> addTopics topics subs = subs.
Proof.
  unfold addTopics. induction topics as [|t0 rest IH]; intros Hall; simpl;
    [reflexivity|].
  rewrite set_add_present by (apply Hall; left; reflexivity).
  apply IH. intros t Ht. apply Hall. right. assumption.
Qed.

(** Whatever the packet, the loop inserts a list of topics that depends
    on the packet alone. *)
Lemma subscribeLoop_adds cfg packet :
  forall n pos,
    n = Z.to_nat (size packet - pos) ->
    exists topics,
      forall client,
        fst (subscribeLoop cfg packet pos client)
        = set_subscriptions (addTopics topics (subscriptions client)) client.
Proof.
  induction n as [n IH] using lt_wf_ind. intros pos Hn.
  destruct (pos + 2 <=? size packet) eqn:Hroom.
  - destruct (pos + 2 + be16 packet pos + 1 >? size packet) eqn:Hshort.
    + exists []. intros client. rewrite subscribeLoop_iter, Hroom, Hshort.
      simpl. symmetry. apply set_subscriptions_same.
    + apply Z.leb_le in Hroom. apply gtb_false in Hshort.
      pose proof (be16_nonneg packet pos).
      destruct (IH (Z.to_nat (size packet - (pos + 2 + be16 packet pos + 1)))
                  ltac:(lia) (pos + 2 + be16 packet pos + 1) eq_refl) as [topics Htopics].
      exists (substr packet (pos + 2) (be16 packet pos) :: topics).
      intros client. rewrite subscribeLoop_iter.
      replace (pos + 2 <=? size packet) with true by (symmetry; apply Z.leb_le; lia).
      replace (pos + 2 + be16 packet pos + 1 >? size packet) with false
        by (symmetry; apply gtb_false; lia).
      cbv zeta. cbn [fst]. rewrite Htopics. reflexivity.
  - exists []. intros client. rewrite subscribeLoop_iter, Hroom.
    simpl. symmetry. apply set_subscriptions_same.
Qed.

(** X10. Subscribing is idempotent: the SUBSCRIBE handler run a second
    time on the same packet, well formed or not, leaves the subscription
    set exactly as the first run left it. *)
Theorem resubscribing_changes_nothing cfg offset packet client :
  subscriptions
    (fst (handleSubscribe cfg offset packet
            (fst (handleSubscribe cfg offset packet client))))
  = subscriptions (fst (handleSubscribe cfg offset packet client)).
Proof.
  unfold handleSubscribe.
  destruct (offset + 2 >? size packet); [reflexivity|]. cbv zeta. cbn [fst].
  destruct (subscribeLoop_adds cfg packet _ (offset + 2) eq_refl) as [topics Htopics].
  rewrite !Htopics. cbn [subscriptions set_subscriptions].
  apply addTopics_present. intros t Ht. apply addTopics_In. left. assumption.
Qed.

Lemma subscribeLoop_entries cfg entries :
  Forall (fun entry => size (fst entry) <= 65535) entries ->
  forall pre client,
    subscribeLoop cfg (pre ++ List.concat (map subscribeEntry entries))%list
      (size pre) client =
    (set_subscriptions
       (addTopics (map (fun entry => string_of_list_byte (fst entry)) entries)
          (subscriptions client)) client,
     flat_map (fun entry => traceLine cfg client (string_of_list_byte (fst entry)))
       entries).
Proof.
  induction 1 as [|[topic qos] rest Htopic Hrest IH]; intros pre client.
  - simpl. rewrite app_nil_r, subscribeLoop_iter.
    replace (size pre + 2 <=? size pre) with false
      by (symmetry; apply Z.leb_gt; lia).
    rewrite set_subscriptions_same. reflexivity.
  - simpl in Htopic. pose proof (size_nonneg topic). pose proof (size_nonneg pre).
    cbn [map List.concat flat_map fst].
    set (tail := List.concat (map subscribeEntry rest)).
    pose proof (size_nonneg tail).
    unfold subscribeEntry at 1. cbn [fst snd].
    assert (Hpacket : (pre ++ (lengthPrefixed topic ++ [qos]) ++ tail)%list
                      = (pre ++ lengthPrefixed topic ++ qos :: tail)%list)
      by (rewrite <- app_assoc; reflexivity).
    rewrite Hpacket, subscribeLoop_iter.
    rewrite be16_lengthPrefixed by lia.
    rewrite !size_app, size_lengthPrefixed, size_cons.
    replace (size pre + 2 <=? size pre + (2 + size topic + (1 + size tail)))
      with true by (symmetry; apply Z.leb_le; lia).
    replace (size pre + 2 + size topic + 1
             >? size pre + (2 + size topic + (1 + size tail)))
      with false by (symmetry; apply gtb_false; lia).
    cbv zeta. rewrite substr_lengthPrefixed.
    replace (pre ++ lengthPrefixed topic ++ qos :: tail)%list
      with ((pre ++ lengthPrefixed topic ++ [qos]) ++ tail)%list
      by (rewrite <- !app_assoc; reflexivity).
    replace (size pre + 2 + size topic + 1)
      with (size (pre ++ lengthPrefixed topic ++ [qos])%list)
      by (rewrite !size_app, size_lengthPrefixed; change (size [qos]) with 1; lia).
    unfold tail. rewrite IH. cbn [fst snd]. reflexivity.
Qed.

(** X9. SUBSCRIBE, for a packet that holds a packet identifier and then
    any number of topic filters (length-prefixed topic, QoS byte): every
    topic of the packet is in the session's subscription set afterwards,
    together with all the subscriptions it had and nothing else; each
    topic is traced when tracing is on; and the SUBACK goes out after the
    trace lines, with the packet's identifier. *)
Theorem subscribe_adds_every_topic
    sendOk cfg k clients client header idHigh idLow entries :
  map_find k clients = Some client ->
  Z.shiftr (u8 header) 4 = 8 ->
  Forall (fun entry => size (fst entry) <= 65535) entries ->
  size ([idHigh; idLow] ++ List.concat (map subscribeEntry entries))%list <= 268435455 ->
  inbox client =
    (header :: encodeRemainingLength
                 (size ([idHigh; idLow] ++ List.concat (map subscribeEntry entries))%list)
            ++ [idHigh; idLow] ++ List.concat (map subscribeEntry entries))%list ->
  let topics := map (fun entry => string_of_list_byte (fst entry)) entries in
  processPacket sendOk cfg k clients =
  Returned
    (map_store k
       (set_subscriptions (addTopics topics (subscriptions client))
          (set_inbox [] client)) clients)
    (rawLog cfg header (inbox client)
     ++ flat_map (fun topic => traceLine cfg client topic) topics
     ++ [EvSend (fd client) [x90; x03; idHigh; idLow; x00]])%list /\
  (forall t, In t (addTopics topics (subscriptions client)) <->
             In t topics \/ In t (subscriptions client)).
Proof.
  intros Hfind Htype Hentries Hbody Hinbox topics.
  split; [|intros t; apply addTopics_In].
  set (body := ([idHigh; idLow] ++ List.concat (map subscribeEntry entries))%list) in *.
  pose proof (completePacket_build header body Hbody) as Hcomplete.
  rewrite (processPacket_single sendOk cfg k clients client _ _ Hfind Hinbox Hcomplete).
  cbv zeta. rewrite Hinbox.
  set (pre := (header :: encodeRemainingLength (size body))%list).
  assert (Hpre : 1 + size (encodeRemainingLength (size body)) = size pre)
    by (unfold pre; rewrite size_cons; reflexivity).
  rewrite Hpre.
  change (header :: encodeRemainingLength (size body) ++ body)%list
    with (pre ++ body)%list.
  assert (Hhead : at_ (pre ++ body)%list 0 = header) by reflexivity.
  rewrite Hhead. unfold handlePacket. rewrite Htype. cbv iota.
  unfold handleSubscribe.
  pose proof (size_nonneg (List.concat (map subscribeEntry entries))) as Hc.
  pose proof (size_nonneg pre).
  assert (Hsize : size (pre ++ body)%list
                  = size pre + 2 + size (List.concat (map subscribeEntry entries))).
  { unfold body. rewrite !size_app. change (size [idHigh; idLow]) with 2. lia. }
  replace (size pre + 2 >? size (pre ++ body)%list) with false
    by (symmetry; apply gtb_false; lia).
  cbv zeta.
  assert (Hid : (pre ++ body)%list
                = ((pre ++ [idHigh; idLow])
                   ++ List.concat (map subscribeEntry entries))%list)
    by (unfold body; rewrite <- app_assoc; reflexivity).
  assert (Hpos : size pre + 2 = size (pre ++ [idHigh; idLow])%list)
    by (rewrite size_app; reflexivity).
  assert (Hloop := subscribeLoop_entries cfg entries Hentries
                     (pre ++ [idHigh; idLow])%list (set_inbox [] client)).
  rewrite <- Hid, <- Hpos in Hloop. rewrite Hloop. cbn [fst snd].
  rewrite map_store_store.
  assert (Hbe : be16 (pre ++ body)%list (size pre) = be16 [idHigh; idLow] 0).
  { unfold be16, body.
    replace (pre ++ [idHigh; idLow] ++ List.concat (map subscribeEntry entries))%list
      with (pre ++ idHigh :: (idLow :: List.concat (map subscribeEntry entries)))%list
      by reflexivity.
    rewrite at_middle.
    replace (pre ++ idHigh :: idLow :: List.concat (map subscribeEntry entries))%list
      with ((pre ++ [idHigh])
            ++ idLow :: List.concat (map subscribeEntry entries))%list
      by (rewrite <- app_assoc; reflexivity).
    replace (size pre + 1) with (size (pre ++ [idHigh])%list)
      by (rewrite size_app; reflexivity).
    rewrite at_middle. reflexivity. }
  unfold sendSuback. rewrite Hbe, be16_hi, be16_lo.
  assert (Htrace : flat_map (fun topic => traceLine cfg client topic) topics
                   = flat_map
                       (fun entry : list byte * byte =>
                          traceLine cfg (set_inbox [] client)
                            (string_of_list_byte (fst entry))) entries).
  { unfold topics. clear. induction entries as [|entry rest IH]; [reflexivity|].
    cbn [map flat_map]. rewrite IH. reflexivity. }
  rewrite Htrace. reflexivity.
Qed.

Lemma subscribe_adds_every_topic_witness :
  processPacket (fun _ _ => true) defaultConfig 5
    [(5, {| fd := 5; clientId := "?"; subscriptions := ["a"]; inbox := subscribeTwoTopics |})]
  = Returned
      [(5, {| fd := 5; clientId := "?"; subscriptions := ["a"; "b"]; inbox := [] |})]
      [EvSend 5 [x90; x03; x00; x01; x00]].
Proof.
  etransitivity.
  - apply (subscribe_adds_every_topic (fun _ _ => true) defaultConfig 5 _
             {| fd := 5; clientId := "?"; subscriptions := ["a"];
                inbox := subscribeTwoTopics |}
             x82 x00 x01 [([x61], x00); ([x62], x00)]).
    + reflexivity.
    + reflexivity.
    + repeat constructor; vm_compute; discriminate.
    + vm_compute. discriminate.
    + reflexivity.
  - reflexivity.
Defined.

(** ** What a packet can and cannot change *)

Lemma handlePacket_subscriptions sendOk cfg header offset packet client clients t :
  In t (subscriptions client) ->
  In t (subscriptions
          (fst (fst (handlePacket sendOk cfg header offset packet client clients)))).
Proof.
  intros Hin. unfold handlePacket.
  destruct (Z.shiftr (u8 header) 4) as [|p|p]; try exact Hin.
  do 4 (try destruct p as [p|p|]; try exact Hin); cbn [fst].
  - unfold handleSubscribe. destruct (offset + 2 >? size packet); [exact Hin|].
    cbv zeta. cbn [fst].
    destruct (subscribeLoop_adds cfg packet _ (offset + 2) eq_refl) as [topics Htopics].
    rewrite Htopics. cbn [subscriptions set_subscriptions].
    apply addTopics_In. right. assumption.
  - unfold handleConnect.
    repeat match goal with
           | |- context [if ?b then (client, _) else _] => destruct b; [exact Hin|]
           end.
    exact Hin.
Qed.

(** How a session can differ after [processPacket] from what it was. *)
Definition evolved (before after : ClientSession) : Prop :=
  (forall t, In t (subscriptions before) -> In t (subscriptions after)) /\
  (fd after = fd before \/ fd after = -1) /\
  (exists n, inbox after = skipn n (inbox before)).

Lemma evolved_refl c : evolved c c.
Proof. split; [auto|]. split; [left; reflexivity|]. exists 0%nat. reflexivity. Qed.

Lemma evolved_trans a b c : evolved a b -> evolved b c -> evolved a c.
Proof.
  intros [Hs1 [Hf1 [n1 Hi1]]] [Hs2 [Hf2 [n2 Hi2]]].
  split; [auto|]. split.
  - destruct Hf2 as [Hf2|Hf2]; [rewrite Hf2; assumption|right; assumption].
  - exists (n2 + n1)%nat. rewrite Hi2, Hi1. apply skipn_skipn.
Qed.

Lemma evolved_handlePacket sendOk cfg header offset packet client clients c ev flow :
  handlePacket sendOk cfg header offset packet client clients = (c, ev, flow) ->
  evolved client c.
Proof.
  intros Hhandle. split; [|split].
  - intros t Hin.
    pose proof (handlePacket_subscriptions sendOk cfg header offset packet
                  client clients t Hin) as H.
    rewrite Hhandle in H. exact H.
  - destruct flow.
    + left. eapply handlePacket_break_fd. eassumption.
    + right. eapply handlePacket_return. eassumption.
  - exists 0%nat.
    pose proof (handlePacket_inbox sendOk cfg header offset packet client clients) as H.
    rewrite Hhandle in H. exact H.
Qed.

Lemma processPacket_evolves sendOk cfg k :
  forall clients client clients' events,
    map_find k clients = Some client ->
    processPacket sendOk cfg k clients = Returned clients' events ->
    exists client',
      clients' = map_store k client' clients /\ evolved client client'.
Proof.
  intros clients. remember (inboxLen k clients) as n eqn:Hn.
  revert clients Hn.
  induction n as [n IH] using lt_wf_ind.
  intros clients Hn client clients' events Hfind Hrun.
  rewrite processPacket_iter in Hrun.
  destruct (processStep sendOk cfg k clients) as [c1 e1|c1 e1|e1] eqn:Hstep;
    [| |discriminate].
  - injection Hrun as <- <-.
    unfold processStep in Hstep. rewrite Hfind in Hstep.
    assert (Hsame : clients = map_store k client clients)
      by (symmetry; apply map_store_same; assumption).
    destruct (size (inbox client) <? 2);
      [injection Hstep as <- _; exists client; split; [assumption|apply evolved_refl]|].
    destruct (decodeRemainingLength (inbox client) 1) as [[offset rl]|];
      [|injection Hstep as <- _; exists client; split; [assumption|apply evolved_refl]].
    destruct (size (inbox client) <? size_wrap (offset + rl));
      [injection Hstep as <- _; exists client; split; [assumption|apply evolved_refl]|].
    destruct (handlePacket _ _ _ _ _ _ _) as [[client2 ev] flow] eqn:Hhandle.
    destruct flow; [destruct (size_wrap (offset + rl) =? 0); discriminate|].
    injection Hstep as <- _. exists client2. split; [apply map_store_store|].
    apply evolved_handlePacket in Hhandle.
    eapply evolved_trans; [|exact Hhandle].
    split; [auto|]. split; [left; reflexivity|]. eexists. reflexivity.
  - pose proof (processStep_next_shorter _ _ _ _ _ _ Hstep) as Hshorter.
    destruct (processPacket sendOk cfg k c1) as [c2 e2|] eqn:Hrest; [|discriminate].
    injection Hrun as <- <-.
    unfold processStep in Hstep. rewrite Hfind in Hstep.
    destruct (size (inbox client) <? 2); [discriminate|].
    destruct (decodeRemainingLength (inbox client) 1) as [[offset rl]|]; [|discriminate].
    destruct (size (inbox client) <? size_wrap (offset + rl)); [discriminate|].
    destruct (handlePacket _ _ _ _ _ _ _) as [[client2 ev] flow] eqn:Hhandle.
    destruct flow; [|discriminate].
    destruct (size_wrap (offset + rl) =? 0); [discriminate|].
    injection Hstep as <- _.
    assert (Hfind2 : map_find k
              (map_store k client2
                 (map_store k
                    (set_inbox (skipn (Z.to_nat (size_wrap (offset + rl))) (inbox client))
                       client) clients)) = Some client2).
    { apply map_find_store. rewrite map_find_store; congruence. }
    subst n.
    destruct (IH _ Hshorter _ eq_refl _ _ _ Hfind2 Hrest) as [client' [Heq Hev]].
    exists client'. split; [rewrite Heq, !map_store_store; reflexivity|].
    apply evolved_handlePacket in Hhandle.
    eapply evolved_trans; [|exact Hev].
    eapply evolved_trans; [|exact Hhandle].
    split; [auto|]. split; [left; reflexivity|]. eexists. reflexivity.
Qed.

(** X11. Packets from one session touch that session only, and only so
    far: when [processPacket] returns, the table has the same keys, every
    other session is exactly as it was, and the session itself has kept
    every subscription it had (nothing ever unsubscribes), has its socket
    as before or set to -1, and has as inbox what was left of its inbox. *)
Theorem packets_change_only_their_session
    sendOk cfg k clients client clients' events :
  map_find k clients = Some client ->
  processPacket sendOk cfg k clients = Returned clients' events ->
  keys clients' = keys clients /\
  (forall other, other <> k -> map_find other clients' = map_find other clients) /\
  exists client',
    map_find k clients' = Some client' /\
    (forall t, In t (subscriptions client) -> In t (subscriptions client')) /\
    (fd client' = fd client \/ fd client' = -1) /\
    (exists n, inbox client' = skipn n (inbox client)).
Proof.
  intros Hfind Hrun.
  destruct (processPacket_evolves sendOk cfg k clients client clients' events Hfind Hrun)
    as [client' [-> Hev]].
  split; [apply keys_store|]. split.
  - intros other Hne. apply map_find_store_other. congruence.
  - exists client'. split; [apply map_find_store; congruence|exact Hev].
Qed.

Lemma packets_change_only_their_session_witness :
  keys [(5, {| fd := 5; clientId := "sub"; subscriptions := ["test"%string];
               inbox := [] |});
        (6, {| fd := 6; clientId := "pub"; subscriptions := ["test"%string];
               inbox := [] |})]
  = keys twoSubscribers /\
  (forall other, other <> 6 ->
     map_find other
       [(5, {| fd := 5; clientId := "sub"; subscriptions := ["test"%string];
               inbox := [] |});
        (6, {| fd := 6; clientId := "pub"; subscriptions := ["test"%string];
               inbox := [] |})]
     = map_find other twoSubscribers) /\
  exists client',
    map_find 6
      [(5, {| fd := 5; clientId := "sub"; subscriptions := ["test"%string];
              inbox := [] |});
       (6, {| fd := 6; clientId := "pub"; subscriptions := ["test"%string];
              inbox := [] |})]
    = Some client' /\
    (forall t, In t ["test"%string] -> In t (subscriptions client')) /\
    (fd client' = 6 \/ fd client' = -1) /\
    (exists n, inbox client' = skipn n publishQoS0).
Proof.
  apply (packets_change_only_their_session (fun _ _ => true) defaultConfig 6
           twoSubscribers
           {| fd := 6; clientId := "pub"; subscriptions := ["test"%string];
              inbox := publishQoS0 |}
           _
           [EvLog "[publish] from=pub topic='test' payload='hello'";
            EvSend 5 publishQoS0;
            EvLog "Forwarded to sub on topic 'test'"]).
  - reflexivity.
  - vm_compute. reflexivity.
Defined.

(** ** What the broker sends *)










(** ** Packet types the broker does not handle *)

(** X13. A complete packet of any type other than CONNECT, PUBLISH,
    SUBSCRIBE, PINGREQ and DISCONNECT (an UNSUBSCRIBE, a PUBREL, an
    acknowledgement, a reserved type) is taken off the inbox and only
    logged as unhandled: the session is otherwise unchanged, nothing is
    sent, and processing goes on with the bytes that follow. *)
Theorem unhandled_types_are_only_logged
    sendOk cfg k clients client packet offset rest :
  map_find k clients = Some client ->
  inbox client = (packet ++ rest)%list ->
  completePacket packet offset ->
  ~ In (packetType packet) [1; 3; 8; 12; 14] ->
  processPacket sendOk cfg k clients =
  prepend
    (rawLog cfg (at_ packet 0) packet
     ++ log ("[warn] Unhandled packet type " ++ to_string (packetType packet))
            (quiet cfg))%list
    (processPacket sendOk cfg k (map_store k (set_inbox rest client) clients)).
Proof.
  intros Hfind Hinbox Hcomplete Htype.
  rewrite (processPacket_frame sendOk cfg k clients client packet offset rest
             Hfind Hinbox Hcomplete).
  cbv zeta. unfold handlePacket. unfold packetType in *.
  destruct (Z.shiftr (u8 (at_ packet 0)) 4) as [|p|p];
    try (rewrite map_store_store; reflexivity).
  do 4 (try destruct p as [p|p|]; try (rewrite map_store_store; reflexivity));
    exfalso; apply Htype; simpl; tauto.
Qed.

Lemma unhandled_types_are_only_logged_witness :
  processPacket (fun _ _ => true) defaultConfig 5
    [(5, {| fd := 5; clientId := "stm"; subscriptions := ["test"%string];
            inbox := [xa2; x02; x00; x07; xc0; x00] |})]
  = prepend
      (rawLog defaultConfig xa2 [xa2; x02; x00; x07]
       ++ log ("[warn] Unhandled packet type " ++ to_string 10) (quiet defaultConfig))%list
      (processPacket (fun _ _ => true) defaultConfig 5
         (map_store 5
            (set_inbox [xc0; x00]
               {| fd := 5; clientId := "stm"; subscriptions := ["test"%string];
                  inbox := [xa2; x02; x00; x07; xc0; x00] |})
            [(5, {| fd := 5; clientId := "stm"; subscriptions := ["test"%string];
                    inbox := [xa2; x02; x00; x07; xc0; x00] |})])).
Proof.
  apply (unhandled_types_are_only_logged (fun _ _ => true) defaultConfig 5
           [(5, {| fd := 5; clientId := "stm"; subscriptions := ["test"%string];
                   inbox := [xa2; x02; x00; x07; xc0; x00] |})]
           {| fd := 5; clientId := "stm"; subscriptions := ["test"%string];
              inbox := [xa2; x02; x00; x07; xc0; x00] |}
           [xa2; x02; x00; x07] 2 [xc0; x00]).
  - reflexivity.
  - reflexivity.
  - exists 2. split; reflexivity.
  - vm_compute. intuition discriminate.
Defined.

(** ** The broker reads a stream of bytes

    How the bytes of a connection are cut into reads does not matter:
    [processPacket] takes the complete packets off the front of the inbox
    and leaves the rest for the next read. *)

Lemma prepend_nil o : prepend [] o = o.
Proof. destruct o; reflexivity. Qed.

Lemma prepend_prepend a b o : prepend a (prepend b o) = prepend (a ++ b) o.
Proof. destruct o; simpl; rewrite app_assoc; reflexivity. Qed.

Lemma subscribeLoop_set_inbox cfg packet v :
  forall n pos client,
    n = Z.to_nat (size packet - pos) ->
    subscribeLoop cfg packet pos (set_inbox v client) =
    (set_inbox v (fst (subscribeLoop cfg packet pos client)),
     snd (subscribeLoop cfg packet pos client)).
Proof.
  induction n as [n IH] using lt_wf_ind. intros pos client Hn.
  rewrite (subscribeLoop_iter cfg packet pos client).
  rewrite (subscribeLoop_iter cfg packet pos (set_inbox v client)).
  destruct (pos + 2 <=? size packet) eqn:Hroom; [|reflexivity].
  destruct (pos + 2 + be16 packet pos + 1 >? size packet) eqn:Hshort; [reflexivity|].
  apply Z.leb_le in Hroom. apply gtb_false in Hshort.
  pose proof (be16_nonneg packet pos).
  cbv zeta.
  change (set_subscriptions
            (set_add string_dec (substr packet (pos + 2) (be16 packet pos))
               (subscriptions (set_inbox v client))) (set_inbox v client))
    with (set_inbox v
            (set_subscriptions
               (set_add string_dec (substr packet (pos + 2) (be16 packet pos))
                  (subscriptions client)) client)).
  rewrite (IH (Z.to_nat (size packet - (pos + 2 + be16 packet pos + 1)))
             ltac:(lia) (pos + 2 + be16 packet pos + 1) _ eq_refl).
  reflexivity.
Qed.

(** A broadcast looks at the keys, the subscriptions and the client
    identifiers of the table, never at an inbox. *)
Lemma broadcast_store_inbox sendOk topic payload k client v w clients sender verbose :
  broadcast sendOk topic payload (map_store k (set_inbox v client) clients) sender verbose
  = broadcast sendOk topic payload (map_store k (set_inbox w client) clients) sender verbose.
Proof.
  unfold broadcast.
  induction clients as [|[k' c] rest IH]; [reflexivity|].
  cbn [map_store]. destruct (k' =? k); [reflexivity|].
  cbn [flat_map]. rewrite IH. reflexivity.
Qed.

Lemma handlePacket_set_inbox sendOk cfg header offset packet k client clients v w :
  handlePacket sendOk cfg header offset packet (set_inbox v client)
    (map_store k (set_inbox v client) clients) =
  (set_inbox v
     (fst (fst (handlePacket sendOk cfg header offset packet (set_inbox w client)
                  (map_store k (set_inbox w client) clients)))),
   snd (fst (handlePacket sendOk cfg header offset packet (set_inbox w client)
               (map_store k (set_inbox w client) clients))),
   snd (handlePacket sendOk cfg header offset packet (set_inbox w client)
          (map_store k (set_inbox w client) clients))).
Proof.
  unfold handlePacket.
  destruct (Z.shiftr (u8 header) 4) as [|p|p]; try reflexivity.
  do 4 (try destruct p as [p|p|]; try reflexivity); cbn [fst snd];
    match goal with
    | |- context [handleSubscribe] =>
        unfold handleSubscribe; destruct (offset + 2 >? size packet); [reflexivity|];
        cbv zeta;
        rewrite (subscribeLoop_set_inbox cfg packet v _ (offset + 2) client eq_refl);
        rewrite (subscribeLoop_set_inbox cfg packet w _ (offset + 2) client eq_refl);
        cbn [fst snd]; rewrite set_inbox_set_inbox; reflexivity
    | |- context [handlePublish] =>
        rewrite set_inbox_set_inbox;
        unfold handlePublish; cbn [fd clientId set_inbox];
        destruct (offset + 2 >? size packet); [reflexivity|];
        destruct (offset + 2 + be16 packet offset >? size packet); [reflexivity|];
        repeat rewrite (broadcast_store_inbox sendOk _ _ k client v w);
        reflexivity
    | |- context [handleConnect] =>
        unfold handleConnect;
        repeat match goal with
               | |- context [if ?b then (set_inbox v client, _) else _] =>
                   destruct b; [reflexivity|]
               end;
        reflexivity
    | |- _ => idtac
    end.
Qed.

Lemma firstn_app_short (u v : list byte) (n : Z) :
  0 <= n <= size u -> firstn (Z.to_nat n) (u ++ v) = firstn (Z.to_nat n) u.
Proof.
  intros Hn. unfold size in Hn. rewrite firstn_app.
  replace (Z.to_nat n - List.length u)%nat with 0%nat by lia.
  simpl. apply app_nil_r.
Qed.

Lemma skipn_app_short (u v : list byte) (n : Z) :
  0 <= n <= size u -> skipn (Z.to_nat n) (u ++ v) = (skipn (Z.to_nat n) u ++ v)%list.
Proof.
  intros Hn. unfold size in Hn. rewrite skipn_app.
  replace (Z.to_nat n - List.length u)%nat with 0%nat by lia.
  reflexivity.
Qed.

Lemma size_wrap_nonneg z : 0 <= size_wrap z.
Proof. unfold size_wrap. apply Z.mod_pos_bound. lia. Qed.

(** Bytes that arrive behind the inbox do not change what the broker does
    with the packets in front of them: it does the same, and then goes on
    with what is left and the new bytes, unless a DISCONNECT has closed
    the session. *)
Lemma processPacket_more sendOk cfg k more :
  forall clients client,
    map_find k clients = Some client ->
    0 <= fd client ->
    processPacket sendOk cfg k
      (map_store k (set_inbox (inbox client ++ more) client) clients) =
    match processPacket sendOk cfg k clients with
    | Returned clients' events =>
        if closedByBroker k clients'
        then Returned (appendInbox k more clients') events
        else prepend events (processPacket sendOk cfg k (appendInbox k more clients'))
    | Diverges events cycle => Diverges events cycle
    end.
Proof.
  intros clients. remember (inboxLen k clients) as n eqn:Hn.
  revert clients Hn.
  induction n as [n IH] using lt_wf_ind.
  intros clients Hn client Hfind Hfd.
  assert (Hwait : processPacket sendOk cfg k clients = Returned clients [] ->
    processPacket sendOk cfg k
      (map_store k (set_inbox (inbox client ++ more) client) clients) =
    match processPacket sendOk cfg k clients with
    | Returned clients' events =>
        if closedByBroker k clients'
        then Returned (appendInbox k more clients') events
        else prepend events (processPacket sendOk cfg k (appendInbox k more clients'))
    | Diverges events cycle => Diverges events cycle
    end).
  { intros ->. unfold closedByBroker. rewrite Hfind.
    replace (fd client <? 0) with false by (symmetry; apply Z.ltb_ge; assumption).
    rewrite prepend_nil, (appendInbox_found _ _ _ _ Hfind). reflexivity. }
  pose proof (processPacket_iter sendOk cfg k clients) as Hiter.
  pose proof (fun c e => processStep_next_shorter sendOk cfg k clients c e) as Hshorter.
  unfold processStep in Hiter, Hshorter. rewrite Hfind in Hiter, Hshorter.
  destruct (size (inbox client) <? 2) eqn:Hsz; [exact (Hwait Hiter)|].
  destruct (decodeRemainingLength (inbox client) 1) as [[offset rl]|] eqn:Hdec;
    [|exact (Hwait Hiter)].
  destruct (size (inbox client) <? size_wrap (offset + rl)) eqn:Hlen;
    [exact (Hwait Hiter)|].
  clear Hwait. apply Z.ltb_ge in Hsz. apply Z.ltb_ge in Hlen.
  pose proof (size_wrap_nonneg (offset + rl)) as Htotal.
  set (total := size_wrap (offset + rl)) in *.
  set (packet := firstn (Z.to_nat total) (inbox client)) in *.
  set (rest := skipn (Z.to_nat total) (inbox client)) in *.
  (* the same iteration, with [more] behind the inbox *)
  assert (HfindM : map_find k
            (map_store k (set_inbox (inbox client ++ more) client) clients)
            = Some (set_inbox (inbox client ++ more) client))
    by (apply map_find_store; congruence).
  rewrite (processPacket_iter sendOk cfg k
             (map_store k (set_inbox (inbox client ++ more) client) clients)).
  unfold processStep. rewrite HfindM. cbn [inbox set_inbox].
  rewrite size_app. pose proof (size_nonneg more) as Hmore.
  replace (size (inbox client) + size more <? 2) with false
    by (symmetry; apply Z.ltb_ge; lia).
  rewrite (decodeRemainingLength_app (inbox client) more 1 _ ltac:(lia) Hdec).
  fold total.
  replace (size (inbox client) + size more <? total) with false
    by (symmetry; apply Z.ltb_ge; lia).
  rewrite (firstn_app_short (inbox client) more total) by lia.
  rewrite (skipn_app_short (inbox client) more total) by lia.
  rewrite (at_app_l (inbox client) more 0) by lia.
  fold packet. fold rest.
  repeat rewrite (set_inbox_set_inbox (rest ++ more) (inbox client ++ more) client).
  rewrite (map_store_store k (set_inbox (inbox client ++ more) client)
             (set_inbox (rest ++ more) client) clients).
  rewrite (handlePacket_set_inbox sendOk cfg (at_ (inbox client) 0) offset packet k
             client clients (rest ++ more) rest).
  pose proof (handlePacket_inbox sendOk cfg (at_ (inbox client) 0) offset packet
                (set_inbox rest client) (map_store k (set_inbox rest client) clients))
    as Hinbox.
  destruct (handlePacket sendOk cfg (at_ (inbox client) 0) offset packet
              (set_inbox rest client) (map_store k (set_inbox rest client) clients))
    as [[client2 ev] flow] eqn:Hhandle.
  cbn [fst snd inbox set_inbox] in Hinbox |- *.
  assert (Hstored : forall c,
            map_find k (map_store k c (map_store k (set_inbox rest client) clients))
            = Some c).
  { intros c. apply map_find_store. rewrite map_find_store; congruence. }
  destruct flow.
  - (* break *)
    destruct (total =? 0) eqn:Hzero; [rewrite Hiter; reflexivity|].
    rewrite Hiter.
    pose proof (handlePacket_break_fd _ _ _ _ _ _ _ _ _ Hhandle) as Hfd2.
    cbn [fd set_inbox] in Hfd2.
    specialize (Hshorter _ _ eq_refl).
    subst n.
    pose proof (IH _ Hshorter _ eq_refl client2 (Hstored client2) ltac:(lia)) as Hrec.
    rewrite Hinbox in Hrec. repeat rewrite map_store_store in Hrec.
    repeat rewrite map_store_store. rewrite Hrec.
    destruct (processPacket sendOk cfg k
                (map_store k client2 clients)) as [c3 e3|e3 cyc];
      [|reflexivity].
    cbn [prepend]. destruct (closedByBroker k c3); [reflexivity|].
    apply prepend_prepend.
  - (* return: the session is closed *)
    rewrite Hiter.
    pose proof (handlePacket_return _ _ _ _ _ _ _ _ _ Hhandle) as Hfd2.
    unfold closedByBroker. rewrite (Hstored client2).
    replace (fd client2 <? 0) with true by (symmetry; apply Z.ltb_lt; lia).
    rewrite (appendInbox_found _ _ _ _ (Hstored client2)).
    rewrite Hinbox. repeat rewrite map_store_store. reflexivity.
Qed.

Lemma closedByBroker_appendInbox k more clients :
  closedByBroker k (appendInbox k more clients) = closedByBroker k clients.
Proof.
  unfold appendInbox, closedByBroker.
  destruct (map_find k clients) as [client|] eqn:Hfind; [|rewrite Hfind; reflexivity].
  rewrite map_find_store by congruence. reflexivity.
Qed.

Lemma map_erase_appendInbox k more clients :
  map_erase k (appendInbox k more clients) = map_erase k clients.
Proof.
  unfold appendInbox. destruct (map_find k clients); [|reflexivity].
  apply map_erase_store.
Qed.

(** Nothing happens when the socket that has data is not in the table. *)
Lemma tick_absent sendOk cfg k data clients :
  ~ In k (keys clients) ->
  tick sendOk cfg (recvOnly k data) clients = TickDone clients [].
Proof.
  intros Hnot. unfold tick. cbn [accepted recvOnly acceptStep received].
  rewrite readLoop_skip; [reflexivity|].
  intros sock Hin. destruct (sock =? k) eqn:Heq; [|reflexivity].
  apply Z.eqb_eq in Heq. subst sock. contradiction.
Qed.

Lemma feed_absent sendOk cfg k chunks clients :
  ~ In k (keys clients) ->
  feed sendOk cfg k chunks clients = TickDone clients [].
Proof.
  intros Hnot. induction chunks as [|chunk rest IH]; [reflexivity|].
  cbn [feed]. rewrite (tick_absent sendOk cfg k chunk clients Hnot), IH. reflexivity.
Qed.

Lemma feed_concat sendOk cfg k chunks :
  Forall (fun chunk => chunk <> []) chunks ->
  chunks <> [] ->
  forall clients client,
    NoDup (keys clients) ->
    map_find k clients = Some client ->
    0 <= k -> 0 <= fd client ->
    feed sendOk cfg k chunks clients =
    tick sendOk cfg (recvOnly k (List.concat chunks)) clients.
Proof.
  intros Hall. induction Hall as [|chunk rest Hchunk Hrest IH];
    intros Hne clients client Hnodup Hfind Hk Hfd; [congruence|].
  destruct rest as [|chunk2 rest].
  - simpl List.concat. rewrite app_nil_r. apply feed_one.
  - assert (Hin : In k (keys clients)) by (apply map_find_In; congruence).
    set (more := List.concat (chunk2 :: rest)).
    assert (Hmore : more <> []).
    { inversion Hrest; subst. unfold more. simpl.
      destruct chunk2; [congruence|discriminate]. }
    change (feed sendOk cfg k (chunk :: chunk2 :: rest) clients) with
      (match tick sendOk cfg (recvOnly k chunk) clients with
       | TickDone clients' events =>
           prependTick events (feed sendOk cfg k (chunk2 :: rest) clients')
       | TickDiverges events cycle => TickDiverges events cycle
       end).
    change (List.concat (chunk :: chunk2 :: rest)) with (chunk ++ more)%list.
    rewrite (tick_recvOnly sendOk cfg k chunk clients Hnodup Hin Hk Hchunk).
    rewrite (tick_recvOnly sendOk cfg k (chunk ++ more) clients Hnodup Hin Hk)
      by (destruct chunk; [congruence|discriminate]).
    rewrite (appendInbox_found _ _ _ _ Hfind).
    rewrite (appendInbox_found _ _ _ _ Hfind).
    set (client1 := set_inbox (inbox client ++ chunk) client).
    set (clients1 := map_store k client1 clients).
    assert (Hfind1 : map_find k clients1 = Some client1)
      by (apply map_find_store; congruence).
    assert (Hnodup1 : NoDup (keys clients1))
      by (unfold clients1; rewrite keys_store; assumption).
    replace (map_store k (set_inbox (inbox client ++ chunk ++ more) client) clients)
      with (map_store k (set_inbox (inbox client1 ++ more) client1) clients1).
    2:{ unfold clients1, client1. cbn [inbox set_inbox].
        rewrite map_store_store, set_inbox_set_inbox, <- app_assoc. reflexivity. }
    rewrite (processPacket_more sendOk cfg k more clients1 client1 Hfind1 Hfd).
    destruct (processPacket sendOk cfg k clients1) as [clients2 ev|ev cyc] eqn:Hproc;
      [|reflexivity].
    destruct (processPacket_returned _ _ _ _ _ _ _ Hfind1 Hproc) as [client2 [-> _]].
    assert (Hfind2 : map_find k (map_store k client2 clients1) = Some client2)
      by (apply map_find_store; congruence).
    destruct (closedByBroker k (map_store k client2 clients1)) eqn:Hclosed.
    + rewrite closedByBroker_appendInbox, Hclosed, map_erase_appendInbox.
      rewrite feed_absent.
      * simpl. rewrite app_nil_r. reflexivity.
      * intros Habs. apply map_find_In in Habs. apply Habs. apply map_find_erase.
    + unfold closedByBroker in Hclosed. rewrite Hfind2 in Hclosed.
      apply Z.ltb_ge in Hclosed.
      rewrite (IH ltac:(discriminate) (map_store k client2 clients1) client2);
        try assumption.
      2:{ rewrite keys_store. assumption. }
      fold more.
      rewrite (tick_recvOnly sendOk cfg k more (map_store k client2 clients1));
        try assumption.
      2:{ rewrite keys_store. assumption. }
      2:{ rewrite keys_store. unfold clients1. rewrite keys_store. assumption. }
      destruct (processPacket sendOk cfg k
                  (appendInbox k more (map_store k client2 clients1)))
        as [clients3 ev3|ev3 cyc3]; reflexivity.
Qed.

Lemma concat_nonempty_nil (chunks : list (list byte)) :
  Forall (fun chunk => chunk <> []) chunks -> List.concat chunks = [] -> chunks = [].
Proof.
  intros Hall Hnil. destruct Hall as [|chunk rest Hchunk _]; [reflexivity|].
  simpl in Hnil. apply app_eq_nil in Hnil. destruct Hnil. contradiction.
Qed.

(** X14. The broker reads a stream: if the same bytes reach a session cut
    into reads in two different ways (any number of non-empty reads, one
    per pass of the server loop), the passes end in the same session
    table with the same events, whatever the bytes are: several packets,
    parts of packets, or bytes that are no packet at all. *)
Theorem stream_chunking_is_invisible sendOk cfg k clients client chunks chunks' :
  NoDup (keys clients) ->
  map_find k clients = Some client ->
  0 <= k -> 0 <= fd client ->
  Forall (fun chunk => chunk <> []) chunks ->
  Forall (fun chunk => chunk <> []) chunks' ->
  List.concat chunks = List.concat chunks' ->
  feed sendOk cfg k chunks clients = feed sendOk cfg k chunks' clients.
Proof.
  intros Hnodup Hfind Hk Hfd Hall Hall' Hsame.
  destruct chunks as [|c cs].
  - symmetry in Hsame. apply (concat_nonempty_nil _ Hall') in Hsame.
    subst chunks'. reflexivity.
  - destruct chunks' as [|c' cs'].
    + apply (concat_nonempty_nil _ Hall) in Hsame. discriminate.
    + rewrite (feed_concat sendOk cfg k (c :: cs) Hall ltac:(discriminate)
                 clients client Hnodup Hfind Hk Hfd).
      rewrite (feed_concat sendOk cfg k (c' :: cs') Hall' ltac:(discriminate)
                 clients client Hnodup Hfind Hk Hfd).
      rewrite Hsame. reflexivity.
Qed.

Lemma stream_chunking_is_invisible_witness :
  feed (fun _ _ => true) defaultConfig 5
    [[x82; x09; x00]; [x01; x00; x04; x74; x65; x73; x74; x00; xc0]; [x00; x30]] twoIdle
  = feed (fun _ _ => true) defaultConfig 5
      [[x82]; [x09; x00; x01; x00; x04; x74; x65; x73; x74; x00; xc0; x00; x30]] twoIdle.
Proof.
  apply (stream_chunking_is_invisible (fun _ _ => true) defaultConfig 5 twoIdle
           {| fd := 5; clientId := "stm"; subscriptions := ["cmd/luz"%string];
              inbox := [] |}).
  - repeat constructor; simpl; intuition discriminate.
  - reflexivity.
  - lia.
  - simpl. lia.
  - repeat constructor; discriminate.
  - repeat constructor; discriminate.
  - reflexivity.
Defined.

(** ** Passes of the server loop *)

Lemma fourContinuations_app_l (u v : list byte) :
  fourContinuations (u ++ v) = false -> fourContinuations u = false.
Proof.
  induction u as [|b1 u IH]; [reflexivity|].
  change (fourContinuations ((b1 :: u) ++ v)) with
    ((negb (Z.land (u8 b1) 128 =? 0)
      && match (u ++ v)%list with
         | b2 :: b3 :: b4 :: _ =>
             negb (Z.land (u8 b2) 128 =? 0)
             && negb (Z.land (u8 b3) 128 =? 0)
             && negb (Z.land (u8 b4) 128 =? 0)
         | _ => false
         end)
     || fourContinuations (u ++ v)).
  change (fourContinuations (b1 :: u)) with
    ((negb (Z.land (u8 b1) 128 =? 0)
      && match u with
         | b2 :: b3 :: b4 :: _ =>
             negb (Z.land (u8 b2) 128 =? 0)
             && negb (Z.land (u8 b3) 128 =? 0)
             && negb (Z.land (u8 b4) 128 =? 0)
         | _ => false
         end)
     || fourContinuations u).
  intros H. apply orb_false_iff in H. destruct H as [Hhead Htail].
  rewrite (IH Htail), orb_false_r.
  destruct (negb (Z.land (u8 b1) 128 =? 0)); [|reflexivity].
  destruct u as [|b2 [|b3 [|b4 u]]]; try reflexivity.
  exact Hhead.
Qed.

(** X15. A pass in which one session receives data ends, and the loop is
    ready for the next pass, whenever the session's inbox with the new
    data holds no four bytes in a row with the continuation bit set:
    only an over-long Remaining Length can make [processPacket] hang. *)
Theorem pass_ends_without_overlong_length sendOk cfg k clients client data :
  NoDup (keys clients) ->
  map_find k clients = Some client ->
  0 <= k ->
  data <> [] ->
  fourContinuations (inbox client ++ data) = false ->
  exists clients' events,
    tick sendOk cfg (recvOnly k data) clients = TickDone clients' events.
Proof.
  intros Hnodup Hfind Hk Hdata Hfour.
  assert (Hin : In k (keys clients)) by (apply map_find_In; congruence).
  rewrite (tick_recvOnly sendOk cfg k data clients Hnodup Hin Hk Hdata).
  rewrite (appendInbox_found _ _ _ _ Hfind).
  destruct (processPacket_returns sendOk cfg k
              (map_store k (set_inbox (inbox client ++ data) client) clients)
              (set_inbox (inbox client ++ data) client))
    as [clients' [events Hrun]].
  - apply map_find_store. congruence.
  - exact Hfour.
  - rewrite Hrun. eexists. eexists. reflexivity.
Qed.

Lemma pass_ends_without_overlong_length_witness :
  exists clients' events,
    tick (fun _ _ => true) defaultConfig
      (recvOnly 5 [x30; xff; xff; xff; x7f; xc0; x00]) twoIdle
    = TickDone clients' events.
Proof.
  apply (pass_ends_without_overlong_length (fun _ _ => true) defaultConfig 5 twoIdle
           {| fd := 5; clientId := "stm"; subscriptions := ["cmd/luz"%string];
              inbox := [] |}).
  - repeat constructor; simpl; intuition discriminate.
  - reflexivity.
  - lia.
  - discriminate.
  - vm_compute. reflexivity.
Defined.

(** X16. In every session table the server reaches, each session is
    stored under its own socket, which is not negative, and no socket has
    two sessions: a response sent to [client.fd] and a PUBLISH forwarded
    to a key of the table go to the sockets of the sessions meant. *)
Theorem sessions_are_keyed_by_their_socket sendOk cfg clients :
  reachable sendOk cfg clients ->
  NoDup (keys clients) /\
  forall k client, map_find k clients = Some client -> fd client = k /\ 0 <= k.
Proof.
  intros Hreach.
  destruct (reachable_wellFormed sendOk cfg clients Hreach) as [Hsorted Hall].
  split; [apply sorted_NoDup; assumption|].
  intros k client Hfind. rewrite Forall_forall in Hall.
  assert (Hin : In (k, client) clients).
  { clear Hall Hsorted Hreach.
    induction clients as [|[k' c] rest IH]; [discriminate|].
    simpl in Hfind. destruct (k' =? k) eqn:Hk.
    - apply Z.eqb_eq in Hk. left. congruence.
    - right. apply IH. assumption. }
  exact (Hall (k, client) Hin).
Qed.

Lemma sessions_are_keyed_by_their_socket_witness :
  NoDup (keys [(5, newSession 5); (7, newSession 7)]) /\
  forall k client,
    map_find k [(5, newSession 5); (7, newSession 7)] = Some client ->
    fd client = k /\ 0 <= k.
Proof.
  apply (sessions_are_keyed_by_their_socket (fun _ _ => true) defaultConfig).
  apply (reachable_tick _ _ [(7, newSession 7)]
           {| accepted := Some 5; received := fun _ => None |} _
           [EvLog "[accept] fd=5"]).
  - apply (reachable_tick _ _ []
             {| accepted := Some 7; received := fun _ => None |} _
             [EvLog "[accept] fd=7"]).
    + apply reachable_start.
    + vm_compute. reflexivity.
  - vm_compute. reflexivity.
Defined.

Lemma appendInbox_keys k data clients : keys (appendInbox k data clients) = keys clients.
Proof.
  unfold appendInbox. destruct (map_find k clients); [apply keys_store|reflexivity].
Qed.

Lemma processPacket_keys sendOk cfg k clients clients' events :
  processPacket sendOk cfg k clients = Returned clients' events ->
  keys clients' = keys clients.
Proof.
  intros Hrun. destruct (map_find k clients) as [client|] eqn:Hfind.
  - destruct (processPacket_returned _ _ _ _ _ _ _ Hfind Hrun) as [client' [-> _]].
    apply keys_store.
  - rewrite (processPacket_absent _ _ _ _ Hfind) in Hrun. congruence.
Qed.

Lemma readLoop_keys sendOk cfg readfds recv todo :
  forall clients toRemove clients' toRemove' events,
    readLoop sendOk cfg readfds recv todo clients toRemove
      = ReadDone clients' toRemove' events ->
    keys clients' = keys clients.
Proof.
  induction todo as [|sock rest IH]; intros clients toRemove clients' toRemove' events
    Hrun; simpl in Hrun.
  - congruence.
  - destruct (existsb (Z.eqb sock) readfds); [|eapply IH; eassumption].
    destruct (recv sock) as [[|b data]|]; [| |eapply IH; eassumption].
    + destruct (readLoop sendOk cfg readfds recv rest clients (toRemove ++ [sock]))
        as [c2 t2 e2|] eqn:Hrest; [|discriminate].
      injection Hrun as <- _ _. eapply IH; eassumption.
    + destruct (processPacket sendOk cfg sock (appendInbox sock (b :: data) clients))
        as [c1 e1|] eqn:Hproc; [|discriminate].
      destruct (readLoop sendOk cfg readfds recv rest c1 _)
        as [c2 t2 e2|] eqn:Hrest; [|discriminate].
      injection Hrun as <- _ _.
      rewrite (IH _ _ _ _ _ Hrest), (processPacket_keys _ _ _ _ _ _ Hproc).
      apply appendInbox_keys.
Qed.

Lemma size_keys (m : Clients) : size (keys m) = size m.
Proof. unfold size, keys. rewrite length_map. reflexivity. Qed.

Lemma size_map_erase k (m : Clients) : size (map_erase k m) <= size m.
Proof.
  unfold size, map_erase. pose proof (filter_length_le (fun pair : Z * ClientSession =>
    negb (fst pair =? k)) m). lia.
Qed.

Lemma size_eraseAll toRemove (m : Clients) : size (eraseAll toRemove m) <= size m.
Proof.
  unfold eraseAll. revert m.
  induction toRemove as [|sock rest IH]; intros m; simpl; [lia|].
  pose proof (IH (map_erase sock m)). pose proof (size_map_erase sock m). lia.
Qed.

Lemma size_map_assign k v (m : Clients) : size (map_assign k v m) <= size m + 1.
Proof.
  induction m as [|[k' v'] rest IH]; cbn [map_assign].
  - unfold size. simpl. lia.
  - destruct (k <? k'); [repeat rewrite size_cons; lia|].
    destruct (k =? k'); repeat rewrite size_cons; lia.
Qed.

(** X17. The table never holds more sessions than [maxClients] (none
    when [maxClients] is negative): a connection that would exceed it is
    closed at once. *)
Theorem table_never_exceeds_capacity sendOk cfg clients :
  reachable sendOk cfg clients ->
  size clients <= Z.max 0 (maxClients cfg).
Proof.
  induction 1 as [|clients input clients' events Hreach IH Htick].
  - unfold size. simpl. lia.
  - unfold tick in Htick.
    destruct (acceptStep cfg (accepted input) clients) as [clients1 ev1] eqn:Haccept.
    assert (Hsize1 : size clients1 <= Z.max 0 (maxClients cfg)).
    { unfold acceptStep in Haccept.
      destruct (accepted input) as [newFd|]; [|injection Haccept as <- _; assumption].
      destruct (newFd >=? 0); [|injection Haccept as <- _; assumption].
      destruct (size clients >=? maxClients cfg) eqn:Hfull;
        injection Haccept as <- _; [assumption|].
      pose proof (size_map_assign newFd (newSession newFd) clients).
      assert (size clients < maxClients cfg).
      { destruct (Z.geb_spec (size clients) (maxClients cfg)); [discriminate|lia]. }
      lia. }
    destruct (readLoop _ _ _ _ _ _ _) as [clients2 toRemove ev2|] eqn:Hread;
      [|discriminate].
    injection Htick as <- _.
    pose proof (readLoop_keys _ _ _ _ _ _ _ _ _ _ Hread) as Hkeys.
    pose proof (size_eraseAll toRemove clients2).
    rewrite <- (size_keys clients2), Hkeys, size_keys in *. lia.
Qed.

Lemma table_never_exceeds_capacity_witness :
  size [(5, newSession 5); (7, newSession 7)] <= Z.max 0 (maxClients defaultConfig).
Proof.
  apply (table_never_exceeds_capacity (fun _ _ => true) defaultConfig).
  apply (reachable_tick _ _ [(7, newSession 7)]
           {| accepted := Some 5; received := fun _ => None |} _
           [EvLog "[accept] fd=5"]).
  - apply (reachable_tick _ _ []
             {| accepted := Some 7; received := fun _ => None |} _
             [EvLog "[accept] fd=7"]).
    + apply reachable_start.
    + vm_compute. reflexivity.
  - vm_compute. reflexivity.
Defined.

Local Open Scope string_scope.
Local Open Scope Z_scope.

Lemma readLoop_close sendOk cfg readfds recv k todo clients toRemove :
  NoDup todo -> In k todo -> In k readfds ->
  recv k = Some [] -> (forall sock, sock <> k -> recv sock = None) ->
  readLoop sendOk cfg readfds recv todo clients toRemove =
  ReadDone clients (toRemove ++ [k])%list
    (log ("[close] fd=" ++ to_string k) (quiet cfg) ++ [EvClose k])%list.
Proof.
  intros Hnodup Hin Hready Hrecv Hnone.
  induction todo as [|sock rest IH]; [contradiction|].
  inversion Hnodup as [|? ? Hnotin Hnodup']; subst.
  cbn [readLoop]. destruct (Z.eq_dec sock k) as [->|Hne].
  - replace (existsb (Z.eqb k) readfds) with true
      by (symmetry; apply existsb_exists; exists k; split; [assumption|apply Z.eqb_refl]).
    rewrite Hrecv. rewrite readLoop_skip.
    + cbn [prependRead]. rewrite app_nil_r. reflexivity.
    + intros sock Hsock. apply Hnone. intros ->. contradiction.
  - rewrite (Hnone sock Hne).
    destruct Hin as [Hin|Hin]; [contradiction|].
    destruct (existsb (Z.eqb sock) readfds); apply IH; assumption.
Qed.

(** X18. When a peer closes its connection ([recv] returns nothing), the
    pass closes the socket and drops that session, with whatever its
    inbox still held; nothing is sent to anyone and every other session
    stays as it was. *)
Theorem peer_close_drops_only_its_session sendOk cfg k clients :
  NoDup (keys clients) ->
  In k (keys clients) ->
  0 <= k ->
  tick sendOk cfg (recvOnly k []) clients =
    TickDone (map_erase k clients)
      (log ("[close] fd=" ++ to_string k) (quiet cfg) ++ [EvClose k])%list
  /\ map_find k (map_erase k clients) = None
  /\ forall other, other <> k ->
       map_find other (map_erase k clients) = map_find other clients.
Proof.
  intros Hnodup Hin Hk. split; [|split].
  - unfold tick. cbn [accepted recvOnly acceptStep received].
    rewrite (readLoop_close sendOk cfg _ _ k (keys clients) clients [] Hnodup Hin).
    + reflexivity.
    + apply filter_In. split; [assumption|]. apply Z.geb_le. lia.
    + rewrite Z.eqb_refl. reflexivity.
    + intros sock Hne. apply Z.eqb_neq in Hne. rewrite Hne. reflexivity.
  - apply map_find_erase.
  - intros other Hne. apply map_find_erase_other. congruence.
Qed.

Lemma peer_close_drops_only_its_session_witness :
  tick (fun _ _ => true) defaultConfig (recvOnly 5 []) twoSubscribers =
    TickDone (map_erase 5 twoSubscribers)
      (log ("[close] fd=" ++ to_string 5) (quiet defaultConfig) ++ [EvClose 5])%list
  /\ map_find 5 (map_erase 5 twoSubscribers) = None
  /\ forall other, other <> 5 ->
       map_find other (map_erase 5 twoSubscribers) = map_find other twoSubscribers.
Proof.
  apply (peer_close_drops_only_its_session (fun _ _ => true) defaultConfig 5
           twoSubscribers).
  - repeat constructor; simpl; intuition discriminate.
  - simpl. left. reflexivity.
  - lia.
Defined.

Lemma map_find_assign k v m : map_find k (map_assign k v m) = Some v.
Proof.
  induction m as [|[k' v'] rest IH]; cbn [map_assign map_find].
  - rewrite Z.eqb_refl. reflexivity.
  - destruct (k <? k') eqn:Hlt; [cbn [map_find]; rewrite Z.eqb_refl; reflexivity|].
    destruct (k =? k') eqn:Heq; cbn [map_find].
    + rewrite Z.eqb_refl. reflexivity.
    + rewrite Z.eqb_sym, Heq. assumption.
Qed.

Lemma map_find_eraseAll_other x toRemove m :
  ~ In x toRemove -> map_find x (eraseAll toRemove m) = map_find x m.
Proof.
  unfold eraseAll. revert m.
  induction toRemove as [|sock rest IH]; intros m Hnot; [reflexivity|].
  cbn [fold_left]. rewrite IH by (intros H; apply Hnot; right; assumption).
  apply map_find_erase_other. intros ->. apply Hnot. left. reflexivity.
Qed.

Lemma map_find_appendInbox_other x k data m :
  x <> k -> map_find x (appendInbox k data m) = map_find x m.
Proof.
  intros Hne. unfold appendInbox. destruct (map_find k m); [|reflexivity].
  apply map_find_store_other. congruence.
Qed.

Lemma processPacket_other sendOk cfg k x clients clients' events :
  x <> k ->
  processPacket sendOk cfg k clients = Returned clients' events ->
  map_find x clients' = map_find x clients.
Proof.
  intros Hne Hrun. destruct (map_find k clients) as [client|] eqn:Hfind.
  - destruct (processPacket_returned _ _ _ _ _ _ _ Hfind Hrun) as [client' [-> _]].
    apply map_find_store_other. congruence.
  - rewrite (processPacket_absent _ _ _ _ Hfind) in Hrun. congruence.
Qed.

(** A socket that was not in the read set is neither served nor put on
    the removal list. *)
Lemma readLoop_untouched sendOk cfg readfds recv x todo :
  ~ In x readfds ->
  forall clients toRemove clients' toRemove' events,
    readLoop sendOk cfg readfds recv todo clients toRemove
      = ReadDone clients' toRemove' events ->
    map_find x clients' = map_find x clients /\
    (In x toRemove' -> In x toRemove).
Proof.
  intros Hnot.
  induction todo as [|sock rest IH]; intros clients toRemove clients' toRemove' events
    Hrun; cbn [readLoop] in Hrun.
  - injection Hrun as <- <- _. tauto.
  - destruct (existsb (Z.eqb sock) readfds) eqn:Hset; [|eapply IH; eassumption].
    assert (Hne : x <> sock).
    { intros ->. apply existsb_exists in Hset. destruct Hset as [y [Hy Heq]].
      apply Z.eqb_eq in Heq. subst y. contradiction. }
    assert (Hmore : forall t, In x (t ++ [sock])%list -> In x t).
    { intros t H. apply in_app_or in H. destruct H as [H|[H|[]]]; congruence. }
    destruct (recv sock) as [[|b data]|]; [| |eapply IH; eassumption].
    + destruct (readLoop sendOk cfg readfds recv rest clients (toRemove ++ [sock]))
        as [c2 t2 e2|] eqn:Hrest; [|discriminate].
      injection Hrun as <- <- _.
      destruct (IH _ _ _ _ _ Hrest) as [H1 H2]. split; [assumption|].
      intros H. apply Hmore, H2. assumption.
    + destruct (processPacket sendOk cfg sock (appendInbox sock (b :: data) clients))
        as [c1 e1|] eqn:Hproc; [|discriminate].
      destruct (readLoop sendOk cfg readfds recv rest c1 _)
        as [c2 t2 e2|] eqn:Hrest; [|discriminate].
      injection Hrun as <- <- _.
      destruct (IH _ _ _ _ _ Hrest) as [H1 H2]. split.
      * rewrite H1, (processPacket_other _ _ _ _ _ _ _ Hne Hproc).
        apply map_find_appendInbox_other. assumption.
      * intros H. apply H2 in H. destruct (closedByBroker sock c1); [|assumption].
        apply Hmore. assumption.
Qed.

(** X19. A connection accepted below capacity gets a fresh session (no
    client identifier yet, no subscription, empty inbox) that comes out of
    the pass untouched, whatever the other sockets deliver in that pass:
    the new socket is first read in the next pass. *)
Theorem accepted_session_is_fresh sendOk cfg input clients newFd clients' events :
  accepted input = Some newFd ->
  0 <= newFd ->
  ~ In newFd (keys clients) ->
  size clients < maxClients cfg ->
  tick sendOk cfg input clients = TickDone clients' events ->
  map_find newFd clients' = Some (newSession newFd) /\
  exists rest,
    events = (log ("[accept] fd=" ++ to_string newFd) (quiet cfg) ++ rest)%list.
Proof.
  intros Haccept Hfd Hnew Hroom Htick.
  unfold tick in Htick. rewrite Haccept in Htick. cbn [acceptStep] in Htick.
  replace (newFd >=? 0) with true in Htick by (symmetry; apply Z.geb_le; lia).
  replace (size clients >=? maxClients cfg) with false in Htick.
  2:{ symmetry. destruct (Z.geb_spec (size clients) (maxClients cfg)); [lia|reflexivity]. }
  destruct (readLoop _ _ _ _ _ _ _) as [clients2 toRemove ev2|] eqn:Hread;
    [|discriminate].
  injection Htick as <- <-.
  assert (Hnot : ~ In newFd (filter (fun k => k >=? 0) (keys clients))).
  { intros H. apply filter_In in H. tauto. }
  destruct (readLoop_untouched sendOk cfg _ _ newFd _ Hnot _ _ _ _ _ Hread) as [H1 H2].
  split; [|eexists; reflexivity].
  rewrite map_find_eraseAll_other by (intros H; exact (H2 H)).
  rewrite H1. apply map_find_assign.
Qed.

Lemma accepted_session_is_fresh_witness :
  map_find 7
    [(5, {| fd := 5; clientId := "sub"; subscriptions := ["test"]; inbox := [] |});
     (6, {| fd := 6; clientId := "pub"; subscriptions := ["test"]; inbox := [] |});
     (7, newSession 7)]
  = Some (newSession 7) /\
  exists rest,
    [EvLog "[accept] fd=7";
     EvLog "[publish] from=pub topic='test' payload='hello'";
     EvSend 5 publishQoS0;
     EvLog "Forwarded to sub on topic 'test'"]
    = (log ("[accept] fd=" ++ to_string 7) (quiet defaultConfig) ++ rest)%list.
Proof.
  apply (accepted_session_is_fresh (fun _ _ => true) defaultConfig
           {| accepted := Some 7;
              received := fun sock => if sock =? 6 then Some publishQoS0
                                      else if sock =? 7 then Some [xc0; x00]
                                      else None |}
           [(5, {| fd := 5; clientId := "sub"; subscriptions := ["test"]; inbox := [] |});
            (6, {| fd := 6; clientId := "pub"; subscriptions := ["test"]; inbox := [] |})]
           7).
  - reflexivity.
  - lia.
  - simpl. intuition discriminate.
  - vm_compute. reflexivity.
  - vm_compute. reflexivity.
Defined.

(** ** What [--quiet] silences *)









(** ** The command line *)

(** Between two configurations, every field is as it was or its option
    is among [args]. *)
Definition namedOrKept (args : list string) (before after : Config) : Prop :=
  (port after = port before \/ In "--port" args) /\
  (maxClients after = maxClients before \/ In "--max" args) /\
  (quiet after = quiet before \/ In "--quiet" args) /\
  (logPackets after = logPackets before \/ In "--raw" args) /\
  (traceSubscriptions after = traceSubscriptions before \/ In "--trace-sub" args) /\
  (traceMessages after = traceMessages before \/ In "--no-trace-msg" args) /\
  (artificialDelayMs after = artificialDelayMs before \/ In "--delay" args).

Definition options : list string :=
  ["--port"; "--max"; "--quiet"; "--raw"; "--trace-sub"; "--no-trace-msg"; "--delay"].

Lemma namedOrKept_refl args cfg : namedOrKept args cfg cfg.
Proof. unfold namedOrKept. tauto. Qed.

Lemma namedOrKept_trans first rest args c0 c1 c2 :
  namedOrKept first c0 c1 -> namedOrKept rest c1 c2 ->
  incl first args -> incl rest args ->
  namedOrKept args c0 c2.
Proof.
  unfold namedOrKept, incl. intros H1 H2 Hfirst Hrest.
  repeat match goal with H : _ /\ _ |- _ => destruct H end.
  repeat split;
    match goal with
    | Ha : ?f c1 = ?f c0 \/ In ?flag first, Hb : ?f c2 = ?f c1 \/ In ?flag rest
      |- ?f c2 = ?f c0 \/ In ?flag args =>
        destruct Ha as [Ha|Ha]; destruct Hb as [Hb|Hb];
        [left; congruence|right; auto|right; auto|right; auto]
    end.
Qed.

Lemma valued_true flag arg rest :
  valued flag arg rest = true -> arg = flag /\ exists v rest', rest = v :: rest'.
Proof.
  unfold valued. intros H. apply andb_true_iff in H. destruct H as [Heq Hrest].
  apply String.eqb_eq in Heq. split; [assumption|].
  destruct rest as [|v rest']; [discriminate|]. eexists. eexists. reflexivity.
Qed.

Lemma parseLoop_namedOrKept stoi :
  forall n args cfg0 cfg,
    (List.length args <= n)%nat ->
    parseLoop stoi args cfg0 = ParsedOk cfg ->
    namedOrKept args cfg0 cfg /\
    match args with
    | [] => True
    | arg :: _ => In arg options
    end.
Proof.
  induction n as [|n IH]; intros args cfg0 cfg Hlen Hrun.
  - destruct args; [|simpl in Hlen; lia].
    injection Hrun as <-. split; [apply namedOrKept_refl|exact I].
  - destruct args as [|arg rest].
    { injection Hrun as <-. split; [apply namedOrKept_refl|exact I]. }
    cbn [parseLoop] in Hrun. cbn [List.length] in Hlen.
    assert (Hvalued : forall flag (set : Z -> Config -> Config),
              valued flag arg rest = true ->
              (forall z, namedOrKept [flag] cfg0 (set z cfg0)) ->
              match rest with
              | [] => UsageExit
              | v :: rest' =>
                  match stoi v with
                  | Some z => parseLoop stoi rest' (set z cfg0)
                  | None => StoiThrows
                  end
              end = ParsedOk cfg ->
              namedOrKept (arg :: rest) cfg0 cfg /\ arg = flag).
    { intros flag set Hflag Hset Hgo.
      apply valued_true in Hflag. destruct Hflag as [-> [v [rest' ->]]].
      destruct (stoi v) as [z|]; [|discriminate].
      cbn [List.length] in Hlen.
      destruct (IH rest' _ _ ltac:(lia) Hgo) as [Hrest _].
      split; [|reflexivity].
      apply (namedOrKept_trans [flag] rest' _ _ _ _ (Hset z) Hrest).
      - intros x [<-|[]]. left. reflexivity.
      - intros x Hx. right. right. assumption. }
    assert (Hflag : forall flag cfg1,
              arg = flag ->
              namedOrKept [flag] cfg0 cfg1 ->
              parseLoop stoi rest cfg1 = ParsedOk cfg ->
              namedOrKept (arg :: rest) cfg0 cfg).
    { intros flag cfg1 -> Hset Hgo.
      destruct (IH rest _ _ ltac:(lia) Hgo) as [Hrest _].
      apply (namedOrKept_trans [flag] rest _ _ _ _ Hset Hrest).
      - intros x [<-|[]]. left. reflexivity.
      - intros x Hx. right. assumption. }
    destruct (valued "--port" arg rest) eqn:Hport.
    { destruct (Hvalued "--port" set_port Hport ltac:(intros z; repeat split; try (left; reflexivity); right; left; reflexivity) Hrun)
        as [H ->]. split; [assumption|]. unfold options. simpl. tauto. }
    destruct (valued "--max" arg rest) eqn:Hmax.
    { destruct (Hvalued "--max" set_maxClients Hmax ltac:(intros z; repeat split; try (left; reflexivity); right; left; reflexivity) Hrun)
        as [H ->]. split; [assumption|]. unfold options. simpl. tauto. }
    destruct (String.eqb arg "--quiet") eqn:Hq.
    { apply String.eqb_eq in Hq. split.
      - apply (Hflag "--quiet" (set_quiet true cfg0) Hq ltac:(repeat split; try (left; reflexivity); right; left; reflexivity) Hrun).
      - subst arg. unfold options. simpl. tauto. }
    destruct (String.eqb arg "--raw") eqn:Hr.
    { apply String.eqb_eq in Hr. split.
      - apply (Hflag "--raw" (set_logPackets true cfg0) Hr ltac:(repeat split; try (left; reflexivity); right; left; reflexivity) Hrun).
      - subst arg. unfold options. simpl. tauto. }
    destruct (String.eqb arg "--trace-sub") eqn:Hs.
    { apply String.eqb_eq in Hs. split.
      - apply (Hflag "--trace-sub" (set_traceSubscriptions true cfg0) Hs ltac:(repeat split; try (left; reflexivity); right; left; reflexivity) Hrun).
      - subst arg. unfold options. simpl. tauto. }
    destruct (String.eqb arg "--no-trace-msg") eqn:Hm.
    { apply String.eqb_eq in Hm. split.
      - apply (Hflag "--no-trace-msg" (set_traceMessages false cfg0) Hm ltac:(repeat split; try (left; reflexivity); right; left; reflexivity) Hrun).
      - subst arg. unfold options. simpl. tauto. }
    destruct (valued "--delay" arg rest) eqn:Hdelay; [|discriminate].
    destruct (Hvalued "--delay" set_artificialDelayMs Hdelay ltac:(intros z; repeat split; try (left; reflexivity); right; left; reflexivity) Hrun)
      as [H ->]. split; [assumption|]. unfold options. simpl. tauto.
Qed.

(** X21. When [parseArgs] returns a configuration, a setting differs from
    its default only if its option is on the command line (the port is
    1883, the capacity 8, messages are traced, nothing else is on, there
    is no delay), and the first argument, if there is one, is one of the
    seven options. *)
Theorem settings_change_only_when_named stoi argv cfg :
  parseArgs stoi argv = ParsedOk cfg ->
  (port cfg <> 1883 -> In "--port" (tl argv)) /\
  (maxClients cfg <> 8 -> In "--max" (tl argv)) /\
  (quiet cfg = true -> In "--quiet" (tl argv)) /\
  (logPackets cfg = true -> In "--raw" (tl argv)) /\
  (traceSubscriptions cfg = true -> In "--trace-sub" (tl argv)) /\
  (traceMessages cfg = false -> In "--no-trace-msg" (tl argv)) /\
  (artificialDelayMs cfg <> 0 -> In "--delay" (tl argv)) /\
  (forall arg, hd_error (tl argv) = Some arg -> In arg options).
Proof.
  unfold parseArgs. intros Hrun.
  destruct (parseLoop_namedOrKept stoi _ _ _ _ (Nat.le_refl _) Hrun) as [Hkept Hfirst].
  unfold namedOrKept in Hkept. cbn [port maxClients quiet logPackets traceSubscriptions
    traceMessages artificialDelayMs defaultConfig] in Hkept.
  destruct Hkept as [H1 [H2 [H3 [H4 [H5 [H6 H7]]]]]].
  repeat split.
  - intros Hne. destruct H1; [contradiction|assumption].
  - intros Hne. destruct H2; [contradiction|assumption].
  - intros Hon. destruct H3; [congruence|assumption].
  - intros Hon. destruct H4; [congruence|assumption].
  - intros Hon. destruct H5; [congruence|assumption].
  - intros Hoff. destruct H6; [congruence|assumption].
  - intros Hne. destruct H7; [contradiction|assumption].
  - intros arg Harg. destruct (tl argv) as [|a rest]; [discriminate|].
    injection Harg as ->. assumption.
Qed.

Lemma settings_change_only_when_named_witness :
  (port (set_quiet true (set_port 1884 defaultConfig)) <> 1883 ->
     In "--port" ["--port"; "1884"; "--quiet"]) /\
  (maxClients (set_quiet true (set_port 1884 defaultConfig)) <> 8 ->
     In "--max" ["--port"; "1884"; "--quiet"]) /\
  (quiet (set_quiet true (set_port 1884 defaultConfig)) = true ->
     In "--quiet" ["--port"; "1884"; "--quiet"]) /\
  (logPackets (set_quiet true (set_port 1884 defaultConfig)) = true ->
     In "--raw" ["--port"; "1884"; "--quiet"]) /\
  (traceSubscriptions (set_quiet true (set_port 1884 defaultConfig)) = true ->
     In "--trace-sub" ["--port"; "1884"; "--quiet"]) /\
  (traceMessages (set_quiet true (set_port 1884 defaultConfig)) = false ->
     In "--no-trace-msg" ["--port"; "1884"; "--quiet"]) /\
  (artificialDelayMs (set_quiet true (set_port 1884 defaultConfig)) <> 0 ->
     In "--delay" ["--port"; "1884"; "--quiet"]) /\
  (forall arg, hd_error ["--port"; "1884"; "--quiet"] = Some arg -> In arg options).
Proof.
  apply (settings_change_only_when_named (fun _ => Some 1884)
           ["mqtt_debug_server"; "--port"; "1884"; "--quiet"]
           (set_quiet true (set_port 1884 defaultConfig))).
  reflexivity.
Defined.
